(** * Block-driven synchronisation: the P2P client and the note processor

    A shallow embedding of two classes of the repository,

    - [P2PClient] (the transaction-pool synchronisation state machine), and
    - [NoteProcessor] (yarn-project/pxe/src/note_processor/note_processor.ts),

    together with the properties their specification states about them.

    Both classes are written as state-passing code in a small state and
    exception monad: a method takes the object's fields and returns either a
    value or a thrown error, together with the fields as the method left
    them (a JavaScript [throw] does not roll back earlier assignments).
    Values that an [await] obtains from a collaborator (the remote tip, the
    next batch of blocks) are arguments of the method.

    A method is first given as the call that runs from its first line to
    its last: nothing runs while it awaits, and its collaborators do what
    they are asked. Two refinements lift that. [P2P.occur] runs the
    client's calls as halves, split at the [await], so that calls overlap;
    and [P2P.Fallible] and [PXE.Fallible] give the methods whose
    collaborator (the pool, the database) can fail a call, so that a method
    can throw between two of its writes. *)

From stdpp Require Import base option list gmap.
From Stdlib Require Import ZArith Lia.

Local Open Scope Z_scope.

(** ** Thrown errors *)

(** One constructor per [throw] of the two classes, one for the
    [TypeError] JavaScript raises when a property of [undefined] is read,
    and one for the error a collaborator's call throws or rejects with. *)
Inductive Error : Type :=
  | AlreadyStopped          (* 'P2P client already stopped' *)
  | NotReady                (* 'P2P client not ready' *)
  | BatchLengthMismatch (blocks logs : nat)
                            (* 'Number of blocks and EncryptedLogs is not equal. ...' *)
  | DecryptionPayloadConflict
                            (* 'Incoming and outgoing note payloads do not match.' *)
  | DeferredRetryFailed     (* 'Deferred note could not be decoded.' *)
  | TypeError               (* property access on undefined *)
  | StorageError.           (* what a call of the pool or the database fails with *)

Inductive Result (A : Type) : Type :=
  | Ok (a : A)
  | Err (e : Error).
Arguments Ok {A} a.
Arguments Err {A} e.

(** ** The state and exception monad *)

Definition M (S A : Type) : Type := S → Result A * S.

Definition ret {S A} (a : A) : M S A := λ s, (Ok a, s).

Definition throw {S A} (e : Error) : M S A := λ s, (Err e, s).

Definition bind {S A B} (m : M S A) (k : A → M S B) : M S B :=
  λ s, match m s with
       | (Ok a, s') => k a s'
       | (Err e, s') => (Err e, s')
       end.

Definition get {S} : M S S := λ s, (Ok s, s).

Definition modify {S} (f : S → S) : M S unit := λ s, (Ok tt, f s).

Notation "'let*' x ':=' m 'in' k" := (bind m (λ x, k))
  (at level 10, x pattern, m at level 100, k at level 200, only parsing).
Notation "m '>>' k" := (bind m (λ _, k))
  (at level 61, left associativity, only parsing).

(** [for (const x of xs) body(x)] *)
Fixpoint forOf {S A} (body : A → M S unit) (xs : list A) : M S unit :=
  match xs with
  | [] => ret tt
  | x :: rest => body x >> forOf body rest
  end.

(** [for (const x of xs) acc = body(acc, x)] *)
Fixpoint foldM {S A B} (body : B → A → M S B) (xs : list A) (b : B) : M S B :=
  match xs with
  | [] => ret b
  | x :: rest => let* b' := body b x in foldM body rest b'
  end.

(** [m], with [f] applied to what it returns. *)
Definition mapM {S A B} (f : A → B) (m : M S A) : M S B :=
  let* a := m in ret (f a).

(** Whatever [m] does to the state stays within [R]. *)
Definition preserves {S A} (R : S → S → Prop) (m : M S A) : Prop :=
  ∀ s, R s (snd (m s)).

(** [m] throws nothing but errors in [E]. *)
Definition throwsOnly {S A} (E : Error → Prop) (m : M S A) : Prop :=
  ∀ s e, fst (m s) = Err e → E e.

(** [m] throws, in whatever state it is run. *)
Definition alwaysThrows {S A} (m : M S A) : Prop :=
  ∀ s, ∃ e, fst (m s) = Err e.

(** [m] does not look at what [g] changes: running it after [g] is running
    it before. *)
Definition commutes {S A} (g : S → S) (m : M S A) : Prop :=
  ∀ s, m (g s) = (fst (m s), g (snd (m s))).

(** A promise as far as these classes are concerned: settled or not. *)
Inductive Promise : Type := Pending | Resolved.

(** * The P2P client *)

Module P2P.

(** [enum P2PClientState] *)
Inductive P2PClientState : Type := IDLE | SYNCHING | RUNNING | STOPPED.

Global Instance P2PClientState_eq_dec : EqDecision P2PClientState.
Proof. solve_decision. Defined.

(** What the client imports and does not define: the block and transaction
    types, [createTxIds] of ./tx.js and the [TxPool] interface of
    ../tx_pool/index.js. *)
Class Collaborators : Type := {
  L2Block : Type;
  Tx : Type;
  TxId : Type;
  TxPool : Type;
  number : L2Block → Z;
  createTxIds : L2Block → list TxId;
  addTxs : list Tx → TxPool → TxPool;
  deleteTxs : list TxId → TxPool → TxPool;
  getAllTxs : TxPool → list Tx
}.

(** [interface P2PSyncState] *)
Record P2PSyncState : Type := {
  state : P2PClientState;
  syncedToL2Block : Z
}.

(** The [L2BlockDownloader] the client drives: what [start] was called
    with, and whether [stop] was called. *)
Record L2BlockDownloader : Type := {
  startedFrom : option Z;
  downloaderStopped : bool
}.

Section Client.
Context `{Collaborators}.

(** The messages the client passes to [this.log]. *)
Inductive LogEntry : Type :=
  | StartingSync (from latest : Z)
  | NextBlockBeyondLatest (from latest : Z)
  | StartedBlockDownloader (from : Z)
  | StoppingClient
  | DeletingTx (id : TxId)
  | SynchedToBlock (n : Z)
  | MovedToState (s : P2PClientState).

(** The fields of [class P2PClient]. [syncResolve] is [true] once the
    resolver of [syncPromise] has been stored; [runningPromise] is [None]
    until [start] has launched the block loop, pending while the loop runs. *)
Record P2PClient : Type := {
  blockDownloader : L2BlockDownloader;
  stopping : bool;
  runningPromise : option Promise;
  currentL2BlockNum : Z;
  currentState : P2PClientState;
  syncPromise : Promise;
  latestBlockNumberAtStart : Z;
  syncResolve : bool;
  txPool : TxPool;
  log : list LogEntry
}.

(** The field initialisers and the constructor. *)
Definition new (pool : TxPool) : P2PClient := {|
  blockDownloader := {| startedFrom := None; downloaderStopped := false |};
  stopping := false;
  runningPromise := None;
  currentL2BlockNum := 0;
  currentState := IDLE;
  syncPromise := Resolved;
  latestBlockNumberAtStart := -1;
  syncResolve := false;
  txPool := pool;
  log := []
|}.

(** Assignments to single fields. *)
Definition set_blockDownloader (v : L2BlockDownloader) (c : P2PClient) :=
  {| blockDownloader := v; stopping := stopping c;
     runningPromise := runningPromise c; currentL2BlockNum := currentL2BlockNum c;
     currentState := currentState c; syncPromise := syncPromise c;
     latestBlockNumberAtStart := latestBlockNumberAtStart c;
     syncResolve := syncResolve c; txPool := txPool c; log := log c |}.

Definition set_stopping (v : bool) (c : P2PClient) :=
  {| blockDownloader := blockDownloader c; stopping := v;
     runningPromise := runningPromise c; currentL2BlockNum := currentL2BlockNum c;
     currentState := currentState c; syncPromise := syncPromise c;
     latestBlockNumberAtStart := latestBlockNumberAtStart c;
     syncResolve := syncResolve c; txPool := txPool c; log := log c |}.

Definition set_runningPromise (v : option Promise) (c : P2PClient) :=
  {| blockDownloader := blockDownloader c; stopping := stopping c;
     runningPromise := v; currentL2BlockNum := currentL2BlockNum c;
     currentState := currentState c; syncPromise := syncPromise c;
     latestBlockNumberAtStart := latestBlockNumberAtStart c;
     syncResolve := syncResolve c; txPool := txPool c; log := log c |}.

Definition set_currentL2BlockNum (v : Z) (c : P2PClient) :=
  {| blockDownloader := blockDownloader c; stopping := stopping c;
     runningPromise := runningPromise c; currentL2BlockNum := v;
     currentState := currentState c; syncPromise := syncPromise c;
     latestBlockNumberAtStart := latestBlockNumberAtStart c;
     syncResolve := syncResolve c; txPool := txPool c; log := log c |}.

Definition set_currentState (v : P2PClientState) (c : P2PClient) :=
  {| blockDownloader := blockDownloader c; stopping := stopping c;
     runningPromise := runningPromise c; currentL2BlockNum := currentL2BlockNum c;
     currentState := v; syncPromise := syncPromise c;
     latestBlockNumberAtStart := latestBlockNumberAtStart c;
     syncResolve := syncResolve c; txPool := txPool c; log := log c |}.

Definition set_syncPromise (v : Promise) (c : P2PClient) :=
  {| blockDownloader := blockDownloader c; stopping := stopping c;
     runningPromise := runningPromise c; currentL2BlockNum := currentL2BlockNum c;
     currentState := currentState c; syncPromise := v;
     latestBlockNumberAtStart := latestBlockNumberAtStart c;
     syncResolve := syncResolve c; txPool := txPool c; log := log c |}.

Definition set_latestBlockNumberAtStart (v : Z) (c : P2PClient) :=
  {| blockDownloader := blockDownloader c; stopping := stopping c;
     runningPromise := runningPromise c; currentL2BlockNum := currentL2BlockNum c;
     currentState := currentState c; syncPromise := syncPromise c;
     latestBlockNumberAtStart := v;
     syncResolve := syncResolve c; txPool := txPool c; log := log c |}.

Definition set_syncResolve (v : bool) (c : P2PClient) :=
  {| blockDownloader := blockDownloader c; stopping := stopping c;
     runningPromise := runningPromise c; currentL2BlockNum := currentL2BlockNum c;
     currentState := currentState c; syncPromise := syncPromise c;
     latestBlockNumberAtStart := latestBlockNumberAtStart c;
     syncResolve := v; txPool := txPool c; log := log c |}.

Definition set_txPool (v : TxPool) (c : P2PClient) :=
  {| blockDownloader := blockDownloader c; stopping := stopping c;
     runningPromise := runningPromise c; currentL2BlockNum := currentL2BlockNum c;
     currentState := currentState c; syncPromise := syncPromise c;
     latestBlockNumberAtStart := latestBlockNumberAtStart c;
     syncResolve := syncResolve c; txPool := v; log := log c |}.

(** [this.log(msg)] *)
Definition logMsg (e : LogEntry) : M P2PClient unit :=
  modify (λ c,
  {| blockDownloader := blockDownloader c; stopping := stopping c;
     runningPromise := runningPromise c; currentL2BlockNum := currentL2BlockNum c;
     currentState := currentState c; syncPromise := syncPromise c;
     latestBlockNumberAtStart := latestBlockNumberAtStart c;
     syncResolve := syncResolve c; txPool := txPool c; log := log c ++ [e] |}).

(** [private setCurrentState(newState)] *)
Definition setCurrentState (newState : P2PClientState) : M P2PClient unit :=
  modify (set_currentState newState) >>
  logMsg (MovedToState newState).

(** [private reconcileTxPool(blocks)] *)
Definition reconcileTxPool (blocks : list L2Block) : M P2PClient unit :=
  forOf (λ block,
    let txIds := createTxIds block in
    forOf (λ id, logMsg (DeletingTx id)) txIds >>
    modify (λ c, set_txPool (deleteTxs txIds (txPool c)) c)) blocks.

(** [private async handleL2Blocks(blocks)]. The batch is empty exactly when
    it has no last block, [blocks[blocks.length - 1]]. *)
Definition handleL2Blocks (blocks : list L2Block) : M P2PClient unit :=
  match last blocks with
  | None => ret tt
  | Some lastBlock =>
      reconcileTxPool blocks >>
      modify (set_currentL2BlockNum (number lastBlock)) >>
      let* c := get in
      logMsg (SynchedToBlock (currentL2BlockNum c)) >>
      if bool_decide (currentState c = SYNCHING)
         && (latestBlockNumberAtStart c <=? currentL2BlockNum c)
      then
        setCurrentState RUNNING >>
        (if syncResolve c then modify (set_syncPromise Resolved) else ret tt)
      else ret tt
  end.

(** [public async start()], as the call that nothing overlaps while it
    awaits; its halves, for calls that overlap, are [startCalled] and
    [startResumed] below. [latestBlockNum] is what
    [l2BlockSource.getLatestBlockNum()] answers. The block loop
    [blockProcess] is launched here and suspends at its first
    [getL2Blocks()], unless [stopping] is already set. *)
Definition start (latestBlockNum : Z) : M P2PClient Promise :=
  let* c := get in
  if bool_decide (currentState c = STOPPED) then throw AlreadyStopped
  else if bool_decide (currentState c ≠ IDLE) then ret (syncPromise c)
  else
    modify (set_latestBlockNumberAtStart latestBlockNum) >>
    let blockToDownloadFrom := currentL2BlockNum c + 1 in
    (if blockToDownloadFrom <=? latestBlockNum then
       setCurrentState SYNCHING >>
       modify (set_syncPromise Pending) >>
       modify (set_syncResolve true) >>
       logMsg (StartingSync blockToDownloadFrom latestBlockNum)
     else
       setCurrentState RUNNING >>
       modify (set_syncPromise Resolved) >>
       logMsg (NextBlockBeyondLatest blockToDownloadFrom latestBlockNum)) >>
    modify (set_runningPromise
              (Some (if stopping c then Resolved else Pending))) >>
    modify (λ c', set_blockDownloader
              {| startedFrom := Some blockToDownloadFrom;
                 downloaderStopped := downloaderStopped (blockDownloader c') |} c') >>
    logMsg (StartedBlockDownloader blockToDownloadFrom) >>
    let* c' := get in
    ret (syncPromise c').

(** One iteration of the block loop of [start]:
    [while (!this.stopping) { blocks = await getL2Blocks(); await handleL2Blocks(blocks) }],
    with [blocks] what the downloader delivers. The loop exists once
    [start] has launched it, and ends when it sees [stopping]. *)
Definition blockProcessIteration (blocks : list L2Block) : M P2PClient unit :=
  let* c := get in
  match runningPromise c with
  | Some Pending =>
      if stopping c then modify (set_runningPromise (Some Resolved))
      else handleL2Blocks blocks
  | _ => ret tt
  end.

(** [public async stop()]. While [stop] awaits the downloader and
    [runningPromise], a loop iteration suspended at [getL2Blocks()] still
    handles the batch it receives ([inflight], possibly empty) before the
    loop sees the flag and exits. *)
Definition stop (inflight : list L2Block) : M P2PClient unit :=
  logMsg StoppingClient >>
  modify (set_stopping true) >>
  modify (λ c, set_blockDownloader
            {| startedFrom := startedFrom (blockDownloader c);
               downloaderStopped := true |} c) >>
  (let* c := get in
   match runningPromise c with
   | Some Pending =>
       handleL2Blocks inflight >> modify (set_runningPromise (Some Resolved))
   | _ => ret tt
   end) >>
  setCurrentState STOPPED.

(** [public getTxs()] *)
Definition getTxs : M P2PClient (list Tx) :=
  let* c := get in ret (getAllTxs (txPool c)).

(** [public isReady()] *)
Definition isReady : M P2PClient bool :=
  let* c := get in ret (bool_decide (currentState c = RUNNING)).

(** [public async sendTx(tx)], as the call that nothing overlaps while it
    awaits [isReady()]. *)
Definition sendTx (tx : Tx) : M P2PClient unit :=
  let* ready := isReady in
  if negb ready then throw NotReady
  else modify (λ c, set_txPool (addTxs [tx] (txPool c)) c).

(** [public getSyncedBlockNum()] *)
Definition getSyncedBlockNum : M P2PClient Z :=
  let* c := get in ret (currentL2BlockNum c).

(** [public getStatus()] *)
Definition getStatus : M P2PClient P2PSyncState :=
  let* c := get in
  ret {| state := currentState c; syncedToL2Block := currentL2BlockNum c |}.

(** What can happen to a client: a call of its public surface, or an
    iteration of its block loop. *)
Inductive Op : Type :=
  | OpStart (latestBlockNum : Z)
  | OpStop (inflight : list L2Block)
  | OpSendTx (tx : Tx)
  | OpGetTxs
  | OpIsReady
  | OpGetSyncedBlockNum
  | OpGetStatus
  | OpBlockProcess (blocks : list L2Block).

(** The client after an operation, whether it returned or threw. *)
Definition step (c : P2PClient) (o : Op) : P2PClient :=
  match o with
  | OpStart t => snd (start t c)
  | OpStop inflight => snd (stop inflight c)
  | OpSendTx tx => snd (sendTx tx c)
  | OpGetTxs => snd (getTxs c)
  | OpIsReady => snd (isReady c)
  | OpGetSyncedBlockNum => snd (getSyncedBlockNum c)
  | OpGetStatus => snd (getStatus c)
  | OpBlockProcess blocks => snd (blockProcessIteration blocks c)
  end.

Definition run (c : P2PClient) (ops : list Op) : P2PClient :=
  foldl step c ops.

(** The pool after [reconcileTxPool]. *)
Definition reconciled (blocks : list L2Block) (pool : TxPool) : TxPool :=
  foldl (λ pool block, deleteTxs (createTxIds block) pool) pool blocks.

(** Everything but the pool and the log is as before. *)
Definition sameControl (c c' : P2PClient) : Prop :=
  blockDownloader c' = blockDownloader c ∧ stopping c' = stopping c ∧
  runningPromise c' = runningPromise c ∧
  currentL2BlockNum c' = currentL2BlockNum c ∧
  currentState c' = currentState c ∧ syncPromise c' = syncPromise c ∧
  latestBlockNumberAtStart c' = latestBlockNumberAtStart c ∧
  syncResolve c' = syncResolve c.

(** The states in the order a client goes through them. *)
Definition rank (s : P2PClientState) : nat :=
  match s with IDLE => 0 | SYNCHING => 1 | RUNNING => 2 | STOPPED => 3 end.

(** What holds of a client created with [pool], whatever was called on it
    since: idle, it is as created; synching, its promise is pending, with
    its resolver stored, and it is short of the block number it syncs to;
    running, its promise is resolved; stopped, it has no block loop. *)
Definition consistent (pool : TxPool) (c : P2PClient) : Prop :=
  match currentState c with
  | IDLE => c = new pool
  | SYNCHING =>
      syncPromise c = Pending ∧ syncResolve c = true ∧
      currentL2BlockNum c < latestBlockNumberAtStart c
  | RUNNING => syncPromise c = Resolved
  | STOPPED => stopping c = true ∧ runningPromise c ≠ Some Pending
  end.

(** ** Calls that overlap

    [start] and [sendTx] are [async]: each checks the state, then awaits,
    then writes, and does not check again. A caller need not wait for one
    call to return before it makes the next, so other calls can run between
    the two halves. [start] and [sendTx] above are the calls whose [await]
    nothing overlaps; here are their halves. *)

(** [start()] as far as its [await] (lines 119-127): it throws or returns
    at a guard, or ([None]) is suspended at [getLatestBlockNum()]. *)
Definition startCalled : M P2PClient (option Promise) :=
  let* c := get in
  if bool_decide (currentState c = STOPPED) then throw AlreadyStopped
  else if bool_decide (currentState c ≠ IDLE) then ret (Some (syncPromise c))
  else ret None.

(** [start()] from its [await] on (lines 127-155), resumed with what
    [getLatestBlockNum()] answered. The state is not checked again, and the
    fields are read as they are now. *)
Definition startResumed (latestBlockNum : Z) : M P2PClient Promise :=
  let* c := get in
  modify (set_latestBlockNumberAtStart latestBlockNum) >>
  let blockToDownloadFrom := currentL2BlockNum c + 1 in
  (if blockToDownloadFrom <=? latestBlockNum then
     setCurrentState SYNCHING >>
     modify (set_syncPromise Pending) >>
     modify (set_syncResolve true) >>
     logMsg (StartingSync blockToDownloadFrom latestBlockNum)
   else
     setCurrentState RUNNING >>
     modify (set_syncPromise Resolved) >>
     logMsg (NextBlockBeyondLatest blockToDownloadFrom latestBlockNum)) >>
  modify (set_runningPromise
            (Some (if stopping c then Resolved else Pending))) >>
  modify (λ c', set_blockDownloader
            {| startedFrom := Some blockToDownloadFrom;
               downloaderStopped := downloaderStopped (blockDownloader c') |} c') >>
  logMsg (StartedBlockDownloader blockToDownloadFrom) >>
  let* c' := get in
  ret (syncPromise c').

(** [sendTx(tx)] from its [await] on (lines 185-188), resumed with what
    [isReady()] answered when the call was made. *)
Definition sendTxResumed (tx : Tx) (ready : bool) : M P2PClient unit :=
  if negb ready then throw NotReady
  else modify (λ c, set_txPool (addTxs [tx] (txPool c)) c).

(** A client and what is in flight: the number of calls of [start]
    suspended at their [await]; the calls of [sendTx] suspended at theirs,
    oldest first, each with what [isReady()] answered; and the number of
    block loops still running whose promise [runningPromise] no longer is
    (a second [start] that resumes overwrites the field). *)
Record Overlapped : Type := {
  client : P2PClient;
  startsAwaiting : nat;
  sendsAwaiting : list (Tx * bool);
  strayLoops : nat
}.

(** A client with nothing in flight. *)
Definition settled (c : P2PClient) : Overlapped :=
  {| client := c; startsAwaiting := 0; sendsAwaiting := []; strayLoops := 0 |}.

(** What can happen to a client when calls overlap: a call that runs from
    its first line to its last with nothing in between, or an iteration of
    the block loop [runningPromise] stands for ([Call]); a call of
    [start] or [sendTx] that runs to its [await]; the resumption of a
    suspended one; an iteration of a stray block loop. [stop()] is taken
    whole, from its first line to its completion, and so is an iteration
    of a block loop ([handleL2Blocks] awaits only [reconcileTxPool], whose
    promise is resolved when it returns). *)
Inductive Event : Type :=
  | Call (o : Op)
  | StartCalled
  | StartResumed (latestBlockNum : Z)
  | SendTxCalled (tx : Tx)
  | SendTxResumed
  | StrayLoopIteration (blocks : list L2Block).

(** The number of block loops that lose their handle when [start] assigns
    [runningPromise]. *)
Definition orphaned (c : P2PClient) : nat :=
  match runningPromise c with Some Pending => 1 | _ => 0 end.

(** The client and what is in flight after an event. A resumption with
    nothing suspended, and an iteration of a stray loop when there is none,
    cannot happen: they change nothing. A stray loop handles the batch it
    receives and ends when it then sees [stopping]. *)
Definition occur (s : Overlapped) (e : Event) : Overlapped :=
  let c := client s in
  match e with
  | Call o =>
      {| client := step c o;
         startsAwaiting := startsAwaiting s;
         sendsAwaiting := sendsAwaiting s;
         strayLoops :=
           match o with
           | OpStart _ =>
               if bool_decide (currentState c = IDLE)
               then strayLoops s + orphaned c else strayLoops s
           | _ => strayLoops s
           end |}
  | StartCalled =>
      {| client := snd (startCalled c);
         startsAwaiting :=
           match fst (startCalled c) with
           | Ok None => S (startsAwaiting s)
           | _ => startsAwaiting s
           end;
         sendsAwaiting := sendsAwaiting s;
         strayLoops := strayLoops s |}
  | StartResumed latestBlockNum =>
      match startsAwaiting s with
      | O => s
      | S n =>
          {| client := snd (startResumed latestBlockNum c);
             startsAwaiting := n;
             sendsAwaiting := sendsAwaiting s;
             strayLoops := strayLoops s + orphaned c |}
      end
  | SendTxCalled tx =>
      {| client := snd (isReady c);
         startsAwaiting := startsAwaiting s;
         sendsAwaiting :=
           match fst (isReady c) with
           | Ok ready => sendsAwaiting s ++ [(tx, ready)]
           | Err _ => sendsAwaiting s
           end;
         strayLoops := strayLoops s |}
  | SendTxResumed =>
      match sendsAwaiting s with
      | [] => s
      | (tx, ready) :: rest =>
          {| client := snd (sendTxResumed tx ready c);
             startsAwaiting := startsAwaiting s;
             sendsAwaiting := rest;
             strayLoops := strayLoops s |}
      end
  | StrayLoopIteration blocks =>
      match strayLoops s with
      | O => s
      | S n =>
          {| client := snd (handleL2Blocks blocks c);
             startsAwaiting := startsAwaiting s;
             sendsAwaiting := sendsAwaiting s;
             strayLoops :=
               if stopping (snd (handleL2Blocks blocks c)) then n else S n |}
      end
  end.

Definition occurAll (s : Overlapped) (events : list Event) : Overlapped :=
  foldl occur s events.

(** Every [start] that resumes in the course of [events], from [s] on,
    resumes in a client that is still idle: nothing has moved the client
    while the call awaited the remote tip. *)
Fixpoint resumedWhileIdle (s : Overlapped) (events : list Event) : Prop :=
  match events with
  | [] => True
  | e :: rest =>
      match e with
      | StartResumed _ =>
          startsAwaiting s ≠ 0%nat → currentState (client s) = IDLE
      | _ => True
      end ∧ resumedWhileIdle (occur s e) rest
  end.

End Client.

(** ** A pool that can fail

    [deleteTxs] is a call of a collaborator and can throw. [deleteFails ids
    pool] is the error with which [pool] fails to delete [ids], if it
    does; a call that fails leaves the pool as it is. *)
Class PoolFailures `{Collaborators} : Type :=
  deleteFails : list TxId → TxPool → option Error.

Module Fallible.
Section Client.
Context `{Collaborators} `{!PoolFailures}.

(** [this.txPool.deleteTxs(txIds)] *)
Definition callDeleteTxs (txIds : list TxId) : M P2PClient unit :=
  let* c := get in
  match deleteFails txIds (txPool c) with
  | Some e => throw e
  | None => modify (λ c, set_txPool (deleteTxs txIds (txPool c)) c)
  end.

(** [private reconcileTxPool(blocks)] *)
Definition reconcileTxPool (blocks : list L2Block) : M P2PClient unit :=
  forOf (λ block,
    let txIds := createTxIds block in
    forOf (λ id, logMsg (DeletingTx id)) txIds >>
    callDeleteTxs txIds) blocks.

(** [private async handleL2Blocks(blocks)] *)
Definition handleL2Blocks (blocks : list L2Block) : M P2PClient unit :=
  match last blocks with
  | None => ret tt
  | Some lastBlock =>
      reconcileTxPool blocks >>
      modify (set_currentL2BlockNum (number lastBlock)) >>
      let* c := get in
      logMsg (SynchedToBlock (currentL2BlockNum c)) >>
      if bool_decide (currentState c = SYNCHING)
         && (latestBlockNumberAtStart c <=? currentL2BlockNum c)
      then
        setCurrentState RUNNING >>
        (if syncResolve c then modify (set_syncPromise Resolved) else ret tt)
      else ret tt
  end.

End Client.
End Fallible.

End P2P.

(** * The note processor *)

Module PXE.

(** ** Data of @aztec/circuit-types and @aztec/circuits.js

    Field elements, addresses, keys and hashes are only ever compared and
    passed on by the note processor; they are integers here. So are the
    JavaScript numbers (block numbers, leaf indices, counters). *)
Abbreviation Fr := Z (only parsing).
Abbreviation AztecAddress := Z (only parsing).
Abbreviation PublicKey := Z (only parsing).
Abbreviation TxHash := Z (only parsing).
Abbreviation Buffer := (list Byte.byte) (only parsing).

(** [L1NotePayload], with the four constructor arguments
    [decodeDeferredNotes] passes. *)
Record L1NotePayload : Type := {
  note : list Fr;
  contractAddress : AztecAddress;
  storageSlot : Fr;
  noteTypeId : Fr
}.

(** [payload.equals(other)]: field by field. *)
Global Instance L1NotePayload_eq_dec : EqDecision L1NotePayload.
Proof. solve_decision. Defined.

Record TaggedNote : Type := { notePayload : L1NotePayload }.

Record TxEffect : Type := {
  txHash : TxHash;
  noteHashes : list Fr;
  nullifiers : list Fr
}.

Record Body : Type := {
  txEffects : list TxEffect;
  numberOfTxsIncludingPadded : Z
}.

Record AppendOnlyTreeSnapshot : Type := { nextAvailableLeafIndex : Z }.
Record PartialStateReference : Type := { noteHashTree : AppendOnlyTreeSnapshot }.
Record StateReference : Type := { partial : PartialStateReference }.
Record Header : Type := { state : StateReference }.

Record L2Block : Type := {
  header : Header;
  body : Body;
  number : Z
}.

Record EncryptedL2NoteLog : Type := { data : Buffer }.
Record EncryptedNoteFunctionL2Logs : Type := { logs : list EncryptedL2NoteLog }.
Record EncryptedNoteTxL2Logs : Type := { functionLogs : list EncryptedNoteFunctionL2Logs }.
Record EncryptedNoteL2BlockL2Logs : Type := { txLogs : list EncryptedNoteTxL2Logs }.

(** ** Records of ../database

    The three record types the processor hands to the database. The
    processor only reads a few of their fields: [DeferredNoteDao] has the
    fields [decodeDeferredNotes] destructures, the note records have the
    payload, the transaction, the owner's key and, when incoming, the
    nullifier. *)
Module IncomingNoteDao.
Record t : Type := {
  note : list Fr;
  contractAddress : AztecAddress;
  storageSlot : Fr;
  noteTypeId : Fr;
  txHash : TxHash;
  siloedNullifier : Fr;
  ivpkM : PublicKey
}.
End IncomingNoteDao.

Module OutgoingNoteDao.
Record t : Type := {
  note : list Fr;
  contractAddress : AztecAddress;
  storageSlot : Fr;
  noteTypeId : Fr;
  txHash : TxHash;
  ovpkM : PublicKey
}.
End OutgoingNoteDao.

Module DeferredNoteDao.
Record t : Type := {
  ivpkM : PublicKey;
  note : list Fr;
  contractAddress : AztecAddress;
  storageSlot : Fr;
  noteTypeId : Fr;
  txHash : TxHash;
  newNoteHashes : list Fr;
  dataStartIndexForTx : Z
}.
End DeferredNoteDao.

Global Instance IncomingNoteDao_eq_dec : EqDecision IncomingNoteDao.t.
Proof. solve_decision. Defined.
Global Instance OutgoingNoteDao_eq_dec : EqDecision OutgoingNoteDao.t.
Proof. solve_decision. Defined.
Global Instance DeferredNoteDao_eq_dec : EqDecision DeferredNoteDao.t.
Proof. solve_decision. Defined.

(** [interface ProcessedData] *)
Module ProcessedData.
Record t : Type := {
  block : L2Block;
  incomingNotes : list IncomingNoteDao.t;
  outgoingNotes : list OutgoingNoteDao.t
}.
End ProcessedData.

(** [NoteProcessorStats] *)
Record NoteProcessorStats : Type := {
  seen : Z;
  decryptedIncoming : Z;
  decryptedOutgoing : Z;
  deferred : Z;
  failed : Z;
  blocks : Z;
  txs : Z
}.

(** ** Collaborators *)

(** The key store, [TaggedNote]'s decryption and the protocol constant. *)
Class Collaborators : Type := {
  SecretKey : Type;
  getMasterSecretKey : PublicKey → SecretKey;
  decryptAsIncoming : Buffer → SecretKey → option TaggedNote;
  decryptAsOutgoing : Buffer → SecretKey → option TaggedNote;
  MAX_NEW_NOTE_HASHES_PER_TX : Z
}.

(** [interface PxeDatabase], the five methods the processor calls, of a
    database that does every write it is asked for. A database that
    rejects writes is [DatabaseFailures] below. *)
Class PxeDatabase (Db : Type) : Type := {
  addNotes : list IncomingNoteDao.t → list OutgoingNoteDao.t → Db → Db;
  addDeferredNotes : list DeferredNoteDao.t → Db → Db;
  removeNullifiedNotes : list Fr → PublicKey → Db → list IncomingNoteDao.t * Db;
  getSynchedBlockNumberForPublicKey : PublicKey → Db → option Z;
  setSynchedBlockNumberForPublicKey : PublicKey → Z → Db → Db
}.

(** What [produceNoteDaos] returns. *)
Record ProducedNoteDaos : Type := {
  incomingNote : option IncomingNoteDao.t;
  outgoingNote : option OutgoingNoteDao.t;
  incomingDeferredNote : option DeferredNoteDao.t
}.

(** [produceNoteDaos] of ./produce_note_dao.js runs the simulator; it is
    taken as given, for any simulator. It may add to [excludedIndices],
    which it receives by reference, so it returns the set as well. *)
Class AcirSimulator (Sim : Type) : Type := {
  produceNoteDaos :
    Sim → option PublicKey → option PublicKey → L1NotePayload → TxHash →
    list Fr → Z → gset Z → ProducedNoteDaos * gset Z * Sim
}.

Section Processor.
Context `{Collaborators} {Db Sim : Type} `{!PxeDatabase Db} `{!AcirSimulator Sim}.

(** The fields of [class NoteProcessor] its methods read or write. The
    node's answer to [getBlockNumber()] is an argument of
    [isSynchronized]; the timer and the logger are left out. *)
Record NoteProcessor : Type := {
  stats : NoteProcessorStats;
  account : AztecAddress;
  ivpkM : PublicKey;
  ovpkM : PublicKey;
  db : Db;
  startingBlock : Z;
  simulator : Sim
}.

Definition set_stats (v : NoteProcessorStats) (p : NoteProcessor) :=
  {| stats := v; account := account p; ivpkM := ivpkM p; ovpkM := ovpkM p;
     db := db p; startingBlock := startingBlock p; simulator := simulator p |}.

Definition set_db (v : Db) (p : NoteProcessor) :=
  {| stats := stats p; account := account p; ivpkM := ivpkM p; ovpkM := ovpkM p;
     db := v; startingBlock := startingBlock p; simulator := simulator p |}.

Definition set_simulator (v : Sim) (p : NoteProcessor) :=
  {| stats := stats p; account := account p; ivpkM := ivpkM p; ovpkM := ovpkM p;
     db := db p; startingBlock := startingBlock p; simulator := v |}.

(** [this.stats.x++] *)
Definition incr_seen (s : NoteProcessorStats) :=
  {| seen := seen s + 1; decryptedIncoming := decryptedIncoming s;
     decryptedOutgoing := decryptedOutgoing s; deferred := deferred s;
     failed := failed s; blocks := blocks s; txs := txs s |}.
Definition incr_decryptedIncoming (s : NoteProcessorStats) :=
  {| seen := seen s; decryptedIncoming := decryptedIncoming s + 1;
     decryptedOutgoing := decryptedOutgoing s; deferred := deferred s;
     failed := failed s; blocks := blocks s; txs := txs s |}.
Definition incr_decryptedOutgoing (s : NoteProcessorStats) :=
  {| seen := seen s; decryptedIncoming := decryptedIncoming s;
     decryptedOutgoing := decryptedOutgoing s + 1; deferred := deferred s;
     failed := failed s; blocks := blocks s; txs := txs s |}.
Definition incr_deferred (s : NoteProcessorStats) :=
  {| seen := seen s; decryptedIncoming := decryptedIncoming s;
     decryptedOutgoing := decryptedOutgoing s; deferred := deferred s + 1;
     failed := failed s; blocks := blocks s; txs := txs s |}.
Definition incr_failed (s : NoteProcessorStats) :=
  {| seen := seen s; decryptedIncoming := decryptedIncoming s;
     decryptedOutgoing := decryptedOutgoing s; deferred := deferred s;
     failed := failed s + 1; blocks := blocks s; txs := txs s |}.
Definition incr_blocks (s : NoteProcessorStats) :=
  {| seen := seen s; decryptedIncoming := decryptedIncoming s;
     decryptedOutgoing := decryptedOutgoing s; deferred := deferred s;
     failed := failed s; blocks := blocks s + 1; txs := txs s |}.
Definition incr_txs (s : NoteProcessorStats) :=
  {| seen := seen s; decryptedIncoming := decryptedIncoming s;
     decryptedOutgoing := decryptedOutgoing s; deferred := deferred s;
     failed := failed s; blocks := blocks s; txs := txs s + 1 |}.

Definition bump (f : NoteProcessorStats → NoteProcessorStats) : M NoteProcessor unit :=
  modify (λ p, set_stats (f (stats p)) p).

(** [private getSyncedToBlock()]:
    [db.getSynchedBlockNumberForPublicKey(ivpkM) ?? startingBlock - 1] *)
Definition getSyncedToBlock (p : NoteProcessor) : Z :=
  match getSynchedBlockNumberForPublicKey (ivpkM p) (db p) with
  | Some n => n
  | None => startingBlock p - 1
  end.

(** The object [get status()] returns. *)
Record Status : Type := { syncedToBlock : Z }.

Definition status (p : NoteProcessor) : Status :=
  {| syncedToBlock := getSyncedToBlock p |}.

(** [public async isSynchronized()], with the node's block number. *)
Definition isSynchronized (remoteBlockNumber : Z) (p : NoteProcessor) : bool :=
  bool_decide (getSyncedToBlock p = remoteBlockNumber).

(** [await produceNoteDaos(this.simulator, ...)] *)
Definition callProduceNoteDaos (ivpk ovpk : option PublicKey)
    (payload : L1NotePayload) (hash : TxHash) (newNoteHashes : list Fr)
    (dataStartIndexForTx : Z) (excludedIndices : gset Z)
    : M NoteProcessor (ProducedNoteDaos * gset Z) :=
  λ p, let '(daos, excluded, sim) :=
         produceNoteDaos (simulator p) ivpk ovpk payload hash newNoteHashes
           dataStartIndexForTx excludedIndices in
       (Ok (daos, excluded), set_simulator sim p).

(** The three arrays of [process] that a log's notes are pushed to:
    [incomingNotes] and [outgoingNotes] of the block at hand, and
    [deferredNoteDaosIncoming] of the whole call. *)
Record Locals : Type := {
  incomingNotes : list IncomingNoteDao.t;
  outgoingNotes : list OutgoingNoteDao.t;
  deferredNoteDaosIncoming : list DeferredNoteDao.t
}.

(** Lines 191-206: file what [produceNoteDaos] returned. *)
Definition recordNoteDaos (daos : ProducedNoteDaos) (l : Locals)
    : M NoteProcessor Locals :=
  let* incoming :=
    match incomingNote daos with
    | Some n => bump incr_decryptedIncoming >> ret (incomingNotes l ++ [n])
    | None => ret (incomingNotes l)
    end in
  let* outgoing :=
    match outgoingNote daos with
    | Some n => bump incr_decryptedOutgoing >> ret (outgoingNotes l ++ [n])
    | None => ret (outgoingNotes l)
    end in
  let* deferredNotes :=
    match incomingDeferredNote daos with
    | Some n => bump incr_deferred >> ret (deferredNoteDaosIncoming l ++ [n])
    | None => ret (deferredNoteDaosIncoming l)
    end in
  (match incomingNote daos, outgoingNote daos, incomingDeferredNote daos with
   | None, None, None => bump incr_failed
   | _, _, _ => ret tt
   end) >>
  ret {| incomingNotes := incoming;
         outgoingNotes := outgoing;
         deferredNoteDaosIncoming := deferredNotes |}.

(** The body of [for (const log of functionLogs.logs)]; the second
    component is the transaction's [excludedIndices]. *)
Definition processLog (ivskM ovskM : SecretKey) (effect : TxEffect)
    (dataStartIndexForTx : Z) (acc : Locals * gset Z) (log : EncryptedL2NoteLog)
    : M NoteProcessor (Locals * gset Z) :=
  bump incr_seen >>
  let* p := get in
  let produce ivpk ovpk payload :=
    let* (daos, excludedIndices) :=
      callProduceNoteDaos ivpk ovpk payload (txHash effect) (noteHashes effect)
        dataStartIndexForTx (snd acc) in
    let* l := recordNoteDaos daos (fst acc) in
    ret (l, excludedIndices) in
  match decryptAsIncoming (data log) ivskM, decryptAsOutgoing (data log) ovskM with
  | None, None => ret acc
  | Some incomingTaggedNote, Some outgoingTaggedNote =>
      if bool_decide (notePayload incomingTaggedNote ≠ notePayload outgoingTaggedNote)
      then throw DecryptionPayloadConflict
      else produce (Some (ivpkM p)) (Some (ovpkM p)) (notePayload incomingTaggedNote)
  | Some incomingTaggedNote, None =>
      produce (Some (ivpkM p)) None (notePayload incomingTaggedNote)
  | None, Some outgoingTaggedNote =>
      produce None (Some (ovpkM p)) (notePayload outgoingTaggedNote)
  end.

(** The two [for ... of] loops over a transaction's logs. *)
Definition processTxLogs (ivskM ovskM : SecretKey) (effect : TxEffect)
    (dataStartIndexForTx : Z) (txFunctionLogs : list EncryptedNoteFunctionL2Logs)
    (acc : Locals * gset Z) : M NoteProcessor (Locals * gset Z) :=
  foldM (λ acc functionLogs,
           foldM (processLog ivskM ovskM effect dataStartIndexForTx)
                 (logs functionLogs) acc)
        txFunctionLogs acc.

(** The loop over [indexOfTxInABlock], from the given index on; [rest] are
    the entries of [txLogs] not yet visited. Reading [noteHashes] of a
    transaction effect the block does not have raises a [TypeError]. *)
Fixpoint txLoop (ivskM ovskM : SecretKey) (blk : L2Block)
    (dataStartIndexForBlock : Z) (indexOfTxInABlock : nat)
    (rest : list EncryptedNoteTxL2Logs) (l : Locals) : M NoteProcessor Locals :=
  match rest with
  | [] => ret l
  | txLog :: rest' =>
      bump incr_txs >>
      let dataStartIndexForTx :=
        dataStartIndexForBlock
        + Z.of_nat indexOfTxInABlock * MAX_NEW_NOTE_HASHES_PER_TX in
      match txEffects (body blk) !! indexOfTxInABlock with
      | None => throw TypeError
      | Some effect =>
          let* acc :=
            processTxLogs ivskM ovskM effect dataStartIndexForTx
              (functionLogs txLog) (l, ∅) in
          txLoop ivskM ovskM blk dataStartIndexForBlock (S indexOfTxInABlock)
            rest' (fst acc)
      end
  end.

(** The loop over [blockIndex], from the given index on; [rest] are the
    entries of [encryptedL2BlockLogs] not yet visited. The pair is
    [blocksAndNotes] and [deferredNoteDaosIncoming]. *)
Fixpoint blockLoop (ivskM ovskM : SecretKey) (l2Blocks : list L2Block)
    (blockIndex : nat) (rest : list EncryptedNoteL2BlockL2Logs)
    (acc : list ProcessedData.t * list DeferredNoteDao.t)
    : M NoteProcessor (list ProcessedData.t * list DeferredNoteDao.t) :=
  match rest with
  | [] => ret acc
  | blockLogs :: rest' =>
      bump incr_blocks >>
      match l2Blocks !! blockIndex with
      | None => throw TypeError
      | Some blk =>
          let dataStartIndexForBlock :=
            nextAvailableLeafIndex (noteHashTree (partial (state (header blk))))
            - numberOfTxsIncludingPadded (body blk) * MAX_NEW_NOTE_HASHES_PER_TX in
          let* l :=
            txLoop ivskM ovskM blk dataStartIndexForBlock 0 (txLogs blockLogs)
              {| incomingNotes := [];
                 outgoingNotes := [];
                 deferredNoteDaosIncoming := snd acc |} in
          blockLoop ivskM ovskM l2Blocks (S blockIndex) rest'
            (fst acc ++
               [{| ProcessedData.block := blk;
                   ProcessedData.incomingNotes := incomingNotes l;
                   ProcessedData.outgoingNotes := outgoingNotes l |}],
             deferredNoteDaosIncoming l)
      end
  end.

(** [private async processBlocksAndNotes(blocksAndNotes)] *)
Definition processBlocksAndNotes (blocksAndNotes : list ProcessedData.t)
    : M NoteProcessor unit :=
  let incomingNotes := blocksAndNotes ≫= ProcessedData.incomingNotes in
  let outgoingNotes := blocksAndNotes ≫= ProcessedData.outgoingNotes in
  (if bool_decide (incomingNotes ≠ [] ∨ outgoingNotes ≠ [])
   then modify (λ p, set_db (addNotes incomingNotes outgoingNotes (db p)) p)
   else ret tt) >>
  let newNullifiers : list Fr :=
    blocksAndNotes ≫= (λ b, txEffects (body (ProcessedData.block b)) ≫= nullifiers) in
  modify (λ p, set_db (snd (removeNullifiedNotes newNullifiers (ivpkM p) (db p))) p).

(** [private async processDeferredNotes(deferredNoteDaos)] *)
Definition processDeferredNotes (deferredNoteDaos : list DeferredNoteDao.t)
    : M NoteProcessor unit :=
  if bool_decide (deferredNoteDaos ≠ [])
  then modify (λ p, set_db (addDeferredNotes deferredNoteDaos (db p)) p)
  else ret tt.

(** [public async process(l2Blocks, encryptedL2BlockLogs)]. The batch is
    empty exactly when it has no last block, [l2Blocks[l2Blocks.length - 1]]. *)
Definition process (l2Blocks : list L2Block)
    (encryptedL2BlockLogs : list EncryptedNoteL2BlockL2Logs)
    : M NoteProcessor unit :=
  if bool_decide (length l2Blocks ≠ length encryptedL2BlockLogs)
  then throw (BatchLengthMismatch (length l2Blocks) (length encryptedL2BlockLogs))
  else
    match last l2Blocks with
    | None => ret tt
    | Some lastBlock =>
        let* p := get in
        let ivskM := getMasterSecretKey (ivpkM p) in
        let ovskM := getMasterSecretKey (ovpkM p) in
        let* (blocksAndNotes, deferredNoteDaosIncoming) :=
          blockLoop ivskM ovskM l2Blocks 0 encryptedL2BlockLogs ([], []) in
        processBlocksAndNotes blocksAndNotes >>
        processDeferredNotes deferredNoteDaosIncoming >>
        let syncedToBlock := number lastBlock in
        modify (λ p, set_db
          (setSynchedBlockNumberForPublicKey (ivpkM p) syncedToBlock (db p)) p)
    end.

(** The body of the loop of [decodeDeferredNotes]; the pair is the loop's
    [excludedIndices] and [incomingNotes]. *)
Definition decodeDeferredNote
    (acc : gset Z * list IncomingNoteDao.t) (deferredNote : DeferredNoteDao.t)
    : M NoteProcessor (gset Z * list IncomingNoteDao.t) :=
  let '(excluded, incoming) := acc in
  let payload :=
    {| note := DeferredNoteDao.note deferredNote;
       contractAddress := DeferredNoteDao.contractAddress deferredNote;
       storageSlot := DeferredNoteDao.storageSlot deferredNote;
       noteTypeId := DeferredNoteDao.noteTypeId deferredNote |} in
  let* p := get in
  if bool_decide (DeferredNoteDao.ivpkM deferredNote ≠ ivpkM p)
  then ret acc
  else
    let* (daos, excluded') :=
      callProduceNoteDaos (Some (ivpkM p)) None payload
        (DeferredNoteDao.txHash deferredNote)
        (DeferredNoteDao.newNoteHashes deferredNote)
        (DeferredNoteDao.dataStartIndexForTx deferredNote) excluded in
    match incomingNote daos with
    | None => throw DeferredRetryFailed
    | Some n =>
        bump incr_decryptedIncoming >> ret (excluded', incoming ++ [n])
    end.

(** [public async decodeDeferredNotes(deferredNoteDaos)] *)
Definition decodeDeferredNotes (deferredNoteDaos : list DeferredNoteDao.t)
    : M NoteProcessor (list IncomingNoteDao.t) :=
  let* acc := foldM decodeDeferredNote deferredNoteDaos (∅, []) in
  ret (snd acc).

(** What the loop of [process] collects from a batch: [blocksAndNotes] and
    [deferredNoteDaosIncoming] as they are when the loop ends. *)
Definition collect (l2Blocks : list L2Block)
    (encryptedL2BlockLogs : list EncryptedNoteL2BlockL2Logs)
    : M NoteProcessor (list ProcessedData.t * list DeferredNoteDao.t) :=
  let* p := get in
  blockLoop (getMasterSecretKey (ivpkM p)) (getMasterSecretKey (ovpkM p))
    l2Blocks 0 encryptedL2BlockLogs ([], []).

(** [l], had the deferred notes [ds] been collected before it. *)
Definition afterDeferred (ds : list DeferredNoteDao.t) (l : Locals) : Locals :=
  {| incomingNotes := incomingNotes l;
     outgoingNotes := outgoingNotes l;
     deferredNoteDaosIncoming := ds ++ deferredNoteDaosIncoming l |}.

(** What the loop collected, had [before] been collected before it. *)
Definition after (before acc : list ProcessedData.t * list DeferredNoteDao.t)
    : list ProcessedData.t * list DeferredNoteDao.t :=
  (fst before ++ fst acc, snd before ++ snd acc).

(** The processor's database and configuration are as before; its
    statistics and its simulator may have changed. *)
Definition sameStore (p p' : NoteProcessor) : Prop :=
  db p' = db p ∧ ivpkM p' = ivpkM p ∧ ovpkM p' = ovpkM p ∧
  account p' = account p ∧ startingBlock p' = startingBlock p.

(** Only the statistics may have changed. *)
Definition sameButStats (p p' : NoteProcessor) : Prop :=
  db p' = db p ∧ ivpkM p' = ivpkM p ∧ ovpkM p' = ovpkM p ∧
  account p' = account p ∧ startingBlock p' = startingBlock p ∧
  simulator p' = simulator p.

(** By how much the counters of decrypted and deferred notes exceed the
    numbers of notes in the three arrays. *)
Definition surplus (p : NoteProcessor) (l : Locals) : Z * Z * Z :=
  (decryptedIncoming (stats p) - Z.of_nat (length (incomingNotes l)),
   decryptedOutgoing (stats p) - Z.of_nat (length (outgoingNotes l)),
   deferred (stats p) - Z.of_nat (length (deferredNoteDaosIncoming l))).

End Processor.

Arguments NoteProcessor Db Sim : clear implicits.

(** ** Ways to look at a batch *)

Section Batches.
Context `{Collaborators}.

(** All logs of a block's batch, in the order [process] visits them. *)
Definition logsOf (batch : EncryptedNoteL2BlockL2Logs) : list EncryptedL2NoteLog :=
  txLogs batch ≫= (λ tx, functionLogs tx ≫= logs).

(** The log decrypts both as incoming and as outgoing, to different
    payloads. *)
Definition payloadConflict (ivskM ovskM : SecretKey) (log : EncryptedL2NoteLog) : bool :=
  match decryptAsIncoming (data log) ivskM, decryptAsOutgoing (data log) ovskM with
  | Some i, Some o => bool_decide (notePayload i ≠ notePayload o)
  | _, _ => false
  end.

(** Some log of the batches is in conflict, for the keys of account
    [ivpk], [ovpk]. *)
Definition hasPayloadConflict (ivpk ovpk : PublicKey)
    (batches : list EncryptedNoteL2BlockL2Logs) : Prop :=
  Exists (λ log, payloadConflict (getMasterSecretKey ivpk)
                   (getMasterSecretKey ovpk) log = true)
         (batches ≫= logsOf).

(** The log batches go with the blocks: one batch per block, and no batch
    has an entry for a transaction its block does not have. *)
Definition aligned (l2Blocks : list L2Block)
    (batches : list EncryptedNoteL2BlockL2Logs) : Prop :=
  Forall2 (λ blk batch,
             (length (txLogs batch) ≤ length (txEffects (body blk)))%nat)
          l2Blocks batches.

(** The log decrypts neither as incoming nor as outgoing: it is not for
    the account. *)
Definition notForAccount (ivskM ovskM : SecretKey) (log : EncryptedL2NoteLog) : Prop :=
  decryptAsIncoming (data log) ivskM = None ∧
  decryptAsOutgoing (data log) ovskM = None.

(** What [blocksAndNotes] is when no log is for the account. *)
Definition withoutNotes (l2Blocks : list L2Block) : list ProcessedData.t :=
  map (λ blk, {| ProcessedData.block := blk;
                 ProcessedData.incomingNotes := [];
                 ProcessedData.outgoingNotes := [] |}) l2Blocks.

(** The nullifiers all transactions of the blocks emit. *)
Definition nullifiersOf (l2Blocks : list L2Block) : list Fr :=
  l2Blocks ≫= (λ b, txEffects (body b) ≫= nullifiers).

(** Where the note hashes of transaction [i] of a block start in the note
    hash tree, as the specification words it. *)
Definition leafIndexOffset (blk : L2Block) (i : nat) : Z :=
  nextAvailableLeafIndex (noteHashTree (partial (state (header blk))))
  - numberOfTxsIncludingPadded (body blk) * MAX_NEW_NOTE_HASHES_PER_TX
  + Z.of_nat i * MAX_NEW_NOTE_HASHES_PER_TX.

End Batches.

(** ** A database that keeps a journal *)

(** The calls that change the database. *)
Inductive DbCall : Type :=
  | AddNotes (incoming : list IncomingNoteDao.t) (outgoing : list OutgoingNoteDao.t)
  | AddDeferredNotes (deferredNotes : list DeferredNoteDao.t)
  | RemoveNullifiedNotes (nullifiers : list Fr) (account : PublicKey)
  | SetSynchedBlockNumberForPublicKey (account : PublicKey) (blockNumber : Z).

Global Instance DbCall_eq_dec : EqDecision DbCall.
Proof. solve_decision. Defined.

(** The calls are the four the specification lists after the loop, in
    the order it lists them: the notes, the deferred notes, the removal of
    nullified notes, the synced block. *)
Definition specifiedOrder (calls : list DbCall) : Prop :=
  ∃ incoming outgoing deferredNotes nullifiers account blockNumber,
    calls = [AddNotes incoming outgoing;
             AddDeferredNotes deferredNotes;
             RemoveNullifiedNotes nullifiers account;
             SetSynchedBlockNumberForPublicKey account blockNumber].

(** Any database, with the list of the changing calls it received, oldest
    first. *)
Record Journaled (Db : Type) : Type := {
  journal : list DbCall;
  store : Db
}.
Arguments journal {Db} j.
Arguments store {Db} j.

Global Instance Journaled_db {Db} `{!PxeDatabase Db} : PxeDatabase (Journaled Db) := {
  addNotes inc out j :=
    {| journal := journal j ++ [AddNotes inc out];
       store := addNotes inc out (store j) |};
  addDeferredNotes ds j :=
    {| journal := journal j ++ [AddDeferredNotes ds];
       store := addDeferredNotes ds (store j) |};
  removeNullifiedNotes ns acct j :=
    (fst (removeNullifiedNotes ns acct (store j)),
     {| journal := journal j ++ [RemoveNullifiedNotes ns acct];
        store := snd (removeNullifiedNotes ns acct (store j)) |});
  getSynchedBlockNumberForPublicKey acct j :=
    getSynchedBlockNumberForPublicKey acct (store j);
  setSynchedBlockNumberForPublicKey acct n j :=
    {| journal := journal j ++ [SetSynchedBlockNumberForPublicKey acct n];
       store := setSynchedBlockNumberForPublicKey acct n (store j) |}
}.

(** ** A database that can reject a write

    The four writes of [PxeDatabase] return promises that [process] awaits,
    one after the other; a promise that rejects makes [process] throw at
    that [await], with what was written before left as it is. [PxeDatabase]
    above is a database that accepts every write. [writeFails call d] is
    the error with which the database [d] rejects [call], if it does; a
    rejected write leaves the database as it is. *)
Class DatabaseFailures (Db : Type) : Type :=
  writeFails : DbCall → Db → option Error.

(** The write a call stands for. *)
Definition perform {Db} `{!PxeDatabase Db} (call : DbCall) (d : Db) : Db :=
  match call with
  | AddNotes incoming outgoing => addNotes incoming outgoing d
  | AddDeferredNotes deferredNotes => addDeferredNotes deferredNotes d
  | RemoveNullifiedNotes nullifiers account =>
      snd (removeNullifiedNotes nullifiers account d)
  | SetSynchedBlockNumberForPublicKey account blockNumber =>
      setSynchedBlockNumberForPublicKey account blockNumber d
  end.

(** A journaled database rejects what the database it wraps rejects; its
    journal has the writes that were accepted. *)
Global Instance Journaled_failures {Db} `{!DatabaseFailures Db}
    : DatabaseFailures (Journaled Db) :=
  λ call j, writeFails call (store j).

(** The call is not [setSynchedBlockNumberForPublicKey]. *)
Definition leavesSynchedBlock (call : DbCall) : Prop :=
  ∀ account blockNumber,
    call ≠ SetSynchedBlockNumberForPublicKey account blockNumber.

Module Fallible.
Section Processor.
Context `{Collaborators} {Db Sim : Type}
  `{!PxeDatabase Db} `{!DatabaseFailures Db} `{!AcirSimulator Sim}.

(** The processor after its database has done the write. *)
Definition commit (call : DbCall) (p : NoteProcessor Db Sim)
    : NoteProcessor Db Sim :=
  set_db (perform call (db p)) p.

(** [await this.db.<write>(...)] *)
Definition awaitWrite (call : DbCall) : M (NoteProcessor Db Sim) unit :=
  let* p := get in
  match writeFails call (db p) with
  | Some e => throw e
  | None => modify (commit call)
  end.

(** [private async processBlocksAndNotes(blocksAndNotes)] *)
Definition processBlocksAndNotes (blocksAndNotes : list ProcessedData.t)
    : M (NoteProcessor Db Sim) unit :=
  let incomingNotes := blocksAndNotes ≫= ProcessedData.incomingNotes in
  let outgoingNotes := blocksAndNotes ≫= ProcessedData.outgoingNotes in
  (if bool_decide (incomingNotes ≠ [] ∨ outgoingNotes ≠ [])
   then awaitWrite (AddNotes incomingNotes outgoingNotes)
   else ret tt) >>
  let newNullifiers : list Fr :=
    blocksAndNotes ≫= (λ b, txEffects (body (ProcessedData.block b)) ≫= nullifiers) in
  let* p := get in
  awaitWrite (RemoveNullifiedNotes newNullifiers (ivpkM p)).

(** [private async processDeferredNotes(deferredNoteDaos)] *)
Definition processDeferredNotes (deferredNoteDaos : list DeferredNoteDao.t)
    : M (NoteProcessor Db Sim) unit :=
  if bool_decide (deferredNoteDaos ≠ [])
  then awaitWrite (AddDeferredNotes deferredNoteDaos)
  else ret tt.

(** [public async process(l2Blocks, encryptedL2BlockLogs)] *)
Definition process (l2Blocks : list L2Block)
    (encryptedL2BlockLogs : list EncryptedNoteL2BlockL2Logs)
    : M (NoteProcessor Db Sim) unit :=
  if bool_decide (length l2Blocks ≠ length encryptedL2BlockLogs)
  then throw (BatchLengthMismatch (length l2Blocks) (length encryptedL2BlockLogs))
  else
    match last l2Blocks with
    | None => ret tt
    | Some lastBlock =>
        let* p := get in
        let ivskM := getMasterSecretKey (ivpkM p) in
        let ovskM := getMasterSecretKey (ovpkM p) in
        let* (blocksAndNotes, deferredNoteDaosIncoming) :=
          blockLoop ivskM ovskM l2Blocks 0 encryptedL2BlockLogs ([], []) in
        processBlocksAndNotes blocksAndNotes >>
        processDeferredNotes deferredNoteDaosIncoming >>
        let syncedToBlock := number lastBlock in
        let* p := get in
        awaitWrite (SetSynchedBlockNumberForPublicKey (ivpkM p) syncedToBlock)
    end.

(** The writes that [process] makes after its loop, in the order it makes
    them, given what the loop collected. *)
Definition writesOf (blocksAndNotes : list ProcessedData.t)
    (deferredNotes : list DeferredNoteDao.t) (account : PublicKey)
    (lastBlock : L2Block) : list DbCall :=
  let incoming := blocksAndNotes ≫= ProcessedData.incomingNotes in
  let outgoing := blocksAndNotes ≫= ProcessedData.outgoingNotes in
  (if bool_decide (incoming ≠ [] ∨ outgoing ≠ [])
   then [AddNotes incoming outgoing] else [])
  ++ [RemoveNullifiedNotes
        (blocksAndNotes ≫=
           (λ b, txEffects (body (ProcessedData.block b)) ≫= nullifiers))
        account]
  ++ (if bool_decide (deferredNotes ≠ [])
      then [AddDeferredNotes deferredNotes] else [])
  ++ [SetSynchedBlockNumberForPublicKey account (number lastBlock)].

End Processor.
End Fallible.

(** ** A simulator that keeps a record of its calls *)

(** The arguments of one call of [produceNoteDaos]. *)
Record ProduceNoteDaosCall : Type := {
  argIvpkM : option PublicKey;
  argOvpkM : option PublicKey;
  argPayload : L1NotePayload;
  argTxHash : TxHash;
  argNewNoteHashes : list Fr;
  argDataStartIndexForTx : Z;
  argExcludedIndices : gset Z
}.

Record Recording (Sim : Type) : Type := {
  calls : list ProduceNoteDaosCall;
  underlying : Sim
}.
Arguments calls {Sim} r.
Arguments underlying {Sim} r.

Global Instance Recording_simulator {Sim} `{!AcirSimulator Sim}
    : AcirSimulator (Recording Sim) := {
  produceNoteDaos r ivpk ovpk payload hash newNoteHashes start excluded :=
    let '(daos, excluded', sim) :=
      produceNoteDaos (underlying r) ivpk ovpk payload hash newNoteHashes
        start excluded in
    (daos, excluded',
     {| calls := calls r ++
          [{| argIvpkM := ivpk; argOvpkM := ovpk; argPayload := payload;
              argTxHash := hash; argNewNoteHashes := newNoteHashes;
              argDataStartIndexForTx := start;
              argExcludedIndices := excluded |}];
        underlying := sim |})
}.

(** The simulator of [p'] has recorded the calls of [p] and then only
    calls that satisfy [P]. *)
Definition recordedOnly {Db Sim} (P : ProduceNoteDaosCall → Prop)
    (p p' : NoteProcessor Db (Recording Sim)) : Prop :=
  ∃ new, calls (simulator p') = calls (simulator p) ++ new ∧ Forall P new.

(** The call of [produceNoteDaos] is the one [process] makes for [log]: it
    passes the incoming key exactly if the log decrypts as incoming, the
    outgoing key exactly if it decrypts as outgoing, at least one of them,
    and the payload the log decrypts to. *)
Definition answers `{Collaborators} (ivpk ovpk : PublicKey)
    (log : EncryptedL2NoteLog) (c : ProduceNoteDaosCall) : Prop :=
  let incoming := decryptAsIncoming (data log) (getMasterSecretKey ivpk) in
  let outgoing := decryptAsOutgoing (data log) (getMasterSecretKey ovpk) in
  argIvpkM c = match incoming with Some _ => Some ivpk | None => None end ∧
  argOvpkM c = match outgoing with Some _ => Some ovpk | None => None end ∧
  (is_Some incoming ∨ is_Some outgoing) ∧
  (Some (argPayload c) = notePayload <$> incoming ∨
   Some (argPayload c) = notePayload <$> outgoing).

(** The call of [produceNoteDaos] is the one [decodeDeferredNotes] makes
    for the deferred note [d] of the account [ivpk]. *)
Definition retries (ivpk : PublicKey) (d : DeferredNoteDao.t)
    (c : ProduceNoteDaosCall) : Prop :=
  DeferredNoteDao.ivpkM d = ivpk ∧
  argIvpkM c = Some ivpk ∧ argOvpkM c = None ∧
  argPayload c =
    {| note := DeferredNoteDao.note d;
       contractAddress := DeferredNoteDao.contractAddress d;
       storageSlot := DeferredNoteDao.storageSlot d;
       noteTypeId := DeferredNoteDao.noteTypeId d |} ∧
  argTxHash c = DeferredNoteDao.txHash d ∧
  argNewNoteHashes c = DeferredNoteDao.newNoteHashes d ∧
  argDataStartIndexForTx c = DeferredNoteDao.dataStartIndexForTx d.

(** What a call of [produceNoteDaos] is given of the transaction: its hash,
    its new note hashes and where they start in the note hash tree. *)
Definition argsOfTx (c : ProduceNoteDaosCall) : TxHash * list Fr * Z :=
  (argTxHash c, argNewNoteHashes c, argDataStartIndexForTx c).

(** The log decrypts, as incoming or as outgoing. *)
Definition decrypts `{Collaborators} (ivskM ovskM : SecretKey)
    (log : EncryptedL2NoteLog) : bool :=
  match decryptAsIncoming (data log) ivskM, decryptAsOutgoing (data log) ovskM with
  | None, None => false
  | _, _ => true
  end.

(** The specification's leaf-index offsets, log by log. For each log that
    decrypts, in the order of the blocks, of the transactions in a block
    and of the logs in a transaction: the hash and the new note hashes of
    the log's transaction, the one at index [i] of its block, and the
    block's offset plus [i] times the maximum number of note hashes of a
    transaction ([leafIndexOffset]). *)
Definition specifiedOfTx `{Collaborators} (ivskM ovskM : SecretKey)
    (blk : L2Block) (i : nat) (tx : EncryptedNoteTxL2Logs)
    : list (TxHash * list Fr * Z) :=
  match txEffects (body blk) !! i with
  | None => []
  | Some effect =>
      (λ _, (txHash effect, noteHashes effect, leafIndexOffset blk i))
        <$> filter (λ log, decrypts ivskM ovskM log = true)
                   (functionLogs tx ≫= logs)
  end.

Definition specifiedOfBlock `{Collaborators} (ivskM ovskM : SecretKey)
    (blk : L2Block) (batch : EncryptedNoteL2BlockL2Logs)
    : list (TxHash * list Fr * Z) :=
  mjoin (imap (specifiedOfTx ivskM ovskM blk) (txLogs batch)).

Definition specifiedOffsets `{Collaborators} (ivskM ovskM : SecretKey)
    (l2Blocks : list L2Block) (batches : list EncryptedNoteL2BlockL2Logs)
    : list (TxHash * list Fr * Z) :=
  mjoin (zip_with (specifiedOfBlock ivskM ovskM) l2Blocks batches).

(** While it runs, [m] calls [produceNoteDaos] for the transactions
    [expected], in that order, as far as it gets: for all of them if it
    returns, for the first of them if it throws. *)
Definition emits {Db Sim A} (expected : list (TxHash * list Fr * Z))
    (m : M (NoteProcessor Db (Recording Sim)) A) : Prop :=
  ∀ p, ∃ new,
    calls (simulator (snd (m p))) = calls (simulator p) ++ new ∧
    map argsOfTx new `prefix_of` expected ∧
    (∀ a, fst (m p) = Ok a → map argsOfTx new = expected).

(** With the keys [ivpk] and [ovpk], the processor keeps its keys and
    records only calls that satisfy [P]. *)
Definition recordsWithKeys {Db Sim} (ivpk ovpk : PublicKey)
    (P : ProduceNoteDaosCall → Prop)
    (p p' : NoteProcessor Db (Recording Sim)) : Prop :=
  ivpkM p = ivpk ∧ ovpkM p = ovpk →
  ivpkM p' = ivpk ∧ ovpkM p' = ovpk ∧ recordedOnly P p p'.

(** ** The note store *)

Module MemoryDb.

(** Modelled from the spec: the database behind [PxeDatabase]
    (../database/index.js), of which the processor's source has only the
    interface. This is the "Note/Deferred Store" of the specification's
    external interfaces: [addNotes] and [addDeferredNotes] persist the
    records they are given, [removeNullifiedNotes] removes and returns
    every persisted incoming record of the account whose nullifier is among
    the given ones, and the synced block of an account is what was last set
    for it, or nothing. *)
Record t : Type := {
  notes : list IncomingNoteDao.t;
  outgoingNotes : list OutgoingNoteDao.t;
  deferredNotes : list DeferredNoteDao.t;
  synchedBlocks : gmap Z Z
}.

Definition empty : t :=
  {| notes := []; outgoingNotes := []; deferredNotes := []; synchedBlocks := ∅ |}.

(** The record is the account's and one of the nullifiers is its own. *)
Definition nullified (nullifiers : list Fr) (account : PublicKey)
    (n : IncomingNoteDao.t) : Prop :=
  IncomingNoteDao.ivpkM n = account ∧ IncomingNoteDao.siloedNullifier n ∈ nullifiers.

Global Instance nullified_dec ns acct n : Decision (nullified ns acct n).
Proof. unfold nullified. apply _. Defined.

Global Instance pxeDatabase : PxeDatabase t := {
  addNotes inc out d :=
    {| notes := notes d ++ inc; outgoingNotes := outgoingNotes d ++ out;
       deferredNotes := deferredNotes d; synchedBlocks := synchedBlocks d |};
  addDeferredNotes ds d :=
    {| notes := notes d; outgoingNotes := outgoingNotes d;
       deferredNotes := deferredNotes d ++ ds; synchedBlocks := synchedBlocks d |};
  removeNullifiedNotes ns acct d :=
    (filter (nullified ns acct) (notes d),
     {| notes := filter (λ n, ¬ nullified ns acct n) (notes d);
        outgoingNotes := outgoingNotes d;
        deferredNotes := deferredNotes d; synchedBlocks := synchedBlocks d |});
  getSynchedBlockNumberForPublicKey acct d := synchedBlocks d !! acct;
  setSynchedBlockNumberForPublicKey acct n d :=
    {| notes := notes d; outgoingNotes := outgoingNotes d;
       deferredNotes := deferredNotes d;
       synchedBlocks := <[acct := n]> (synchedBlocks d) |}
}.

(** The store once a batch is committed: the batch's notes and deferred
    notes added, the account's nullified notes removed, the account's
    synced block set. *)
Definition committed (account : PublicKey) (incoming : list IncomingNoteDao.t)
    (outgoing : list OutgoingNoteDao.t) (deferred : list DeferredNoteDao.t)
    (nullifiers : list Fr) (blockNumber : Z) (d : t) : t :=
  {| notes := filter (λ n, ¬ nullified nullifiers account n) (notes d ++ incoming);
     outgoingNotes := outgoingNotes d ++ outgoing;
     deferredNotes := deferredNotes d ++ deferred;
     synchedBlocks := <[account := blockNumber]> (synchedBlocks d) |}.

End MemoryDb.

End PXE.

(** * Sample collaborators

    Small, executable instances of the interfaces, on which the theorems
    are run. *)

Module Sample.

(** Modelled from the spec: the transaction pool [InMemoryTxPool]
    (../tx_pool/memory_tx_pool.js) and [createTxIds] (./tx.js), of which
    the client's source has only the imports. The pool is the
    specification's "Transaction Pool" ([addAll], [deleteAll], [getAll]): a
    block is its number and the identifiers of its transactions, a
    transaction is its identifier, the pool the list of pending ones. *)
Global Instance p2p : P2P.Collaborators := {|
  P2P.L2Block := Z * list Z;
  P2P.Tx := Z;
  P2P.TxId := Z;
  P2P.TxPool := list Z;
  P2P.number := fst;
  P2P.createTxIds := snd;
  P2P.addTxs txs pool := pool ++ txs;
  P2P.deleteTxs ids pool := filter (λ tx, tx ∉ ids) pool;
  P2P.getAllTxs pool := pool
|}.

Import PXE.

Definition byteZ (b : Byte.byte) : Z := Z.of_N (Byte.to_N b).

(** The payload a sample log carries: the high half of the byte is the
    contract, the byte itself the note. *)
Definition payloadOf (v : Z) : L1NotePayload :=
  {| note := [v]; contractAddress := v `div` 16; storageSlot := 1; noteTypeId := 7 |}.

(** A sample cipher. A log of four bytes [ik; iv; ok; ov] decrypts as
    incoming under the key [ik], to the payload of [iv], and as outgoing
    under the key [ok], to the payload of [ov]. A secret key is the number
    of its public key, and a transaction has at most 64 new note hashes. *)
Global Instance pxe : PXE.Collaborators := {|
  SecretKey := Z;
  getMasterSecretKey pk := pk;
  decryptAsIncoming buf sk :=
    match buf with
    | [ik; iv; _; _] =>
        if bool_decide (byteZ ik = sk)
        then Some {| notePayload := payloadOf (byteZ iv) |} else None
    | _ => None
    end;
  decryptAsOutgoing buf sk :=
    match buf with
    | [_; _; ok; ov] =>
        if bool_decide (byteZ ok = sk)
        then Some {| notePayload := payloadOf (byteZ ov) |} else None
    | _ => None
    end;
  MAX_NEW_NOTE_HASHES_PER_TX := 64
|}.

(** The first index from [i] on at which [hashes] has [h] and which is not
    excluded. *)
Fixpoint findNoteHash (h : Z) (excluded : gset Z) (i : Z) (hashes : list Z)
    : option Z :=
  match hashes with
  | [] => None
  | h' :: rest =>
      if bool_decide (h' = h ∧ i ∉ excluded) then Some i
      else findNoteHash h excluded (i + 1) rest
  end.

(** A sample simulator: the set of contracts whose code is known. The note
    hash of a payload is its note's first field, its nullifier that plus
    1000. An incoming note of a known contract materialises when its hash
    is among the transaction's new note hashes, at an index not yet
    claimed; of an unknown contract, it is deferred. An outgoing note
    always materialises. *)
Global Instance knownContracts : AcirSimulator (gset Z) := {|
  produceNoteDaos known ivpk ovpk payload hash newNoteHashes start excluded :=
    let h := default 0 (head (note payload)) in
    let '(incoming, deferredNote, excluded') :=
      match ivpk with
      | None => (None, None, excluded)
      | Some k =>
          if bool_decide (contractAddress payload ∈ known) then
            match findNoteHash h excluded 0 newNoteHashes with
            | Some i =>
                (Some {| IncomingNoteDao.note := note payload;
                         IncomingNoteDao.contractAddress := contractAddress payload;
                         IncomingNoteDao.storageSlot := storageSlot payload;
                         IncomingNoteDao.noteTypeId := noteTypeId payload;
                         IncomingNoteDao.txHash := hash;
                         IncomingNoteDao.siloedNullifier := h + 1000;
                         IncomingNoteDao.ivpkM := k |},
                 None, excluded ∪ {[i]})
            | None => (None, None, excluded)
            end
          else
            (None,
             Some {| DeferredNoteDao.ivpkM := k;
                     DeferredNoteDao.note := note payload;
                     DeferredNoteDao.contractAddress := contractAddress payload;
                     DeferredNoteDao.storageSlot := storageSlot payload;
                     DeferredNoteDao.noteTypeId := noteTypeId payload;
                     DeferredNoteDao.txHash := hash;
                     DeferredNoteDao.newNoteHashes := newNoteHashes;
                     DeferredNoteDao.dataStartIndexForTx := start |},
             excluded)
      end in
    let outgoing :=
      match ovpk with
      | None => None
      | Some k =>
          Some {| OutgoingNoteDao.note := note payload;
                  OutgoingNoteDao.contractAddress := contractAddress payload;
                  OutgoingNoteDao.storageSlot := storageSlot payload;
                  OutgoingNoteDao.noteTypeId := noteTypeId payload;
                  OutgoingNoteDao.txHash := hash;
                  OutgoingNoteDao.ovpkM := k |}
      end in
    ({| incomingNote := incoming; outgoingNote := outgoing;
        incomingDeferredNote := deferredNote |}, excluded', known)
|}.

Definition noStats : NoteProcessorStats :=
  {| seen := 0; decryptedIncoming := 0; decryptedOutgoing := 0; deferred := 0;
     failed := 0; blocks := 0; txs := 0 |}.

(** A processor for the account with incoming key 1 and outgoing key 2,
    starting at block 1, that knows the code of contract 1. *)
Definition processor {Db} (d : Db) : NoteProcessor Db (gset Z) :=
  {| stats := noStats; account := 9; ivpkM := 1; ovpkM := 2; db := d;
     startingBlock := 1; simulator := {[1]} |}.

(** A block with one transaction, of the given number, new note hashes and
    nullifiers. *)
Definition blockOf (n : Z) (hashes nulls : list Z) : L2Block :=
  {| header := {| state := {| partial := {| noteHashTree :=
       {| nextAvailableLeafIndex := n * 64 |} |} |} |};
     body := {| txEffects := [{| txHash := 700 + n; noteHashes := hashes;
                                 nullifiers := nulls |}];
                numberOfTxsIncludingPadded := 1 |};
     number := n |}.

(** The log batch of a block with one transaction, one function call and
    the given logs. *)
Definition batchOf (ls : list (list Byte.byte)) : EncryptedNoteL2BlockL2Logs :=
  {| txLogs := [{| functionLogs := [{| logs := map (λ b, {| data := b |}) ls |}] |}] |}.

(** Logs: an incoming note 0x1a of the known contract 1; an incoming note
    0x2b of the unknown contract 2; a log that decrypts both ways, to
    different payloads; a log for someone else. *)
Definition logIncoming : list Byte.byte := [Byte.x01; Byte.x1a; Byte.x00; Byte.x00].
Definition logDeferred : list Byte.byte := [Byte.x01; Byte.x2b; Byte.x00; Byte.x00].
Definition logConflict : list Byte.byte := [Byte.x01; Byte.x1a; Byte.x02; Byte.x1c].
Definition logForeign : list Byte.byte := [Byte.x05; Byte.x1a; Byte.x06; Byte.x1a].
Definition logIncoming' : list Byte.byte := [Byte.x01; Byte.x1b; Byte.x00; Byte.x00].

(** The records [produceNoteDaos] makes of [logIncoming] and [logDeferred]
    in the transaction of block [n]. *)
Definition noteIncoming (n : Z) : IncomingNoteDao.t :=
  {| IncomingNoteDao.note := [26]; IncomingNoteDao.contractAddress := 1;
     IncomingNoteDao.storageSlot := 1; IncomingNoteDao.noteTypeId := 7;
     IncomingNoteDao.txHash := 700 + n; IncomingNoteDao.siloedNullifier := 1026;
     IncomingNoteDao.ivpkM := 1 |}.

Definition noteDeferred (n : Z) (hashes : list Z) : DeferredNoteDao.t :=
  {| DeferredNoteDao.ivpkM := 1; DeferredNoteDao.note := [43];
     DeferredNoteDao.contractAddress := 2; DeferredNoteDao.storageSlot := 1;
     DeferredNoteDao.noteTypeId := 7; DeferredNoteDao.txHash := 700 + n;
     DeferredNoteDao.newNoteHashes := hashes;
     DeferredNoteDao.dataStartIndexForTx := n * 64 - 64 |}.

(** A deferred note of the account with key [k], of the known contract 1,
    whose hash 26 is to be found among [hashes]. *)
Definition deferredOf (k : Z) (hashes : list Z) : DeferredNoteDao.t :=
  {| DeferredNoteDao.ivpkM := k; DeferredNoteDao.note := [26];
     DeferredNoteDao.contractAddress := 1; DeferredNoteDao.storageSlot := 1;
     DeferredNoteDao.noteTypeId := 7; DeferredNoteDao.txHash := 710;
     DeferredNoteDao.newNoteHashes := hashes;
     DeferredNoteDao.dataStartIndexForTx := 576 |}.

(** A database with an empty journal on the empty note store. *)
Definition emptyJournaled : Journaled MemoryDb.t :=
  {| journal := []; store := MemoryDb.empty |}.

(** A sample pool that fails when asked to delete the transaction 0. *)
Global Instance poolFailures : P2P.PoolFailures :=
  λ ids pool, if bool_decide (0 ∈ ids) then Some StorageError else None.

(** A sample note store that rejects the removal of the nullifier 0. *)
Global Instance storeFailures : DatabaseFailures MemoryDb.t :=
  λ call d,
    match call with
    | RemoveNullifiedNotes nullifiers _ =>
        if bool_decide (0 ∈ nullifiers) then Some StorageError else None
    | _ => None
    end.

(** A block of two transactions, with the new note hashes [26] and [27],
    and its log batch: a log for someone else and the incoming note 0x1a in
    the first transaction, the incoming note 0x1b in the second. *)
Definition blockOfTwo (n : Z) : L2Block :=
  {| header := {| state := {| partial := {| noteHashTree :=
       {| nextAvailableLeafIndex := n * 64 |} |} |} |};
     body := {| txEffects := [{| txHash := 700 + n; noteHashes := [26];
                                 nullifiers := [] |};
                              {| txHash := 800 + n; noteHashes := [27];
                                 nullifiers := [] |}];
                numberOfTxsIncludingPadded := 2 |};
     number := n |}.

Definition batchOfTwo : EncryptedNoteL2BlockL2Logs :=
  {| txLogs :=
       [{| functionLogs := [{| logs := [{| data := logForeign |};
                                        {| data := logIncoming |}] |}] |};
        {| functionLogs := [{| logs := [{| data := logIncoming' |}] |}] |}] |}.

(** A processor as [processor], with a simulator that records its calls. *)
Definition recordingProcessor {Db} (d : Db)
    : NoteProcessor Db (Recording (gset Z)) :=
  {| stats := noStats; account := 9; ivpkM := 1; ovpkM := 2; db := d;
     startingBlock := 1;
     simulator := {| calls := []; underlying := {[1]} |} |}.

End Sample.

(** * Properties of the monad *)

Section MonadFacts.
Context {S : Type}.

Lemma run_bind {A B} (m : M S A) (k : A → M S B) (s : S) :
  bind m k s =
    match m s with
    | (Ok a, s') => k a s'
    | (Err e, s') => (Err e, s')
    end.
Proof. reflexivity. Qed.

Lemma run_bind_get {B} (k : S → M S B) (s : S) : bind get k s = k s s.
Proof. reflexivity. Qed.

Lemma preserves_ret (R : relation S) `{!Reflexive R} {A} (a : A) :
  preserves R (ret a).
Proof. intros s. simpl. reflexivity. Qed.

Lemma preserves_throw (R : relation S) `{!Reflexive R} {A} (e : Error) :
  preserves R (throw (A := A) e).
Proof. intros s. simpl. reflexivity. Qed.

Lemma preserves_get (R : relation S) `{!Reflexive R} : preserves R get.
Proof. intros s. simpl. reflexivity. Qed.

Lemma preserves_modify (R : relation S) (f : S → S) :
  (∀ s, R s (f s)) → preserves R (modify f).
Proof. intros Hf s. apply Hf. Qed.

Lemma preserves_bind (R : relation S) `{!Transitive R} {A B}
    (m : M S A) (k : A → M S B) :
  preserves R m → (∀ a, preserves R (k a)) → preserves R (bind m k).
Proof.
  intros Hm Hk s. unfold bind. specialize (Hm s).
  destruct (m s) as [[a|e] s']; simpl in *; [|done].
  etrans; [exact Hm|apply Hk].
Qed.

Lemma preserves_foldM (R : relation S) `{!PreOrder R} {A B}
    (body : B → A → M S B) (xs : list A) (b : B) :
  (∀ b x, x ∈ xs → preserves R (body b x)) → preserves R (foldM body xs b).
Proof.
  revert b. induction xs as [|x xs IH]; intros b Hbody; simpl.
  - apply preserves_ret, _.
  - apply preserves_bind; [apply _|apply Hbody; left|].
    intros b'. apply IH. intros ???. apply Hbody. by right.
Qed.

Lemma throwsOnly_ret (E : Error → Prop) {A} (a : A) :
  throwsOnly (S := S) E (ret a).
Proof. intros s e. discriminate. Qed.

Lemma throwsOnly_modify (E : Error → Prop) (f : S → S) :
  throwsOnly E (modify f).
Proof. intros s e. discriminate. Qed.

Lemma throwsOnly_throw (E : Error → Prop) {A} (e : Error) :
  E e → throwsOnly (S := S) E (throw (A := A) e).
Proof. intros He s e'. simpl. congruence. Qed.

Lemma throwsOnly_bind (E : Error → Prop) {A B} (m : M S A) (k : A → M S B) :
  throwsOnly E m → (∀ a, throwsOnly E (k a)) → throwsOnly E (bind m k).
Proof.
  intros Hm Hk s e. unfold bind. specialize (Hm s).
  destruct (m s) as [[a|e'] s']; simpl in *.
  - apply Hk.
  - intros [= <-]. by apply Hm.
Qed.

Lemma throwsOnly_foldM (E : Error → Prop) {A B}
    (body : B → A → M S B) (xs : list A) (b : B) :
  (∀ b x, x ∈ xs → throwsOnly E (body b x)) → throwsOnly E (foldM body xs b).
Proof.
  revert b. induction xs as [|x xs IH]; intros b Hbody; simpl.
  - apply throwsOnly_ret.
  - apply throwsOnly_bind; [apply Hbody; left|].
    intros b'. apply IH. intros ???. apply Hbody. by right.
Qed.

Lemma alwaysThrows_bind_l {A B} (m : M S A) (k : A → M S B) :
  alwaysThrows m → alwaysThrows (bind m k).
Proof.
  intros Hm s. unfold bind. destruct (Hm s) as [e He].
  destruct (m s) as [[a|e'] s']; simpl in *; [done|]. by exists e'.
Qed.

Lemma alwaysThrows_bind_r {A B} (m : M S A) (k : A → M S B) :
  (∀ a, alwaysThrows (k a)) → alwaysThrows (bind m k).
Proof.
  intros Hk s. unfold bind.
  destruct (m s) as [[a|e'] s']; simpl in *; [apply Hk|by exists e'].
Qed.

(** A loop throws as soon as its body throws at one of the elements. *)
Lemma alwaysThrows_foldM {A B} (body : B → A → M S B) (xs : list A) (x : A) :
  x ∈ xs → (∀ b, alwaysThrows (body b x)) → ∀ b, alwaysThrows (foldM body xs b).
Proof.
  intros Hx. induction Hx as [x xs|x y xs Hx IH]; intros Hbody b; simpl.
  - apply alwaysThrows_bind_l, Hbody.
  - apply alwaysThrows_bind_r. intros b'. by apply IH.
Qed.

(** A loop whose body commutes with [f] commutes with [f]. *)
Lemma foldM_mapM {A B} (f : B → B) (body : B → A → M S B) (xs : list A) (b : B) (s : S) :
  (∀ b x s, body (f b) x s = mapM f (body b x) s) →
  foldM body xs (f b) s = mapM f (foldM body xs b) s.
Proof.
  intros Hbody. revert b s. induction xs as [|x xs IH]; intros b s; simpl.
  - reflexivity.
  - unfold bind at 1. rewrite Hbody. unfold mapM, bind.
    destruct (body b x s) as [[b'|e] s']; simpl; [|done].
    rewrite IH. unfold mapM, bind. reflexivity.
Qed.

Lemma foldM_app {A B} (body : B → A → M S B) (xs ys : list A) (b : B) (s : S) :
  foldM body (xs ++ ys) b s = bind (foldM body xs b) (foldM body ys) s.
Proof.
  revert b s. induction xs as [|x xs IH]; intros b s; simpl.
  - reflexivity.
  - unfold bind. destruct (body b x s) as [[b'|e] s']; [|done].
    rewrite IH. reflexivity.
Qed.

Lemma commutes_ret (g : S → S) {A} (a : A) : commutes g (ret a).
Proof. by intros s. Qed.

Lemma commutes_throw (g : S → S) {A} (e : Error) : commutes g (throw (A := A) e).
Proof. by intros s. Qed.

Lemma commutes_modify (g f : S → S) :
  (∀ s, f (g s) = g (f s)) → commutes g (modify f).
Proof. intros Hfg s. unfold modify. simpl. by rewrite Hfg. Qed.

Lemma commutes_bind (g : S → S) {A B} (m : M S A) (k : A → M S B) :
  commutes g m → (∀ a, commutes g (k a)) → commutes g (bind m k).
Proof.
  intros Hm Hk s. unfold bind. rewrite Hm.
  destruct (m s) as [[a|e] s']; simpl; [apply Hk|done].
Qed.

(** Reading the state commutes with [g] if what is done with it does not
    depend on what [g] changes. *)
Lemma commutes_bind_get (g : S → S) {B} (k : S → M S B) :
  (∀ s s', k (g s) s' = k s s') → (∀ s, commutes g (k s)) →
  commutes g (bind get k).
Proof.
  intros Hk Hc s. rewrite !run_bind_get, Hk. apply Hc.
Qed.

Lemma commutes_foldM (g : S → S) {A B} (body : B → A → M S B) (xs : list A) (b : B) :
  (∀ b x, commutes g (body b x)) → commutes g (foldM body xs b).
Proof.
  intros Hbody. revert b. induction xs as [|x xs IH]; intros b; simpl.
  - apply commutes_ret.
  - apply commutes_bind; [apply Hbody|apply IH].
Qed.

End MonadFacts.

(** * Properties of the P2P client *)

Section P2PFacts.
Context `{P2P.Collaborators}.
Import P2P.

Lemma logging_deletions (ids : list TxId) (c : P2PClient) :
  ∃ c', forOf (λ id, logMsg (DeletingTx id)) ids c = (Ok tt, c') ∧
        sameControl c c' ∧ txPool c' = txPool c ∧
        log c' = log c ++ map DeletingTx ids.
Proof.
  revert c. induction ids as [|id ids IH]; intros c; simpl.
  - exists c. unfold ret, sameControl. rewrite app_nil_r. tauto.
  - unfold bind at 1. simpl.
    destruct (IH (snd (logMsg (DeletingTx id) c))) as (c' & E & S & P & L).
    simpl in *. exists c'. rewrite E. unfold sameControl in *. simpl in *.
    rewrite L, <- app_assoc. tauto.
Qed.

Lemma reconcileTxPool_spec (blocks : list L2Block) (c : P2PClient) :
  ∃ c', reconcileTxPool blocks c = (Ok tt, c') ∧ sameControl c c' ∧
        txPool c' = reconciled blocks (txPool c) ∧
        ∃ deletions, log c' = log c ++ map DeletingTx deletions.
Proof.
  revert c. unfold reconcileTxPool.
  induction blocks as [|b blocks IH]; intros c; simpl.
  - exists c. unfold ret, sameControl. split_and!; try done.
    exists []. by rewrite app_nil_r.
  - unfold bind at 1. unfold bind at 1.
    destruct (logging_deletions (createTxIds b) c) as (c1 & E1 & S1 & P1 & L1).
    rewrite E1. simpl.
    destruct (IH (set_txPool (deleteTxs (createTxIds b) (txPool c1)) c1))
      as (c' & E & S & P & ds & L).
    exists c'. rewrite E. unfold sameControl in *. simpl in *.
    destruct_and!. split_and!; try congruence.
    exists (createTxIds b ++ ds). rewrite L, L1, map_app, <- app_assoc. done.
Qed.

(** [handleL2Blocks] never throws; an empty batch changes nothing. *)
Lemma handleL2Blocks_nil (c : P2PClient) : handleL2Blocks [] c = (Ok tt, c).
Proof. reflexivity. Qed.

Lemma handleL2Blocks_spec (blocks : list L2Block) (b : L2Block) (c : P2PClient) :
  last blocks = Some b →
  ∃ c', handleL2Blocks blocks c = (Ok tt, c') ∧
        currentL2BlockNum c' = number b ∧
        txPool c' = reconciled blocks (txPool c) ∧
        stopping c' = stopping c ∧
        runningPromise c' = runningPromise c ∧
        currentState c' =
          (if bool_decide (currentState c = SYNCHING)
              && (latestBlockNumberAtStart c <=? number b)
           then RUNNING else currentState c).
Proof.
  intros Hlast. unfold handleL2Blocks. rewrite Hlast.
  destruct (reconcileTxPool_spec blocks c) as (c1 & E1 & S1 & P1 & _).
  unfold bind, get, modify, logMsg, setCurrentState, bind, modify, ret.
  rewrite E1. simpl.
  destruct S1 as (? & ? & ? & ? & St & ? & Lt & ?).
  rewrite St, Lt.
  destruct (bool_decide (currentState c = SYNCHING)
            && (latestBlockNumberAtStart c <=? number b)) eqn:Hc; simpl.
  - destruct (syncResolve c1); simpl; eexists; (split; [reflexivity|]);
      simpl; rewrite ?Hc; split_and!; congruence.
  - eexists; (split; [reflexivity|]); simpl; rewrite ?Hc; split_and!; congruence.
Qed.

Lemma handleL2Blocks_stopped (blocks : list L2Block) (c : P2PClient) :
  currentState c = STOPPED →
  currentState (snd (handleL2Blocks blocks c)) = STOPPED.
Proof.
  intros Hs. destruct (last blocks) as [b|] eqn:Hl.
  - destruct (handleL2Blocks_spec blocks b c Hl) as (c' & E & _ & _ & _ & _ & St).
    rewrite E. simpl. rewrite St, Hs. done.
  - unfold handleL2Blocks. by rewrite Hl.
Qed.

Lemma stop_stopped (inflight : list L2Block) (c : P2PClient) :
  ∃ c', stop inflight c = (Ok tt, c') ∧ currentState c' = STOPPED.
Proof.
  unfold stop, bind, get, modify, logMsg, setCurrentState, bind, modify, ret.
  simpl. destruct (runningPromise c) as [[|]|]; simpl; try by eexists.
  match goal with |- context [handleL2Blocks inflight ?c0] =>
    destruct (last inflight) as [b|] eqn:Hl;
    [ destruct (handleL2Blocks_spec inflight b c0 Hl) as (c1 & E & _)
    | assert (E : handleL2Blocks inflight c0 = (Ok tt, c0))
        by (unfold handleL2Blocks; by rewrite Hl) ]
  end; rewrite E; simpl; by eexists.
Qed.

Lemma start_stopped (latest : Z) (c : P2PClient) :
  currentState c = STOPPED → start latest c = (Err AlreadyStopped, c).
Proof.
  intros Hs. unfold start, bind, get. simpl. rewrite Hs. reflexivity.
Qed.

(** Once stopped, the client stays stopped whatever is called. *)
Lemma step_stopped (c : P2PClient) (o : Op) :
  currentState c = STOPPED → currentState (step c o) = STOPPED.
Proof.
  intros Hs. destruct o; simpl.
  - by rewrite start_stopped.
  - destruct (stop_stopped inflight c) as (c' & E & St). by rewrite E.
  - unfold sendTx, isReady, bind, get, ret, throw. simpl. by rewrite Hs.
  - done.
  - done.
  - done.
  - done.
  - unfold blockProcessIteration, bind, get. simpl.
    destruct (runningPromise c) as [[|]|]; simpl; try done.
    destruct (stopping c); simpl; try done.
    by apply handleL2Blocks_stopped.
Qed.

Lemma run_stopped (ops : list Op) (c : P2PClient) :
  currentState c = STOPPED → currentState (run c ops) = STOPPED.
Proof.
  revert c. induction ops as [|o ops IH]; intros c Hs; simpl; [done|].
  apply IH. by apply step_stopped.
Qed.

(** C8. [start()] on an idle client whose next block to fetch is already
    beyond the remote tip read by that call moves the client to [RUNNING]
    and to no other state (the one state the call reports is [RUNNING]),
    and returns a promise that is already resolved. *)
Theorem start_when_caught_up (c : P2PClient) (latest : Z) :
  currentState c = IDLE →
  latest < currentL2BlockNum c + 1 →
  ∃ c', start latest c = (Ok Resolved, c') ∧
        currentState c' = RUNNING ∧
        syncPromise c' = Resolved ∧
        log c' = log c ++
          [MovedToState RUNNING;
           NextBlockBeyondLatest (currentL2BlockNum c + 1) latest;
           StartedBlockDownloader (currentL2BlockNum c + 1)].
Proof.
  intros Hidle Hlt.
  unfold start, bind, get, modify, logMsg, setCurrentState, bind, modify, ret.
  simpl. rewrite Hidle. simpl.
  destruct (Z.leb_spec (currentL2BlockNum c + 1) latest) as [Hle|_]; [lia|].
  simpl. eexists. split; [reflexivity|]. simpl.
  rewrite <- !app_assoc. done.
Qed.

End P2PFacts.

(** * Properties of the note processor *)

Section ProcessorFacts.
Context `{PXE.Collaborators} {Db Sim : Type}
  `{!PXE.PxeDatabase Db} `{!PXE.AcirSimulator Sim}.
Import PXE.

Local Abbreviation NP := (NoteProcessor Db Sim).

Global Instance sameStore_preorder : PreOrder (sameStore (Db := Db) (Sim := Sim)).
Proof.
  split.
  - intros p. by unfold sameStore.
  - intros p q r Hpq Hqr. unfold sameStore in *. destruct_and!.
    split_and!; congruence.
Qed.

(** *** What the loops leave alone

    [R] is any relation between the processor before and after that the
    statistics do not matter to. The loops of [process] stay within [R] if
    their calls of [produceNoteDaos] do. *)
Section Preserved.
Variable R : relation NP.
Context `{!PreOrder R}.
Hypothesis R_stats : ∀ f p, R p (set_stats (f (stats p)) p).

Lemma bump_preserves f : preserves R (bump f).
Proof. apply preserves_modify. intros p. apply R_stats. Qed.

Lemma recordNoteDaos_preserves daos l : preserves R (recordNoteDaos daos l).
Proof.
  unfold recordNoteDaos.
  repeat first
    [ apply preserves_ret; apply _
    | apply bump_preserves
    | apply preserves_bind; [apply _| |intros ?]
    | case_match ].
Qed.

Lemma processLog_preserves ivsk ovsk effect start acc log :
  (∀ ivpk ovpk payload excluded,
     preserves R (callProduceNoteDaos ivpk ovpk payload (txHash effect)
                    (noteHashes effect) start excluded)) →
  preserves R (processLog ivsk ovsk effect start acc log).
Proof.
  intros Hcall. unfold processLog.
  apply preserves_bind; [apply _|apply bump_preserves|intros _].
  apply preserves_bind; [apply _|apply preserves_get, _|intros p].
  repeat case_match;
    repeat first
      [ apply preserves_ret; apply _
      | apply preserves_throw; apply _
      | apply recordNoteDaos_preserves
      | apply Hcall
      | apply preserves_bind; [apply _| |intros ?]
      | case_match ].
Qed.

Lemma processTxLogs_preserves ivsk ovsk effect start fls acc :
  (∀ ivpk ovpk payload excluded,
     preserves R (callProduceNoteDaos ivpk ovpk payload (txHash effect)
                    (noteHashes effect) start excluded)) →
  preserves R (processTxLogs ivsk ovsk effect start fls acc).
Proof.
  intros Hcall. unfold processTxLogs.
  apply preserves_foldM; [apply _|]. intros acc' fl _.
  apply preserves_foldM; [apply _|]. intros acc'' log _.
  by apply processLog_preserves.
Qed.

Lemma txLoop_preserves ivsk ovsk blk start i rest l :
  (∀ j effect, txEffects (body blk) !! j = Some effect →
     ∀ ivpk ovpk payload excluded,
       preserves R (callProduceNoteDaos ivpk ovpk payload (txHash effect)
                      (noteHashes effect)
                      (start + Z.of_nat j * MAX_NEW_NOTE_HASHES_PER_TX) excluded)) →
  preserves R (txLoop ivsk ovsk blk start i rest l).
Proof.
  intros Hcall. revert i l. induction rest as [|tx rest IH]; intros i l; simpl.
  - apply preserves_ret, _.
  - apply preserves_bind; [apply _|apply bump_preserves|intros _].
    destruct (txEffects (body blk) !! i) as [effect|] eqn:Hi.
    + apply preserves_bind; [apply _| |intros acc; apply IH].
      apply processTxLogs_preserves. by apply Hcall.
    + apply preserves_throw, _.
Qed.

Lemma blockLoop_preserves ivsk ovsk bs k rest acc :
  (∀ b blk j effect, bs !! b = Some blk →
     txEffects (body blk) !! j = Some effect →
     ∀ ivpk ovpk payload excluded,
       preserves R (callProduceNoteDaos ivpk ovpk payload (txHash effect)
                      (noteHashes effect) (leafIndexOffset blk j) excluded)) →
  preserves R (blockLoop ivsk ovsk bs k rest acc).
Proof.
  intros Hcall. revert k acc. induction rest as [|batch rest IH]; intros k acc; simpl.
  - apply preserves_ret, _.
  - apply preserves_bind; [apply _|apply bump_preserves|intros _].
    destruct (bs !! k) as [blk|] eqn:Hk.
    + apply preserves_bind; [apply _| |intros l; apply IH].
      apply txLoop_preserves. intros j effect Hj. by apply (Hcall k).
    + apply preserves_throw, _.
Qed.

Lemma process_preserves l2Blocks batches :
  (∀ d p, R p (set_db d p)) →
  (∀ b blk j effect, l2Blocks !! b = Some blk →
     txEffects (body blk) !! j = Some effect →
     ∀ ivpk ovpk payload excluded,
       preserves R (callProduceNoteDaos ivpk ovpk payload (txHash effect)
                      (noteHashes effect) (leafIndexOffset blk j) excluded)) →
  preserves R (process l2Blocks batches).
Proof.
  intros Hdb Hcall. unfold process, processBlocksAndNotes, processDeferredNotes.
  repeat first
    [ apply preserves_ret; apply _
    | apply preserves_throw; apply _
    | apply preserves_get; apply _
    | apply preserves_modify; intros ?; apply Hdb
    | by apply blockLoop_preserves
    | apply preserves_bind; [apply _| |intros ?]
    | case_match ].
Qed.

End Preserved.

Lemma callProduceNoteDaos_sameStore ivpk ovpk payload hash hashes start excluded :
  preserves sameStore
    (callProduceNoteDaos (Db := Db) (Sim := Sim) ivpk ovpk payload hash hashes start excluded).
Proof.
  intros p. unfold callProduceNoteDaos.
  destruct (produceNoteDaos _ _ _ _ _ _ _ _) as [[daos excluded'] sim].
  by unfold sameStore.
Qed.

(** The loop of [process] reads and writes neither the database nor the
    processor's configuration. *)
Lemma blockLoop_sameStore ivsk ovsk bs k rest acc :
  preserves sameStore (blockLoop (Db := Db) (Sim := Sim) ivsk ovsk bs k rest acc).
Proof.
  apply blockLoop_preserves; [apply _|by unfold sameStore|].
  intros. apply callProduceNoteDaos_sameStore.
Qed.

(** *** What the loops throw *)

Lemma alwaysThrows_throw {A} (e : Error) : alwaysThrows (S := NP) (throw (A := A) e).
Proof. intros p. by exists e. Qed.

Lemma recordNoteDaos_throwsOnly E daos l :
  throwsOnly (S := NP) E (recordNoteDaos daos l).
Proof.
  unfold recordNoteDaos, bump.
  repeat first
    [ apply throwsOnly_ret
    | apply throwsOnly_modify
    | apply throwsOnly_bind; [|intros ?]
    | case_match ].
Qed.

Lemma callProduceNoteDaos_throwsOnly E ivpk ovpk payload hash hashes start excluded :
  throwsOnly (S := NP) E
    (callProduceNoteDaos ivpk ovpk payload hash hashes start excluded).
Proof.
  intros p e. unfold callProduceNoteDaos.
  by destruct (produceNoteDaos _ _ _ _ _ _ _ _) as [[daos excluded'] sim].
Qed.

Lemma processLog_throwsOnly ivsk ovsk effect start acc log :
  throwsOnly (S := NP) (λ e, e = DecryptionPayloadConflict)
    (processLog ivsk ovsk effect start acc log).
Proof.
  unfold processLog, bump.
  apply throwsOnly_bind; [apply throwsOnly_modify|intros _].
  apply throwsOnly_bind; [by intros ??|intros p].
  repeat case_match;
    repeat first
      [ apply throwsOnly_ret
      | by apply throwsOnly_throw
      | apply recordNoteDaos_throwsOnly
      | apply callProduceNoteDaos_throwsOnly
      | apply throwsOnly_bind; [|intros ?]
      | case_match ].
Qed.

Lemma processTxLogs_throwsOnly ivsk ovsk effect start fls acc :
  throwsOnly (S := NP) (λ e, e = DecryptionPayloadConflict)
    (processTxLogs ivsk ovsk effect start fls acc).
Proof.
  unfold processTxLogs.
  apply throwsOnly_foldM. intros acc' fl _.
  apply throwsOnly_foldM. intros acc'' log _.
  apply processLog_throwsOnly.
Qed.

(** If the block has an effect for every transaction still to visit, the
    loop over the transactions throws nothing but the payload conflict. *)
Lemma txLoop_throwsOnly ivsk ovsk blk start i rest l :
  (i + length rest ≤ length (txEffects (body blk)))%nat →
  throwsOnly (S := NP) (λ e, e = DecryptionPayloadConflict)
    (txLoop ivsk ovsk blk start i rest l).
Proof.
  revert i l. induction rest as [|tx rest IH]; intros i l Hlen; simpl in *.
  - apply throwsOnly_ret.
  - apply throwsOnly_bind; [apply throwsOnly_modify|intros _].
    destruct (txEffects (body blk) !! i) as [effect|] eqn:Hi.
    + apply throwsOnly_bind; [apply processTxLogs_throwsOnly|intros acc].
      apply IH. lia.
    + apply lookup_ge_None in Hi. lia.
Qed.

Lemma blockLoop_throwsOnly ivsk ovsk bs k rest acc :
  aligned (drop k bs) rest →
  throwsOnly (S := NP) (λ e, e = DecryptionPayloadConflict)
    (blockLoop ivsk ovsk bs k rest acc).
Proof.
  revert k acc. induction rest as [|batch rest IH]; intros k acc Hal; simpl.
  - apply throwsOnly_ret.
  - apply throwsOnly_bind; [apply throwsOnly_modify|intros _].
    unfold aligned in Hal.
    destruct (drop k bs) as [|blk bs'] eqn:Hdrop; inversion Hal; subst.
    assert (Hk : bs !! k = Some blk).
    { rewrite <- (Nat.add_0_r k), <- lookup_drop, Hdrop. done. }
    rewrite Hk.
    apply throwsOnly_bind; [by apply txLoop_throwsOnly|intros l].
    apply IH. unfold aligned.
    replace (S k) with (1 + k)%nat by done.
    rewrite Nat.add_comm, <- drop_drop, Hdrop. done.
Qed.

(** A log in conflict makes every loop around it throw. *)
Lemma processLog_conflict ivsk ovsk effect start acc log :
  payloadConflict ivsk ovsk log = true →
  alwaysThrows (S := NP) (processLog ivsk ovsk effect start acc log).
Proof.
  unfold payloadConflict, processLog. intros Hc p.
  unfold bind, bump, modify, get. simpl.
  destruct (decryptAsIncoming _ _) as [i|]; [|done].
  destruct (decryptAsOutgoing _ _) as [o|]; [|done].
  rewrite Hc. by eexists.
Qed.

Lemma processTxLogs_conflict ivsk ovsk effect start fls acc log :
  log ∈ fls ≫= logs →
  payloadConflict ivsk ovsk log = true →
  alwaysThrows (S := NP) (processTxLogs ivsk ovsk effect start fls acc).
Proof.
  intros Hin Hc. apply list_elem_of_bind in Hin as (fl & Hlog & Hfl).
  unfold processTxLogs. revert acc.
  apply alwaysThrows_foldM with (x := fl); [done|]. intros acc.
  apply alwaysThrows_foldM with (x := log); [done|]. intros acc'.
  by apply processLog_conflict.
Qed.

Lemma txLoop_conflict ivsk ovsk blk start rest tx log :
  tx ∈ rest → log ∈ functionLogs tx ≫= logs →
  payloadConflict ivsk ovsk log = true →
  ∀ i l, alwaysThrows (S := NP) (txLoop ivsk ovsk blk start i rest l).
Proof.
  intros Htx Hlog Hc.
  induction Htx as [tx rest|tx tx' rest Htx IH]; intros i l; simpl;
    apply alwaysThrows_bind_r; intros _;
    (destruct (txEffects (body blk) !! i) as [effect|];
      [|apply alwaysThrows_throw]).
  - by eapply alwaysThrows_bind_l, processTxLogs_conflict.
  - apply alwaysThrows_bind_r. intros acc. by apply IH.
Qed.

Lemma blockLoop_conflict ivsk ovsk bs rest batch log :
  batch ∈ rest → log ∈ logsOf batch →
  payloadConflict ivsk ovsk log = true →
  ∀ k acc, alwaysThrows (S := NP) (blockLoop ivsk ovsk bs k rest acc).
Proof.
  intros Hb Hlog Hc.
  apply list_elem_of_bind in Hlog as (tx & Hlog & Htx).
  induction Hb as [batch rest|batch batch' rest Hb IH]; intros k acc; simpl;
    apply alwaysThrows_bind_r; intros _;
    (destruct (bs !! k) as [blk|]; [|apply alwaysThrows_throw]).
  - by eapply alwaysThrows_bind_l, txLoop_conflict.
  - apply alwaysThrows_bind_r. intros l. by apply IH.
Qed.

(** *** What [process] does, case by case *)

Lemma process_mismatch (p : NP) l2Blocks batches :
  length l2Blocks ≠ length batches →
  process l2Blocks batches p =
    (Err (BatchLengthMismatch (length l2Blocks) (length batches)), p).
Proof. intros Hlen. unfold process. by rewrite bool_decide_eq_true_2. Qed.

Lemma process_empty (p : NP) : process [] [] p = (Ok tt, p).
Proof. reflexivity. Qed.

(** On a batch of blocks with as many log batches, [process] throws what
    its loop throws, and otherwise persists what the loop collected. *)
Lemma process_nonempty (p : NP) l2Blocks batches lastBlock :
  length l2Blocks = length batches →
  last l2Blocks = Some lastBlock →
  process l2Blocks batches p =
    match collect l2Blocks batches p with
    | (Err e, p') => (Err e, p')
    | (Ok (blocksAndNotes, deferredNotes), p') =>
        (processBlocksAndNotes blocksAndNotes >>
         processDeferredNotes deferredNotes >>
         modify (λ p, set_db (setSynchedBlockNumberForPublicKey (ivpkM p)
                                (number lastBlock) (db p)) p)) p'
    end.
Proof.
  intros Hlen Hlast. unfold process, collect.
  rewrite bool_decide_eq_false_2 by (by intros ?). rewrite Hlast.
  rewrite !run_bind_get, run_bind.
  destruct (blockLoop _ _ _ _ _ _ p) as [[[bn ds]|e] p']; reflexivity.
Qed.

Lemma collect_sameStore (p : NP) l2Blocks batches :
  sameStore p (snd (collect l2Blocks batches p)).
Proof. unfold collect, bind, get. simpl. apply blockLoop_sameStore. Qed.

(** A call of [process] that throws has not touched the database. *)
Lemma process_throws_sameStore (p p' : NP) l2Blocks batches e :
  process l2Blocks batches p = (Err e, p') → sameStore p p'.
Proof.
  intros Hp.
  destruct (decide (length l2Blocks = length batches)) as [Hlen|Hlen].
  - destruct (last l2Blocks) as [lastBlock|] eqn:Hlast.
    + rewrite (process_nonempty _ _ _ _ Hlen Hlast) in Hp.
      pose proof (collect_sameStore p l2Blocks batches) as Hs.
      destruct (collect l2Blocks batches p) as [[[bn ds]|e'] p1]; simpl in *.
      * unfold processBlocksAndNotes, processDeferredNotes, bind, modify, ret in Hp.
        repeat case_match; simplify_eq.
      * by simplify_eq.
    + unfold process in Hp. rewrite bool_decide_eq_false_2, Hlast in Hp by (by intros ?).
      by simplify_eq.
  - rewrite process_mismatch in Hp by done. by simplify_eq.
Qed.

Lemma getSyncedToBlock_sameStore (p p' : NP) :
  sameStore p p' → getSyncedToBlock p' = getSyncedToBlock p.
Proof.
  unfold sameStore, getSyncedToBlock. intros (-> & -> & _ & _ & ->). done.
Qed.

(** The blocks of [blocksAndNotes] are the blocks visited. *)
Lemma blockLoop_blocks ivsk ovsk bs rest :
  ∀ k acc (p : NP) acc' p',
    blockLoop ivsk ovsk bs k rest acc p = (Ok acc', p') →
    map ProcessedData.block (fst acc') =
      map ProcessedData.block (fst acc) ++ take (length rest) (drop k bs).
Proof.
  induction rest as [|batch rest IH]; intros k acc p acc' p' Hrun; simpl in *.
  - unfold ret in Hrun. simplify_eq. by rewrite take_0, app_nil_r.
  - rewrite run_bind in Hrun. simpl in Hrun.
    destruct (bs !! k) as [blk|] eqn:Hk; [|done].
    rewrite run_bind in Hrun.
    destruct (txLoop _ _ _ _ _ _ _ _) as [[l|e] p1]; [|done].
    apply IH in Hrun. rewrite Hrun. simpl.
    rewrite map_app, <- app_assoc. simpl.
    by rewrite (drop_S _ _ _ Hk).
Qed.

Lemma collect_blocks (p p' : NP) l2Blocks batches blocksAndNotes deferredNotes :
  length l2Blocks = length batches →
  collect l2Blocks batches p = (Ok (blocksAndNotes, deferredNotes), p') →
  map ProcessedData.block blocksAndNotes = l2Blocks.
Proof.
  intros Hlen Hrun. unfold collect in Hrun. rewrite run_bind_get in Hrun.
  apply blockLoop_blocks in Hrun. simpl in Hrun.
  by rewrite Hrun, drop_0, <- Hlen, firstn_all.
Qed.

Lemma nullifiers_of_blocksAndNotes (blocksAndNotes : list ProcessedData.t) :
  blocksAndNotes ≫= (λ b, txEffects (body (ProcessedData.block b)) ≫= nullifiers)
  = nullifiersOf (map ProcessedData.block blocksAndNotes).
Proof.
  unfold nullifiersOf. induction blocksAndNotes as [|b bn IH]; [done|].
  cbn [map]. by rewrite !bind_cons, IH.
Qed.

(** A call of [process] that returns on a batch with a last block ends by
    setting the synced block to that block's number. *)
Lemma process_returns_synced (p p' : NP) l2Blocks batches lastBlock :
  last l2Blocks = Some lastBlock →
  process l2Blocks batches p = (Ok tt, p') →
  ivpkM p' = ivpkM p ∧ startingBlock p' = startingBlock p ∧
  ∃ d, db p' = setSynchedBlockNumberForPublicKey (ivpkM p) (number lastBlock) d.
Proof.
  intros Hlast Hp.
  destruct (decide (length l2Blocks = length batches)) as [Hlen|Hlen];
    [|by rewrite process_mismatch in Hp].
  rewrite (process_nonempty _ _ _ _ Hlen Hlast) in Hp.
  pose proof (collect_sameStore p l2Blocks batches) as (_ & Hiv & _ & _ & Hst).
  destruct (collect l2Blocks batches p) as [[[bn ds]|e] p1]; [|done].
  simpl in Hiv, Hst.
  unfold processBlocksAndNotes, processDeferredNotes, bind, modify, ret in Hp.
  repeat case_bool_decide; simplify_eq; simpl; rewrite Hiv;
    (split; [done|split; [done|by eexists]]).
Qed.

(** C3. If some log of the batch decrypts both as incoming and as outgoing
    and the two payloads differ, [process] (on blocks that come with their
    log batches) throws the payload-conflict error and commits nothing:
    the database is the one before the call, for any database, so no
    record was persisted and the synced block is unchanged. *)
Theorem process_payload_conflict (p : NP) l2Blocks batches :
  aligned l2Blocks batches →
  hasPayloadConflict (ivpkM p) (ovpkM p) batches →
  ∃ p', process l2Blocks batches p = (Err DecryptionPayloadConflict, p') ∧
        db p' = db p ∧
        getSyncedToBlock p' = getSyncedToBlock p.
Proof.
  intros Hal Hconf.
  pose proof (Forall2_length _ _ _ Hal) as Hlen.
  apply Exists_exists in Hconf as (log & Hlog & Hc).
  apply list_elem_of_bind in Hlog as (batch & Hlog & Hbatch).
  assert (∃ lastBlock, last l2Blocks = Some lastBlock) as [lastBlock Hlast].
  { destruct l2Blocks as [|blk bs].
    - destruct batches; [by apply elem_of_nil in Hbatch|done].
    - apply (last_is_Some (blk :: bs)). done. }
  rewrite (process_nonempty _ _ _ _ Hlen Hlast).
  pose proof (collect_sameStore p l2Blocks batches) as Hs.
  unfold collect in *. rewrite run_bind_get in *.
  destruct (blockLoop_conflict _ _ l2Blocks _ _ _ Hbatch Hlog Hc 0%nat ([], []) p)
    as [e He].
  pose proof (blockLoop_throwsOnly (getMasterSecretKey (ivpkM p))
                (getMasterSecretKey (ovpkM p)) l2Blocks 0 batches ([], []) Hal p)
    as Ht.
  destruct (blockLoop _ _ _ _ _ _ p) as [[acc|e'] p']; simpl in *; [done|].
  rewrite (Ht e' eq_refl). exists p'. split; [done|].
  split; [apply Hs|by apply getSyncedToBlock_sameStore].
Qed.

(** Without the assumption on the batches the call still throws, and
    commits nothing. *)
Lemma process_conflict_throws (p : NP) l2Blocks batches :
  hasPayloadConflict (ivpkM p) (ovpkM p) batches →
  ∃ e p', process l2Blocks batches p = (Err e, p') ∧ db p' = db p.
Proof.
  intros Hconf.
  apply Exists_exists in Hconf as (log & Hlog & Hc).
  apply list_elem_of_bind in Hlog as (batch & Hlog & Hbatch).
  destruct (process l2Blocks batches p) as [[[]|e] p'] eqn:Hp.
  - exfalso.
    destruct (decide (length l2Blocks = length batches)) as [Hlen|Hlen];
      [|by rewrite process_mismatch in Hp].
    destruct (last l2Blocks) as [lastBlock|] eqn:Hlast.
    + rewrite (process_nonempty _ _ _ _ Hlen Hlast) in Hp.
      unfold collect in Hp. rewrite run_bind_get in Hp.
      destruct (blockLoop_conflict _ _ l2Blocks _ _ _ Hbatch Hlog Hc 0%nat ([], []) p)
        as [e He].
      by destruct (blockLoop _ _ _ _ _ _ p) as [[acc|e'] p1].
    + apply last_None in Hlast. subst. destruct batches; [|done].
      by apply elem_of_nil in Hbatch.
  - exists e, p'. split; [done|]. by apply (process_throws_sameStore _ _ _ _ _ Hp).
Qed.

(** C4. Given blocks and log batches of different numbers, [process]
    throws at once and leaves the processor, and with it the note store
    and the synced block, as they were; given no blocks and no log batches
    it returns and leaves the processor as it was. *)
Theorem process_mismatch_or_empty (p : NP) l2Blocks batches :
  (length l2Blocks ≠ length batches →
   process l2Blocks batches p =
     (Err (BatchLengthMismatch (length l2Blocks) (length batches)), p)) ∧
  process [] [] p = (Ok tt, p).
Proof.
  split.
  - intros Hlen. unfold process. by rewrite bool_decide_eq_true_2.
  - unfold process. rewrite bool_decide_eq_false_2 by (by intros ?).
    reflexivity.
Qed.

(** C10. While the database has no synced block for the account's incoming
    viewing key, [status.syncedToBlock] is the starting block minus one,
    and [isSynchronized] compares that number with the node's block
    number. *)
Theorem status_before_first_batch (p : NP) (remoteBlockNumber : Z) :
  getSynchedBlockNumberForPublicKey (ivpkM p) (db p) = None →
  syncedToBlock (status p) = startingBlock p - 1 ∧
  isSynchronized remoteBlockNumber p
    = bool_decide (startingBlock p - 1 = remoteBlockNumber).
Proof.
  intros Hnone. unfold status, isSynchronized, getSyncedToBlock. simpl.
  by rewrite Hnone.
Qed.

End ProcessorFacts.

(** ** The leaf-index offsets *)

Section RecordingFacts.
Context `{PXE.Collaborators} {Db Sim : Type}
  `{!PXE.PxeDatabase Db} `{!PXE.AcirSimulator Sim}.
Import PXE.

Global Instance recordedOnly_preorder P :
  PreOrder (recordedOnly (Db := Db) (Sim := Sim) P).
Proof.
  split.
  - intros p. exists []. by rewrite app_nil_r.
  - intros p q r (n1 & E1 & F1) (n2 & E2 & F2). exists (n1 ++ n2).
    split; [by rewrite E2, E1, app_assoc|by apply Forall_app].
Qed.

Lemma callProduceNoteDaos_recorded (P : ProduceNoteDaosCall → Prop)
    ivpk ovpk payload hash hashes start excluded :
  P {| argIvpkM := ivpk; argOvpkM := ovpk; argPayload := payload;
       argTxHash := hash; argNewNoteHashes := hashes;
       argDataStartIndexForTx := start; argExcludedIndices := excluded |} →
  preserves (recordedOnly (Db := Db) P)
    (callProduceNoteDaos ivpk ovpk payload hash hashes start excluded).
Proof.
  intros HP p. unfold callProduceNoteDaos. simpl.
  destruct (produceNoteDaos _ _ _ _ _ _ _ _) as [[daos excluded'] sim].
  simpl. eexists. split; [done|]. by apply Forall_singleton.
Qed.

(** *** The calls, one by one *)

Local Abbreviation RP := (NoteProcessor Db (Recording Sim)).

Lemma emits_ret {A} (a : A) : emits [] (ret a : M RP A).
Proof.
  intros p. exists []. simpl. rewrite app_nil_r. by split_and!.
Qed.

Lemma emits_throw {A} expected (e : Error) :
  emits expected (throw e : M RP A).
Proof.
  intros p. exists []. simpl. rewrite app_nil_r.
  split_and!; [done|apply prefix_nil|done].
Qed.

Lemma emits_modify (f : RP → RP) :
  (∀ p, simulator (f p) = simulator p) → emits [] (modify f).
Proof.
  intros Hf p. exists []. simpl. rewrite Hf, app_nil_r. by split_and!.
Qed.

Lemma emits_bind {A B} expected1 expected2 (m : M RP A) (k : A → M RP B) :
  emits expected1 m → (∀ a, emits expected2 (k a)) →
  emits (expected1 ++ expected2) (bind m k).
Proof.
  intros Hm Hk p. destruct (Hm p) as (new1 & Hcalls & Hpre & Hok).
  unfold bind. destruct (m p) as [[a|e] p1]; simpl in *.
  - destruct (Hk a p1) as (new2 & Hcalls2 & Hpre2 & Hok2).
    exists (new1 ++ new2). rewrite Hcalls2, Hcalls, app_assoc.
    split; [done|]. rewrite map_app, (Hok a eq_refl).
    split; [by apply prefix_app|]. intros b Hb. by rewrite (Hok2 b Hb).
  - exists new1. split; [done|]. split; [by apply prefix_app_r|done].
Qed.

Lemma emits_bind_get {A} expected (k : RP → M RP A) :
  (∀ q, emits expected (k q)) → emits expected (bind get k).
Proof. intros Hk p. apply Hk. Qed.

Lemma emits_foldM {A B} (expected : A → list (TxHash * list Fr * Z))
    (body : B → A → M RP B) (xs : list A) :
  (∀ b x, emits (expected x) (body b x)) →
  ∀ b, emits (xs ≫= expected) (foldM body xs b).
Proof.
  intros Hbody. induction xs as [|x xs IH]; intros b.
  - apply emits_ret.
  - rewrite bind_cons. cbn [foldM]. by apply emits_bind.
Qed.

Lemma emits_call ivpk ovpk payload hash hashes start excluded :
  emits (Db := Db) (Sim := Sim) [(hash, hashes, start)]
    (callProduceNoteDaos ivpk ovpk payload hash hashes start excluded).
Proof.
  intros p. unfold callProduceNoteDaos. simpl.
  destruct (produceNoteDaos _ _ _ _ _ _ _ _) as [[daos excluded'] sim].
  simpl. eexists. by split_and!.
Qed.

Lemma emits_recordNoteDaos daos l : emits (Db := Db) (Sim := Sim) [] (recordNoteDaos daos l).
Proof.
  intros p. exists []. rewrite app_nil_r.
  unfold recordNoteDaos, bind, bump, modify, ret.
  by destruct (incomingNote daos), (outgoingNote daos),
       (incomingDeferredNote daos).
Qed.

Lemma emits_processLog ivsk ovsk effect start acc log :
  emits (Db := Db) (Sim := Sim)
    (if decrypts ivsk ovsk log
     then [(txHash effect, noteHashes effect, start)] else [])
    (processLog ivsk ovsk effect start acc log).
Proof.
  unfold processLog.
  apply (emits_bind [] _); [by apply emits_modify|intros _].
  apply emits_bind_get. intros q.
  assert (Hproduce : ∀ ivpk ovpk payload,
    emits (Db := Db) (Sim := Sim) [(txHash effect, noteHashes effect, start)]
      (bind (callProduceNoteDaos ivpk ovpk payload (txHash effect)
               (noteHashes effect) start (snd acc))
            (λ '(daos, excludedIndices),
               bind (recordNoteDaos daos (fst acc))
                    (λ l, ret (l, excludedIndices))))).
  { intros ivpk ovpk payload.
    apply (emits_bind [_] []); [apply emits_call|intros [daos excluded]].
    apply (emits_bind [] []); [apply emits_recordNoteDaos|intros l].
    apply emits_ret. }
  unfold decrypts.
  destruct (decryptAsIncoming _ _) as [i|], (decryptAsOutgoing _ _) as [o|];
    [case_bool_decide; [apply emits_throw|]|..];
    try apply Hproduce.
  apply emits_ret.
Qed.

Lemma bind_decrypts {A} (t : A) ivsk ovsk (ls : list EncryptedL2NoteLog) :
  ls ≫= (λ log, if decrypts ivsk ovsk log then [t] else [])
  = (λ _, t) <$> filter (λ log, decrypts ivsk ovsk log = true) ls.
Proof.
  induction ls as [|log ls IH]; [done|].
  rewrite bind_cons, filter_cons, IH.
  destruct (decrypts ivsk ovsk log); by case_decide.
Qed.

Lemma emits_processTxLogs ivsk ovsk blk i effect start fls acc :
  txEffects (body blk) !! i = Some effect →
  start = leafIndexOffset blk i →
  emits (Db := Db) (Sim := Sim)
    (specifiedOfTx ivsk ovsk blk i {| functionLogs := fls |})
    (processTxLogs ivsk ovsk effect start fls acc).
Proof.
  intros Heffect ->. unfold specifiedOfTx, processTxLogs. rewrite Heffect.
  simpl. rewrite <- bind_decrypts.
  revert acc. induction fls as [|fl fls IH]; intros acc.
  - apply emits_ret.
  - rewrite !bind_cons, bind_app. cbn [foldM].
    apply emits_bind; [|intros acc'; apply IH].
    apply emits_foldM. intros b log. apply emits_processLog.
Qed.

Lemma emits_txLoop ivsk ovsk blk rest :
  ∀ i l,
    emits (Db := Db) (Sim := Sim)
      (mjoin (imap (λ j, specifiedOfTx ivsk ovsk blk (i + j)) rest))
      (txLoop ivsk ovsk blk (leafIndexOffset blk 0) i rest l).
Proof.
  induction rest as [|tx rest IH]; intros i l.
  - apply emits_ret.
  - rewrite imap_cons. cbn [txLoop mjoin list_join].
    apply (emits_bind [] _); [by apply emits_modify|intros _].
    destruct (txEffects (body blk) !! i) as [effect|] eqn:Heffect;
      [|apply emits_throw].
    apply emits_bind.
    + rewrite Nat.add_0_r. destruct tx as [fls].
      apply (emits_processTxLogs _ _ blk i); [done|].
      unfold leafIndexOffset. lia.
    + intros acc.
      rewrite (imap_ext _ (λ j, specifiedOfTx ivsk ovsk blk (S i + j)))
        by (intros j x _; simpl; by rewrite Nat.add_succ_r).
      apply IH.
Qed.

Lemma emits_blockLoop ivsk ovsk bs rest :
  ∀ k acc,
    emits (Db := Db) (Sim := Sim)
      (mjoin (zip_with (specifiedOfBlock ivsk ovsk) (drop k bs) rest))
      (blockLoop ivsk ovsk bs k rest acc).
Proof.
  induction rest as [|batch rest IH]; intros k acc.
  - rewrite zip_with_nil_r. apply emits_ret.
  - cbn [blockLoop].
    apply (emits_bind [] _); [by apply emits_modify|intros _].
    destruct (bs !! k) as [blk|] eqn:Hblk; [|apply emits_throw].
    rewrite (drop_S _ _ _ Hblk). cbn [zip_with mjoin list_join].
    apply emits_bind; [|intros l; apply IH].
    unfold specifiedOfBlock.
    replace (nextAvailableLeafIndex (noteHashTree (partial (state (header blk))))
             - numberOfTxsIncludingPadded (body blk) * MAX_NEW_NOTE_HASHES_PER_TX)
      with (leafIndexOffset blk 0) by (unfold leafIndexOffset; lia).
    apply (emits_txLoop ivsk ovsk blk (txLogs batch) 0).
Qed.

(** C6. What [produceNoteDaos] is given, call by call. The calls that
    [process] makes are, in this order, one for each log that decrypts, of
    each transaction of each block; the call for a log of the transaction
    at index [i] of a block passes that transaction's hash and new note
    hashes, and as [dataStartIndexForTx] the block's offset plus [i] times
    the maximum number of note hashes of a transaction, where the block's
    offset (that of its first transaction) is the header's next available
    leaf index minus the padded transaction count times that maximum. A
    call of [process] that returns has made all these calls, one that
    throws the first of them. *)
Theorem produceNoteDaos_offsets (p : RP) l2Blocks batches :
  let specified :=
    specifiedOffsets (getMasterSecretKey (ivpkM p))
      (getMasterSecretKey (ovpkM p)) l2Blocks batches in
  ∃ new,
    calls (simulator (snd (process l2Blocks batches p)))
      = calls (simulator p) ++ new ∧
    map argsOfTx new `prefix_of` specified ∧
    (fst (process l2Blocks batches p) = Ok tt → map argsOfTx new = specified).
Proof.
  intros specified.
  assert (Hemits : emits specified (process l2Blocks batches)
                   ∨ process l2Blocks batches p
                     = (bind (blockLoop (getMasterSecretKey (ivpkM p))
                                (getMasterSecretKey (ovpkM p))
                                l2Blocks 0 batches ([], []))
                          (λ '(blocksAndNotes, deferredNotes),
                             processBlocksAndNotes blocksAndNotes >>
                             processDeferredNotes deferredNotes >>
                             match last l2Blocks with
                             | Some lastBlock =>
                                 modify (λ p, set_db
                                   (setSynchedBlockNumberForPublicKey (ivpkM p)
                                      (number lastBlock) (db p)) p)
                             | None => ret tt
                             end)) p).
  { unfold process. case_bool_decide; [left; apply emits_throw|].
    destruct (last l2Blocks) as [lastBlock|] eqn:Hlast; [by right|].
    left. apply last_None in Hlast. subst l2Blocks specified.
    apply emits_ret. }
  destruct Hemits as [Hemits|Hrun].
  { destruct (Hemits p) as (new & Hcalls & Hpre & Hok).
    exists new. split_and!; [done|done|apply Hok]. }
  rewrite Hrun.
  assert (Hloop : emits (specified ++ [])
    (bind (blockLoop (getMasterSecretKey (ivpkM p))
             (getMasterSecretKey (ovpkM p)) l2Blocks 0 batches ([], []))
          (λ '(blocksAndNotes, deferredNotes),
             processBlocksAndNotes blocksAndNotes >>
             processDeferredNotes deferredNotes >>
             match last l2Blocks with
             | Some lastBlock =>
                 modify (λ p, set_db
                   (setSynchedBlockNumberForPublicKey (ivpkM p)
                      (number lastBlock) (db p)) p)
             | None => ret tt
             end))).
  { apply emits_bind; [apply (emits_blockLoop _ _ l2Blocks batches 0)|].
    intros [bn ds].
    apply (emits_bind [] []); [|intros _].
    - apply (emits_bind [] []); [|intros _].
      + unfold processBlocksAndNotes.
        apply (emits_bind [] []); [|intros _; by apply emits_modify].
        case_bool_decide; [by apply emits_modify|apply emits_ret].
      + unfold processDeferredNotes.
        case_bool_decide; [by apply emits_modify|apply emits_ret].
    - destruct (last l2Blocks); [by apply emits_modify|apply emits_ret]. }
  rewrite app_nil_r in Hloop.
  destruct (Hloop p) as (new & Hcalls & Hpre & Hok).
  exists new. split_and!; [done|done|apply Hok].
Qed.

End RecordingFacts.

(** ** The order of the database calls *)

Section JournalFacts.
Context `{PXE.Collaborators} {Db Sim : Type}
  `{!PXE.PxeDatabase Db} `{!PXE.AcirSimulator Sim}.
Import PXE.

(** The journal after a call of [process] that returns, given what its
    loop collected. *)
Lemma process_journal (p p' p1 : NoteProcessor (Journaled Db) Sim)
    l2Blocks batches lastBlock blocksAndNotes deferredNotes :
  length l2Blocks = length batches →
  last l2Blocks = Some lastBlock →
  collect l2Blocks batches p = (Ok (blocksAndNotes, deferredNotes), p1) →
  process l2Blocks batches p = (Ok tt, p') →
  let incoming := blocksAndNotes ≫= ProcessedData.incomingNotes in
  let outgoing := blocksAndNotes ≫= ProcessedData.outgoingNotes in
  journal (db p') =
    journal (db p)
    ++ (if bool_decide (incoming ≠ [] ∨ outgoing ≠ [])
        then [AddNotes incoming outgoing] else [])
    ++ [RemoveNullifiedNotes (nullifiersOf l2Blocks) (ivpkM p)]
    ++ (if bool_decide (deferredNotes ≠ [])
        then [AddDeferredNotes deferredNotes] else [])
    ++ [SetSynchedBlockNumberForPublicKey (ivpkM p) (number lastBlock)].
Proof.
  intros Hlen Hlast Hcol Hp.
  rewrite (process_nonempty _ _ _ _ Hlen Hlast), Hcol in Hp.
  pose proof (collect_sameStore p l2Blocks batches) as (Hdb & Hiv & _).
  rewrite Hcol in Hdb, Hiv. simpl in Hdb, Hiv.
  pose proof (collect_blocks _ _ _ _ _ _ Hlen Hcol) as Hblocks.
  unfold processBlocksAndNotes, processDeferredNotes in Hp.
  rewrite nullifiers_of_blocksAndNotes, Hblocks in Hp.
  unfold bind, modify, ret in Hp. simpl.
  repeat case_match; simplify_eq; simpl; rewrite ?Hdb, ?Hiv;
    by rewrite <- ?app_assoc.
Qed.

(** C1 (as the code has it). A call of [process] that returns, on a batch
    with a last block, makes these database calls and no others, in this
    order: [addNotes] with all incoming and outgoing notes collected, if
    there are any; [removeNullifiedNotes] with the nullifiers of all
    transactions of the batch; [addDeferredNotes] with the deferred notes
    collected, if there are any; and last
    [setSynchedBlockNumberForPublicKey] with the last block's number. *)
Theorem process_database_calls (p p' : NoteProcessor (Journaled Db) Sim)
    l2Blocks batches lastBlock :
  last l2Blocks = Some lastBlock →
  process l2Blocks batches p = (Ok tt, p') →
  ∃ blocksAndNotes deferredNotes p1,
    collect l2Blocks batches p = (Ok (blocksAndNotes, deferredNotes), p1) ∧
    let incoming := blocksAndNotes ≫= ProcessedData.incomingNotes in
    let outgoing := blocksAndNotes ≫= ProcessedData.outgoingNotes in
    journal (db p') =
      journal (db p)
      ++ (if bool_decide (incoming ≠ [] ∨ outgoing ≠ [])
          then [AddNotes incoming outgoing] else [])
      ++ [RemoveNullifiedNotes (nullifiersOf l2Blocks) (ivpkM p)]
      ++ (if bool_decide (deferredNotes ≠ [])
          then [AddDeferredNotes deferredNotes] else [])
      ++ [SetSynchedBlockNumberForPublicKey (ivpkM p) (number lastBlock)].
Proof.
  intros Hlast Hp.
  destruct (decide (length l2Blocks = length batches)) as [Hlen|Hlen];
    [|by rewrite process_mismatch in Hp].
  destruct (collect l2Blocks batches p) as [[[bn ds]|e] p1] eqn:Hcol.
  - exists bn, ds, p1. split; [done|].
    by apply (process_journal p p' p1 _ batches).
  - by rewrite (process_nonempty _ _ _ _ Hlen Hlast), Hcol in Hp.
Qed.

End JournalFacts.

(** ** Splitting a batch *)

Section SplitFacts.
Context `{PXE.Collaborators} {Db Sim : Type}
  `{!PXE.PxeDatabase Db} `{!PXE.AcirSimulator Sim}.
Import PXE.

Local Abbreviation NP := (NoteProcessor Db Sim).

(** *** The loops do not look at the database *)

Lemma bump_commutes d f : commutes (S := NP) (set_db d) (bump f).
Proof. by apply commutes_modify. Qed.

Lemma callProduceNoteDaos_commutes d ivpk ovpk payload hash hashes start excluded :
  commutes (S := NP) (set_db d)
    (callProduceNoteDaos ivpk ovpk payload hash hashes start excluded).
Proof.
  intros p. unfold callProduceNoteDaos. simpl.
  by destruct (produceNoteDaos _ _ _ _ _ _ _ _) as [[daos excluded'] sim].
Qed.

Lemma recordNoteDaos_commutes d daos l :
  commutes (S := NP) (set_db d) (recordNoteDaos daos l).
Proof.
  unfold recordNoteDaos.
  repeat first
    [ apply commutes_ret
    | apply bump_commutes
    | apply commutes_bind; [|intros ?]
    | case_match ].
Qed.

Lemma processLog_commutes d ivsk ovsk effect start acc log :
  commutes (S := NP) (set_db d) (processLog ivsk ovsk effect start acc log).
Proof.
  unfold processLog.
  apply commutes_bind; [apply bump_commutes|intros _].
  apply commutes_bind_get; [done|intros p].
  repeat case_match;
    repeat first
      [ apply commutes_ret
      | apply commutes_throw
      | apply recordNoteDaos_commutes
      | apply callProduceNoteDaos_commutes
      | apply commutes_bind; [|intros ?]
      | case_match ].
Qed.

Lemma txLoop_commutes d ivsk ovsk blk start rest :
  ∀ i l, commutes (S := NP) (set_db d) (txLoop ivsk ovsk blk start i rest l).
Proof.
  induction rest as [|tx rest IH]; intros i l; simpl.
  - apply commutes_ret.
  - apply commutes_bind; [apply bump_commutes|intros _].
    case_match; [|apply commutes_throw].
    apply commutes_bind; [|intros ?; apply IH].
    unfold processTxLogs.
    apply commutes_foldM. intros acc fl.
    apply commutes_foldM. intros acc' log.
    apply processLog_commutes.
Qed.

Lemma blockLoop_commutes d ivsk ovsk bs rest :
  ∀ k acc, commutes (S := NP) (set_db d) (blockLoop ivsk ovsk bs k rest acc).
Proof.
  induction rest as [|batch rest IH]; intros k acc; simpl.
  - apply commutes_ret.
  - apply commutes_bind; [apply bump_commutes|intros _].
    case_match; [|apply commutes_throw].
    apply commutes_bind; [apply txLoop_commutes|intros ?; apply IH].
Qed.

(** *** What was collected before only comes first *)

Lemma recordNoteDaos_afterDeferred ds daos l (p : NP) :
  recordNoteDaos daos (afterDeferred ds l) p
  = mapM (afterDeferred ds) (recordNoteDaos daos l) p.
Proof.
  unfold recordNoteDaos, mapM, afterDeferred, bind, bump, modify, ret. simpl.
  destruct (incomingNote daos), (outgoingNote daos), (incomingDeferredNote daos);
    simpl; by rewrite ?app_assoc.
Qed.

Lemma processLog_afterDeferred ds ivsk ovsk effect start acc log (p : NP) :
  processLog ivsk ovsk effect start (afterDeferred ds (fst acc), snd acc) log p
  = mapM (λ acc, (afterDeferred ds (fst acc), snd acc))
      (processLog ivsk ovsk effect start acc log) p.
Proof.
  destruct acc as [l excluded].
  unfold processLog, mapM. rewrite !run_bind. simpl.
  rewrite !run_bind_get.
  destruct (decryptAsIncoming _ _) as [i|], (decryptAsOutgoing _ _) as [o|];
    [case_bool_decide|..]; try done;
    rewrite !run_bind;
    (destruct (callProduceNoteDaos _ _ _ _ _ _ _ _) as [[[daos ex]|e] p1]; [|done]);
    simpl; rewrite !run_bind, recordNoteDaos_afterDeferred; unfold mapM;
    rewrite !run_bind;
    by destruct (recordNoteDaos _ _ _) as [[l'|e] p2].
Qed.

Lemma processTxLogs_afterDeferred ds ivsk ovsk effect start fls l excluded (p : NP) :
  processTxLogs ivsk ovsk effect start fls (afterDeferred ds l, excluded) p
  = mapM (λ acc, (afterDeferred ds (fst acc), snd acc))
      (processTxLogs ivsk ovsk effect start fls (l, excluded)) p.
Proof.
  unfold processTxLogs.
  apply (foldM_mapM (λ acc, (afterDeferred ds (fst acc), snd acc)) _ _ (l, excluded)).
  intros acc fl q.
  apply (foldM_mapM (λ acc, (afterDeferred ds (fst acc), snd acc))).
  intros acc' log q'. apply processLog_afterDeferred.
Qed.

Lemma txLoop_afterDeferred ds ivsk ovsk blk start rest :
  ∀ i l (p : NP),
    txLoop ivsk ovsk blk start i rest (afterDeferred ds l) p
    = mapM (afterDeferred ds) (txLoop ivsk ovsk blk start i rest l) p.
Proof.
  induction rest as [|tx rest IH]; intros i l p; simpl.
  - done.
  - unfold mapM. rewrite !run_bind. simpl.
    case_match; [|done].
    rewrite !run_bind, processTxLogs_afterDeferred.
    unfold mapM at 1. rewrite !run_bind.
    destruct (processTxLogs _ _ _ _ _ _ _) as [[acc|e] p1]; [|done].
    simpl. rewrite IH. unfold mapM. by rewrite !run_bind.
Qed.

Lemma blockLoop_after before ivsk ovsk bs rest :
  ∀ k acc (p : NP),
    blockLoop ivsk ovsk bs k rest (after before acc) p
    = mapM (after before) (blockLoop ivsk ovsk bs k rest acc) p.
Proof.
  induction rest as [|batch rest IH]; intros k acc p; simpl.
  - done.
  - unfold mapM. rewrite !run_bind. simpl.
    case_match; [|done].
    rewrite !run_bind.
    change {| incomingNotes := []; outgoingNotes := [];
              deferredNoteDaosIncoming := snd before ++ snd acc |}
      with (afterDeferred (snd before)
              {| incomingNotes := []; outgoingNotes := [];
                 deferredNoteDaosIncoming := snd acc |}).
    rewrite txLoop_afterDeferred. unfold mapM at 1. rewrite !run_bind.
    destruct (txLoop _ _ _ _ _ _ _ _) as [[l'|e] p1]; [|done].
    simpl. rewrite <- app_assoc.
    match goal with
    | |- blockLoop _ _ _ _ _ (?a ++ ?b, ?c ++ ?d) _ = _ =>
        change (a ++ b, c ++ d) with (after before (b, d))
    end.
    rewrite IH. unfold mapM. by rewrite !run_bind.
Qed.

(** *** The loop over a batch in two parts *)

Lemma blockLoop_app ivsk ovsk bs r1 r2 :
  ∀ k acc (p : NP),
    blockLoop ivsk ovsk bs k (r1 ++ r2) acc p
    = bind (blockLoop ivsk ovsk bs k r1 acc)
        (blockLoop ivsk ovsk bs (k + length r1) r2) p.
Proof.
  induction r1 as [|batch r1 IH]; intros k acc p; simpl.
  - rewrite run_bind. simpl. by rewrite Nat.add_0_r.
  - rewrite !run_bind. simpl. case_match; [|done].
    rewrite !run_bind.
    destruct (txLoop _ _ _ _ _ _ _ _) as [[l'|e] p1]; [|done].
    rewrite IH, !run_bind. by rewrite Nat.add_succ_r.
Qed.

(** The loop reads the blocks only at the indices of the log batches. *)
Lemma blockLoop_ext ivsk ovsk bs bs' rest :
  ∀ k k' acc (p : NP),
    (∀ j, (j < length rest)%nat → bs !! (k + j)%nat = bs' !! (k' + j)%nat) →
    blockLoop ivsk ovsk bs k rest acc p = blockLoop ivsk ovsk bs' k' rest acc p.
Proof.
  induction rest as [|batch rest IH]; intros k k' acc p Hext; simpl in *.
  - done.
  - rewrite !run_bind. simpl.
    pose proof (Hext 0%nat ltac:(lia)) as Hhead. rewrite !Nat.add_0_r in Hhead.
    rewrite Hhead. case_match; [|done].
    rewrite !run_bind.
    destruct (txLoop _ _ _ _ _ _ _ _) as [[l'|e] p1]; [|done].
    apply IH. intros j Hj. specialize (Hext (S j) ltac:(lia)).
    by rewrite !Nat.add_succ_r in Hext.
Qed.

Lemma blockLoop_split ivsk ovsk b1 b2 l1 l2 (p : NP) :
  length b1 = length l1 →
  blockLoop ivsk ovsk (b1 ++ b2) 0 (l1 ++ l2) ([], []) p
  = bind (blockLoop ivsk ovsk b1 0 l1 ([], []))
      (λ acc1, mapM (after acc1) (blockLoop ivsk ovsk b2 0 l2 ([], []))) p.
Proof.
  intros Hlen. rewrite blockLoop_app, !run_bind.
  rewrite (blockLoop_ext _ _ (b1 ++ b2) b1 l1 0 0).
  2:{ intros j Hj. simpl. apply lookup_app_l. lia. }
  destruct (blockLoop _ _ b1 _ _ _ _) as [[acc1|e] p1]; [|done].
  rewrite (blockLoop_ext _ _ (b1 ++ b2) b2 l2 _ 0).
  2:{ intros j Hj. simpl. rewrite lookup_app_r by lia. f_equal. lia. }
  rewrite <- blockLoop_after. unfold after. simpl.
  rewrite !app_nil_r. by destruct acc1.
Qed.

End SplitFacts.

(** *** On the note store *)

Section MemoryFacts.
Context `{PXE.Collaborators} {Sim : Type} `{!PXE.AcirSimulator Sim}.
Import PXE.

Local Abbreviation NP := (NoteProcessor MemoryDb.t Sim).

Lemma process_memory (p : NP) l2Blocks batches lastBlock :
  length l2Blocks = length batches →
  last l2Blocks = Some lastBlock →
  process l2Blocks batches p =
    match collect l2Blocks batches p with
    | (Err e, p') => (Err e, p')
    | (Ok (blocksAndNotes, deferredNotes), p') =>
        (Ok tt,
         set_db (MemoryDb.committed (ivpkM p')
                   (blocksAndNotes ≫= ProcessedData.incomingNotes)
                   (blocksAndNotes ≫= ProcessedData.outgoingNotes)
                   deferredNotes (nullifiersOf l2Blocks)
                   (number lastBlock) (db p')) p')
    end.
Proof.
  intros Hlen Hlast. rewrite (process_nonempty _ _ _ _ Hlen Hlast).
  destruct (collect l2Blocks batches p) as [[[bn ds]|e] p'] eqn:Hcol; [|done].
  pose proof (collect_blocks _ _ _ _ _ _ Hlen Hcol) as Hblocks.
  unfold processBlocksAndNotes, processDeferredNotes.
  rewrite nullifiers_of_blocksAndNotes, Hblocks.
  unfold bind, modify, ret, MemoryDb.committed, set_db. simpl.
  destruct p' as [st ac iv ov [ns os dfs sb] sbk sim]. simpl.
  repeat case_bool_decide; simpl; repeat f_equal;
    rewrite ?filter_app, ?app_nil_r; try done.
  all: repeat match goal with
       | H : ¬ (_ ∨ _) |- _ => apply Decidable.not_or in H as [? ?]
       | H : ¬ (_ ≠ _) |- _ => apply dec_stable in H
       end;
       repeat match goal with H : _ = [] |- _ => rewrite H end;
       by rewrite ?app_nil_r.
Qed.

Lemma filter_not_nullified_app (ns1 ns2 : list Z) account (l : list IncomingNoteDao.t) :
  filter (λ n, ¬ MemoryDb.nullified ns2 account n)
    (filter (λ n, ¬ MemoryDb.nullified ns1 account n) l)
  = filter (λ n, ¬ MemoryDb.nullified (ns1 ++ ns2) account n) l.
Proof.
  rewrite list_filter_filter. apply list_filter_iff. intros n.
  unfold MemoryDb.nullified. rewrite elem_of_app. tauto.
Qed.

Lemma filter_not_nullified_later (ns1 ns2 : list Z) account (l : list IncomingNoteDao.t) :
  Forall (λ n, ¬ MemoryDb.nullified ns1 account n) l →
  filter (λ n, ¬ MemoryDb.nullified ns2 account n) l
  = filter (λ n, ¬ MemoryDb.nullified (ns1 ++ ns2) account n) l.
Proof.
  induction 1 as [|n l Hn Hl IH]; [done|].
  rewrite !filter_cons, IH.
  assert (MemoryDb.nullified ns2 account n ↔ MemoryDb.nullified (ns1 ++ ns2) account n)
    as Hiff.
  { unfold MemoryDb.nullified in *. rewrite elem_of_app. tauto. }
  repeat case_decide; tauto.
Qed.

(** Committing two batches one after the other is committing them
    together, unless a note of the second has a nullifier of the first. *)
Lemma committed_twice account i1 o1 d1 ns1 w1 i2 o2 d2 ns2 w2 d :
  Forall (λ n, ¬ MemoryDb.nullified ns1 account n) i2 →
  MemoryDb.committed account i2 o2 d2 ns2 w2
    (MemoryDb.committed account i1 o1 d1 ns1 w1 d)
  = MemoryDb.committed account (i1 ++ i2) (o1 ++ o2) (d1 ++ d2) (ns1 ++ ns2) w2 d.
Proof.
  intros Hlater. unfold MemoryDb.committed. simpl. f_equal.
  - rewrite (app_assoc (MemoryDb.notes d)), !filter_app.
    by rewrite !filter_not_nullified_app, (filter_not_nullified_later ns1 ns2).
  - by rewrite app_assoc.
  - by rewrite app_assoc.
  - by rewrite insert_insert_eq.
Qed.

(** C5 (as the code has it). If [process] returns on a sequence of
    blocks with their log batches, and no incoming note the second part of
    the sequence yields has, for this account, a nullifier that a
    transaction of the first part emits, then calling [process] on the
    first part and then on the second returns both times and leaves the
    processor, hence the note store and the synced block, exactly as the
    one call does. *)
Theorem process_in_two_calls (p pw : NP) b1 l1 b2 l2 :
  length b1 = length l1 →
  length b2 = length l2 →
  process (b1 ++ b2) (l1 ++ l2) p = (Ok tt, pw) →
  (∀ acc p2, collect b2 l2 (snd (process b1 l1 p)) = (Ok acc, p2) →
     Forall (λ n, ¬ MemoryDb.nullified (nullifiersOf b1) (ivpkM p) n)
            (fst acc ≫= ProcessedData.incomingNotes)) →
  ∃ p1, process b1 l1 p = (Ok tt, p1) ∧ process b2 l2 p1 = (Ok tt, pw).
Proof.
  intros Hlen1 Hlen2 Hp Hlater.
  destruct (last b1) as [lb1|] eqn:Hl1.
  2:{ apply last_None in Hl1. subst b1. destruct l1; [|done].
      exists p. split; [done|exact Hp]. }
  destruct (last b2) as [lb2|] eqn:Hl2.
  2:{ apply last_None in Hl2. subst b2. destruct l2; [|done].
      rewrite !app_nil_r in Hp. exists pw. split; [done|reflexivity]. }
  assert (Hlen : length (b1 ++ b2) = length (l1 ++ l2))
    by (rewrite !length_app; lia).
  assert (Hlast : last (b1 ++ b2) = Some lb2) by (by rewrite last_app, Hl2).
  rewrite (process_memory _ _ _ _ Hlen Hlast) in Hp.
  unfold collect in Hp.
  rewrite run_bind_get, blockLoop_split, run_bind in Hp by done.
  pose proof (blockLoop_sameStore (getMasterSecretKey (ivpkM p))
                (getMasterSecretKey (ovpkM p)) b1 0 l1 ([], []) p) as S1.
  destruct (blockLoop _ _ b1 0%nat l1 _ p) as [[[bn1 d1]|e] p1L] eqn:E1; [|done].
  unfold mapM in Hp. rewrite run_bind in Hp.
  pose proof (blockLoop_sameStore (getMasterSecretKey (ivpkM p))
                (getMasterSecretKey (ovpkM p)) b2 0 l2 ([], []) p1L) as S2.
  destruct (blockLoop _ _ b2 0%nat l2 _ p1L) as [[[bn2 d2]|e] pL] eqn:E2; [|done].
  simpl in Hp, S1, S2. unfold ret, after in Hp. simpl in Hp.
  destruct S1 as (Sdb1 & Siv1 & Sov1 & _), S2 as (Sdb2 & Siv2 & Sov2 & _).
  assert (HivL : ivpkM pL = ivpkM p) by congruence.
  assert (HdbL : db pL = db p) by congruence.
  assert (Hfirst : process b1 l1 p =
    (Ok tt, set_db (MemoryDb.committed (ivpkM p)
                      (bn1 ≫= ProcessedData.incomingNotes)
                      (bn1 ≫= ProcessedData.outgoingNotes) d1
                      (nullifiersOf b1) (number lb1) (db p)) p1L)).
  { rewrite (process_memory _ _ _ _ Hlen1 Hl1). unfold collect.
    by rewrite run_bind_get, E1, Sdb1, Siv1. }
  eexists. split; [exact Hfirst|].
  rewrite Hfirst in Hlater. simpl in Hlater.
  rewrite (process_memory _ _ _ _ Hlen2 Hl2). unfold collect in *.
  rewrite run_bind_get in *. simpl in *.
  rewrite blockLoop_commutes in *. rewrite Siv1, Sov1, E2 in *. simpl in *.
  specialize (Hlater _ _ eq_refl). simpl in Hlater.
  rewrite <- Hp. f_equal. unfold set_db. simpl.
  rewrite HivL, HdbL. f_equal.
  rewrite committed_twice by done.
  unfold nullifiersOf. by rewrite !bind_app.
Qed.

End MemoryFacts.

(** ** Retrying deferred notes *)

Section DeferredFacts.
Context `{PXE.Collaborators} {Db Sim : Type}
  `{!PXE.PxeDatabase Db} `{!PXE.AcirSimulator Sim}.
Import PXE.

Local Abbreviation NP := (NoteProcessor Db Sim).

Lemma decodeDeferredNote_sameStore acc d :
  preserves (sameStore (Db := Db) (Sim := Sim)) (decodeDeferredNote acc d).
Proof.
  unfold decodeDeferredNote. destruct acc as [excluded incoming].
  apply preserves_bind; [apply _|apply preserves_get, _|intros p].
  case_bool_decide; [apply preserves_ret, _|].
  apply preserves_bind; [apply _|apply callProduceNoteDaos_sameStore|].
  intros [daos excluded'].
  destruct (incomingNote daos); [|apply preserves_throw, _].
  apply preserves_bind; [apply _| |intros _; apply preserves_ret, _].
  apply bump_preserves. by unfold sameStore.
Qed.

Lemma decodeDeferredNote_foreign acc d (p : NP) :
  DeferredNoteDao.ivpkM d ≠ ivpkM p → decodeDeferredNote acc d p = (Ok acc, p).
Proof.
  intros Hne. unfold decodeDeferredNote. destruct acc as [excluded incoming].
  rewrite run_bind_get. by rewrite bool_decide_eq_true_2.
Qed.

Lemma decodeLoop_filter ds :
  ∀ acc (p : NP),
    foldM decodeDeferredNote ds acc p
    = foldM decodeDeferredNote
        (filter (λ d, DeferredNoteDao.ivpkM d = ivpkM p) ds) acc p.
Proof.
  induction ds as [|d ds IH]; intros acc p; [done|].
  rewrite filter_cons. case_decide as Hd; simpl.
  - rewrite !run_bind.
    pose proof (decodeDeferredNote_sameStore acc d p) as (_ & Hiv & _).
    destruct (decodeDeferredNote acc d p) as [[acc'|e] p1]; [|done].
    simpl in Hiv. by rewrite IH, Hiv.
  - rewrite run_bind, decodeDeferredNote_foreign by done. apply IH.
Qed.

(** C9. [decodeDeferredNotes] skips the records of other accounts: it
    returns, and leaves the processor, as it does without them. And if,
    when the loop comes to a record of this account, [produceNoteDaos]
    returns no incoming note for it, the call throws. *)
Theorem decodeDeferredNotes_skips_or_throws (p : NP)
    (before rest : list DeferredNoteDao.t) (d : DeferredNoteDao.t) :
  decodeDeferredNotes (before ++ d :: rest) p
    = decodeDeferredNotes
        (filter (λ d, DeferredNoteDao.ivpkM d = ivpkM p) (before ++ d :: rest)) p
  ∧ ∀ excluded incoming p1,
      foldM decodeDeferredNote before (∅, []) p = (Ok (excluded, incoming), p1) →
      DeferredNoteDao.ivpkM d = ivpkM p →
      incomingNote
        (fst (fst (produceNoteDaos (simulator p1) (Some (ivpkM p)) None
          {| note := DeferredNoteDao.note d;
             contractAddress := DeferredNoteDao.contractAddress d;
             storageSlot := DeferredNoteDao.storageSlot d;
             noteTypeId := DeferredNoteDao.noteTypeId d |}
          (DeferredNoteDao.txHash d) (DeferredNoteDao.newNoteHashes d)
          (DeferredNoteDao.dataStartIndexForTx d) excluded))) = None →
      ∃ p', decodeDeferredNotes (before ++ d :: rest) p
            = (Err DeferredRetryFailed, p').
Proof.
  split.
  - unfold decodeDeferredNotes. by rewrite !run_bind, <- decodeLoop_filter.
  - intros excluded incoming p1 Hbefore Hmine Hnone.
    unfold decodeDeferredNotes. rewrite run_bind, foldM_app, run_bind, Hbefore.
    simpl. rewrite run_bind.
    pose proof (preserves_foldM (sameStore (Db := Db) (Sim := Sim))
                  decodeDeferredNote before (∅, [])
                  (λ acc x _, decodeDeferredNote_sameStore acc x) p) as Hs.
    rewrite Hbefore in Hs. destruct Hs as (_ & Hiv & _). simpl in Hiv.
    unfold decodeDeferredNote. rewrite run_bind_get.
    rewrite bool_decide_eq_false_2 by (rewrite Hiv; by intros ?).
    rewrite run_bind. unfold callProduceNoteDaos. rewrite Hiv.
    destruct (produceNoteDaos _ _ _ _ _ _ _ _) as [[daos excluded'] sim].
    simpl in *. rewrite Hnone. by eexists.
Qed.

End DeferredFacts.

(** * More on the P2P client *)

Section P2PMore.
Context `{P2P.Collaborators}.
Import P2P.

Lemma handleL2Blocks_empty (blocks : list L2Block) (c : P2PClient) :
  last blocks = None → handleL2Blocks blocks c = (Ok tt, c).
Proof. intros Hl. unfold handleL2Blocks. by rewrite Hl. Qed.

(** What [start] does to an idle client. *)
Lemma start_idle (latest : Z) (c : P2PClient) :
  currentState c = IDLE →
  ∃ c', start latest c = (Ok (syncPromise c'), c') ∧
        currentState c' =
          (if currentL2BlockNum c + 1 <=? latest then SYNCHING else RUNNING) ∧
        syncPromise c' =
          (if currentL2BlockNum c + 1 <=? latest then Pending else Resolved) ∧
        syncResolve c' =
          (if currentL2BlockNum c + 1 <=? latest then true else syncResolve c) ∧
        latestBlockNumberAtStart c' = latest ∧
        currentL2BlockNum c' = currentL2BlockNum c ∧
        txPool c' = txPool c ∧
        stopping c' = stopping c ∧
        runningPromise c' = Some (if stopping c then Resolved else Pending) ∧
        blockDownloader c' =
          {| startedFrom := Some (currentL2BlockNum c + 1);
             downloaderStopped := downloaderStopped (blockDownloader c) |}.
Proof.
  intros Hidle.
  unfold start, bind, get, modify, logMsg, setCurrentState, bind, modify, ret.
  simpl. rewrite Hidle. simpl.
  destruct (currentL2BlockNum c + 1 <=? latest); simpl;
    match goal with |- ∃ c', (_, ?x) = _ ∧ _ => exists x end;
    simpl; split_and!; reflexivity.
Qed.

Lemma start_not_idle (latest : Z) (c : P2PClient) :
  currentState c ≠ IDLE → currentState c ≠ STOPPED →
  start latest c = (Ok (syncPromise c), c).
Proof.
  intros Hidle Hstopped. unfold start. rewrite run_bind_get.
  rewrite bool_decide_eq_false_2 by done.
  by rewrite bool_decide_eq_true_2.
Qed.

(** X2. [start()] on an idle client that is behind the remote tip
    [latest] moves it to [SYNCHING] with a pending promise and starts the
    downloader at the next block. From then on the client syncs to
    [latest] as read by that call: an iteration of the block loop that
    ends at a block below [latest] leaves it synching, the promise pending
    and [sendTx] throwing; one that ends at [latest] or beyond makes it
    [RUNNING] and ready, and resolves the promise. *)
Theorem start_then_sync (c : P2PClient) (latest : Z)
    (blocks : list L2Block) (lastBlock : L2Block) (tx : Tx) :
  currentState c = IDLE →
  stopping c = false →
  currentL2BlockNum c + 1 ≤ latest →
  last blocks = Some lastBlock →
  let c1 := snd (start latest c) in
  let c2 := snd (blockProcessIteration blocks c1) in
  (fst (start latest c) = Ok Pending ∧
   currentState c1 = SYNCHING ∧
   startedFrom (blockDownloader c1) = Some (currentL2BlockNum c + 1) ∧
   fst (sendTx tx c1) = Err NotReady) ∧
  currentL2BlockNum c2 = number lastBlock ∧
  latestBlockNumberAtStart c2 = latest ∧
  (number lastBlock < latest →
     currentState c2 = SYNCHING ∧ syncPromise c2 = Pending ∧
     fst (isReady c2) = Ok false ∧ fst (sendTx tx c2) = Err NotReady) ∧
  (latest ≤ number lastBlock →
     currentState c2 = RUNNING ∧ syncPromise c2 = Resolved ∧
     fst (isReady c2) = Ok true ∧ fst (sendTx tx c2) = Ok tt).
Proof.
  intros Hidle Hstop Hle Hlast c1 c2.
  destruct (start_idle latest c Hidle)
    as (c' & E & St & Pr & Rs & Lt & Nm & Pl & Sg & Rp & Dl).
  assert (Hleb : (currentL2BlockNum c + 1 <=? latest) = true) by (apply Z.leb_le; lia).
  rewrite Hleb in St, Pr, Rs. rewrite Hstop in Rp.
  subst c1 c2. rewrite E. simpl.
  split.
  { rewrite Pr, St, Dl. split_and!; try done.
    unfold sendTx, isReady, bind, get, ret, throw. simpl. by rewrite St. }
  unfold blockProcessIteration. rewrite run_bind_get, Rp, Sg, Hstop.
  destruct (handleL2Blocks_spec blocks lastBlock c' Hlast)
    as (c2 & E2 & N2 & _ & _ & _ & St2).
  (* the promise and the target after the batch *)
  assert (Hrest : latestBlockNumberAtStart c2 = latest ∧
    syncPromise c2 = (if latest <=? number lastBlock then Resolved else Pending)).
  { clear St2. revert E2. unfold handleL2Blocks. rewrite Hlast.
    destruct (reconcileTxPool_spec blocks c') as (c3 & E3 & S3 & _).
    unfold bind, get, modify, logMsg, setCurrentState, bind, modify, ret.
    rewrite E3. simpl. destruct S3 as (_ & _ & _ & _ & St3 & Pr3 & Lt3 & Rs3).
    rewrite St3, Lt3, Rs3, St, Rs, Lt. simpl.
    destruct (latest <=? number lastBlock); simpl; intros [= <-]; simpl;
      rewrite ?Pr3, ?Lt3; by split. }
  rewrite E2. simpl. rewrite St, Lt in St2. simpl in St2.
  destruct Hrest as [Lt2 Pr2].
  split; [done|]. split; [done|].
  unfold sendTx, isReady, bind, get, ret, throw, modify. simpl.
  split; intros Hcmp.
  - assert ((latest <=? number lastBlock) = false) as Hf by (apply Z.leb_gt; lia).
    rewrite Hf in St2, Pr2. by rewrite St2, Pr2.
  - assert ((latest <=? number lastBlock) = true) as Ht by (apply Z.leb_le; lia).
    rewrite Ht in St2, Pr2. by rewrite St2, Pr2.
Qed.

Lemma blockProcessIteration_state (blocks : list L2Block) (c : P2PClient) :
  currentState (snd (blockProcessIteration blocks c)) = currentState c ∨
  (currentState c = SYNCHING ∧
   currentState (snd (blockProcessIteration blocks c)) = RUNNING).
Proof.
  unfold blockProcessIteration. rewrite run_bind_get.
  destruct (runningPromise c) as [[|]|]; simpl; try by left.
  destruct (stopping c); simpl; [by left|].
  destruct (last blocks) as [b|] eqn:Hl.
  - destruct (handleL2Blocks_spec blocks b c Hl) as (c' & E & _ & _ & _ & _ & St).
    rewrite E. simpl. rewrite St.
    case_bool_decide as Hs; simpl; [|by left].
    destruct (_ <=? _); [by right|by left].
  - rewrite handleL2Blocks_empty by done. by left.
Qed.

(** No call and no iteration of the block loop takes the state back, as
    long as nothing overlaps the call. *)
Lemma step_forward (c : P2PClient) (o : Op) :
  (rank (currentState c) ≤ rank (currentState (step c o)))%nat.
Proof.
  destruct o; simpl; try lia.
  - destruct (decide (currentState c = STOPPED)) as [Hs|Hs];
      [rewrite start_stopped by done; simpl; lia|].
    destruct (decide (currentState c = IDLE)) as [Hi|Hi].
    + destruct (start_idle latestBlockNum c Hi) as (c' & E & St & _).
      rewrite E. simpl. rewrite St, Hi. case_match; simpl; lia.
    + rewrite start_not_idle by done. simpl. lia.
  - destruct (stop_stopped inflight c) as (c' & E & St).
    rewrite E. simpl. rewrite St. destruct (currentState c); simpl; lia.
  - unfold sendTx, isReady, bind, get, ret, throw, modify. simpl.
    case_bool_decide; simpl; lia.
  - destruct (blockProcessIteration_state blocks c) as [->|[-> ->]]; simpl; lia.
Qed.

(** [stop()] ends the block loop. *)
Lemma stop_ends_loop (inflight : list L2Block) (c : P2PClient) :
  currentState (snd (stop inflight c)) = STOPPED ∧
  runningPromise (snd (stop inflight c)) ≠ Some Pending.
Proof.
  unfold stop, bind, get, modify, logMsg, setCurrentState, bind, modify, ret.
  simpl. destruct (runningPromise c) as [[|]|] eqn:Hr; simpl; rewrite ?Hr;
    try done.
  match goal with |- context [handleL2Blocks inflight ?c0] =>
    destruct (last inflight) as [b|] eqn:Hl;
    [ destruct (handleL2Blocks_spec inflight b c0 Hl) as (c1 & E & _)
    | pose proof (handleL2Blocks_empty inflight c0 Hl) as E ]
  end; rewrite E; by simpl.
Qed.

(** A call on a stopped client whose block loop has ended, with nothing
    overlapping it, changes neither the pool, nor the synced block number,
    nor the promise. *)
Lemma step_frozen (o : Op) (c : P2PClient) :
  currentState c = STOPPED →
  runningPromise c ≠ Some Pending →
  currentState (step c o) = STOPPED ∧
  runningPromise (step c o) ≠ Some Pending ∧
  txPool (step c o) = txPool c ∧
  currentL2BlockNum (step c o) = currentL2BlockNum c ∧
  syncPromise (step c o) = syncPromise c.
Proof.
  intros Hs Hr. destruct o; simpl.
  - by rewrite start_stopped.
  - unfold stop, bind, get, modify, logMsg, setCurrentState, bind, modify, ret.
    simpl. destruct (runningPromise c) as [[|]|]; simpl; done.
  - unfold sendTx, isReady, bind, get, ret, throw. simpl. by rewrite Hs.
  - done.
  - done.
  - done.
  - done.
  - unfold blockProcessIteration. rewrite run_bind_get.
    destruct (runningPromise c) as [[|]|] eqn:Hr'; simpl; rewrite ?Hr'; done.
Qed.

(** X5. Two batches handled one after the other leave the pool and the
    synced block number as the two handled as one batch do. *)
Theorem handleL2Blocks_in_two_batches (c : P2PClient) (first second : list L2Block) :
  let together := snd (handleL2Blocks (first ++ second) c) in
  let apart := snd (handleL2Blocks second (snd (handleL2Blocks first c))) in
  txPool apart = txPool together ∧
  currentL2BlockNum apart = currentL2BlockNum together.
Proof.
  intros together apart. subst together apart.
  destruct (last first) as [b1|] eqn:Hl1.
  2:{ apply last_None in Hl1. subst first. by rewrite handleL2Blocks_nil. }
  destruct (handleL2Blocks_spec first b1 c Hl1) as (c1 & E1 & N1 & P1 & _).
  rewrite E1. simpl.
  destruct (last second) as [b2|] eqn:Hl2.
  2:{ apply last_None in Hl2. subst second.
      by rewrite handleL2Blocks_nil, app_nil_r, E1. }
  destruct (handleL2Blocks_spec second b2 c1 Hl2) as (c2 & E2 & N2 & P2 & _).
  assert (Hl : last (first ++ second) = Some b2) by (by rewrite last_app, Hl2).
  destruct (handleL2Blocks_spec _ b2 c Hl) as (c3 & E3 & N3 & P3 & _).
  rewrite E2, E3. simpl. rewrite N2, N3, P2, P3, P1.
  unfold reconciled. by rewrite foldl_app.
Qed.

(** X6. Reconciling only removes, and removes every transaction of the
    batch: for a pool from which [deleteTxs] removes at least the
    transactions it is given and adds none, a transaction that the pool
    holds after [handleL2Blocks] was in the pool before and is in no block
    of the batch. [holds] says which transactions a pool holds. *)
Theorem handleL2Blocks_removes_block_txs (holds : TxId → TxPool → Prop)
    (c : P2PClient) (blocks : list L2Block) (id : TxId) :
  (∀ ids pool id, holds id (deleteTxs ids pool) → holds id pool ∧ id ∉ ids) →
  holds id (txPool (snd (handleL2Blocks blocks c))) →
  holds id (txPool c) ∧ ∀ b, b ∈ blocks → id ∉ createTxIds b.
Proof.
  intros Hdel Hheld.
  assert (Hrec : ∀ bs pool, holds id (reconciled bs pool) →
            holds id pool ∧ ∀ b, b ∈ bs → id ∉ createTxIds b).
  { clear -Hdel. unfold reconciled.
    induction bs as [|b bs IH]; intros pool Hh; simpl in *.
    - split; [done|]. intros b Hb. by apply elem_of_nil in Hb.
    - apply IH in Hh as [Hh Hbs]. apply Hdel in Hh as [Hh Hb].
      split; [done|]. intros b' [->|Hin]%elem_of_cons; [done|by apply Hbs]. }
  destruct (last blocks) as [b|] eqn:Hl.
  - destruct (handleL2Blocks_spec blocks b c Hl) as (c' & E & _ & P & _).
    rewrite E in Hheld. simpl in Hheld. rewrite P in Hheld. by apply Hrec.
  - apply last_None in Hl. subst blocks. rewrite handleL2Blocks_nil in Hheld.
    split; [done|]. intros b Hb. by apply elem_of_nil in Hb.
Qed.

(** X7. Whatever is called on a client since it was created: while it is
    [IDLE] nothing has happened to it; while it is [SYNCHING] the promise
    [start] returned is pending and the synced block number is below the
    number it syncs to; once it is [RUNNING] that promise is resolved; and
    once it is [STOPPED] its block loop has ended. *)
Theorem client_is_consistent (pool : TxPool) (ops : list Op) :
  consistent pool (run (new pool) ops).
Proof.
  assert (Hnew : consistent pool (new pool)) by done.
  revert Hnew. unfold run. generalize (new pool).
  induction ops as [|o ops IH]; intros c Hc; simpl; [done|].
  apply IH. clear IH ops. unfold consistent in *.
  destruct o; simpl.
  - destruct (decide (currentState c = STOPPED)) as [Hs|Hs];
      [by rewrite start_stopped|].
    destruct (decide (currentState c = IDLE)) as [Hi|Hi].
    + destruct (start_idle latestBlockNum c Hi)
        as (c' & E & St & Pr & Rs & Lt & Nm & _).
      rewrite E. simpl. rewrite St.
      destruct (Z.leb_spec (currentL2BlockNum c + 1) latestBlockNum);
        rewrite ?Pr, ?Rs, ?Lt, ?Nm; [split_and!; try done; lia|done].
    + by rewrite start_not_idle.
  - unfold stop, bind, get, modify, logMsg, setCurrentState, bind, modify, ret.
    simpl. destruct (runningPromise c) as [[|]|] eqn:Hr; simpl; rewrite ?Hr;
      try done.
    match goal with |- context [handleL2Blocks inflight ?c0] =>
      destruct (last inflight) as [b|] eqn:Hl;
      [ destruct (handleL2Blocks_spec inflight b c0 Hl)
          as (c1 & E & _ & _ & Sg & _)
      | pose proof (handleL2Blocks_empty inflight c0 Hl) as E ]
    end; rewrite E; simpl; [by rewrite Sg|done].
  - unfold sendTx, isReady, bind, get, ret, throw, modify. simpl.
    case_bool_decide as Hrun; simpl; [by rewrite Hrun in *|done].
  - done.
  - done.
  - done.
  - done.
  - unfold blockProcessIteration. rewrite run_bind_get.
    destruct (runningPromise c) as [[|]|] eqn:Hr;
      [|simpl; by rewrite ?Hr..].
    destruct (stopping c) eqn:Hst.
    { simpl. destruct (currentState c); try done. by subst c. }
    destruct (last blocks) as [b|] eqn:Hl;
      [|rewrite handleL2Blocks_empty by done; simpl; by rewrite ?Hr, ?Hst].
    destruct (currentState c) eqn:Hs.
    + by subst c.
    + destruct Hc as (Hp & Hres & Hlt).
      (* the promise is resolved through the stored resolver *)
      unfold handleL2Blocks. rewrite Hl.
      destruct (reconcileTxPool_spec blocks c) as (c3 & E3 & S3 & _).
      unfold bind, get, modify, logMsg, setCurrentState, bind, modify, ret.
      rewrite E3. simpl. destruct S3 as (_ & _ & _ & _ & St3 & Pr3 & Lt3 & Rs3).
      rewrite St3, Lt3, Rs3, Hs, Hres. simpl.
      destruct (Z.leb_spec (latestBlockNumberAtStart c) (number b)); simpl.
      * done.
      * rewrite ?Pr3, ?Rs3, ?Lt3. split_and!; [done|done|lia].
    + destruct (handleL2Blocks_spec blocks b c Hl)
        as (c1 & E & _ & _ & _ & _ & St).
      rewrite E. simpl. rewrite St, Hs. simpl.
      unfold handleL2Blocks in E. rewrite Hl in E.
      destruct (reconcileTxPool_spec blocks c) as (c3 & E3 & S3 & _).
      revert E.
      unfold bind, get, modify, logMsg, setCurrentState, bind, modify, ret.
      rewrite E3. simpl. destruct S3 as (_ & _ & _ & _ & St3 & Pr3 & _).
      rewrite St3, Hs. simpl. intros [= <-]. simpl. by rewrite Pr3.
    + destruct Hc as [Hc _]. congruence.
Qed.

End P2PMore.

(** * Calls of the P2P client that overlap *)

Section Overlap.
Context `{P2P.Collaborators}.
Import P2P.

Lemma startCalled_spec (c : P2PClient) :
  startCalled c =
    (if bool_decide (currentState c = STOPPED) then Err AlreadyStopped
     else if bool_decide (currentState c ≠ IDLE) then Ok (Some (syncPromise c))
     else Ok None, c).
Proof.
  unfold startCalled. rewrite run_bind_get. by repeat case_bool_decide.
Qed.

(** [start] is its two halves with nothing in between. *)
Lemma start_unoverlapped (latest : Z) (c : P2PClient) :
  start latest c
  = bind startCalled
      (λ r, match r with
            | Some promise => ret promise
            | None => startResumed latest
            end) c.
Proof.
  rewrite run_bind, startCalled_spec. unfold start. rewrite run_bind_get.
  by repeat case_bool_decide.
Qed.

(** A call of [start] or [sendTx] that nothing overlaps is its two halves,
    one right after the other. *)
Lemma call_start_halves (s : Overlapped) (latest : Z) :
  startsAwaiting s = 0%nat →
  occur s (Call (OpStart latest))
  = occurAll s [StartCalled; StartResumed latest].
Proof.
  intros Hn. destruct s as [c starts sends loops]. simpl in Hn. subst starts.
  unfold occurAll. cbn [foldl]. unfold occur. simpl.
  rewrite start_unoverlapped, run_bind, !startCalled_spec. simpl.
  repeat case_bool_decide; try done; simpl; congruence.
Qed.

Lemma call_sendTx_halves (s : Overlapped) (tx : Tx) :
  sendsAwaiting s = [] →
  occur s (Call (OpSendTx tx)) = occurAll s [SendTxCalled tx; SendTxResumed].
Proof.
  intros Hn. destruct s as [c starts sends loops]. simpl in Hn. subst sends.
  done.
Qed.

Lemma startResumed_state (latest : Z) (c : P2PClient) :
  currentState (snd (startResumed latest c))
  = (if currentL2BlockNum c + 1 <=? latest then SYNCHING else RUNNING).
Proof.
  unfold startResumed, bind, get, modify, logMsg, setCurrentState, bind,
    modify, ret. simpl.
  by destruct (currentL2BlockNum c + 1 <=? latest).
Qed.

Lemma sendTxResumed_control (tx : Tx) (ready : bool) (c : P2PClient) :
  sameControl c (snd (sendTxResumed tx ready c)).
Proof. unfold sendTxResumed, sameControl. by destruct ready. Qed.

Lemma handleL2Blocks_forward (blocks : list L2Block) (c : P2PClient) :
  currentState (snd (handleL2Blocks blocks c)) = currentState c ∨
  (currentState c = SYNCHING ∧
   currentState (snd (handleL2Blocks blocks c)) = RUNNING).
Proof.
  destruct (last blocks) as [b|] eqn:Hl.
  - destruct (handleL2Blocks_spec blocks b c Hl) as (c' & E & _ & _ & _ & _ & St).
    rewrite E. simpl. rewrite St.
    case_bool_decide as Hs; simpl; [|by left].
    destruct (_ <=? _); [by right|by left].
  - rewrite handleL2Blocks_empty by done. by left.
Qed.

(** Whatever happens, but for a [start] that resumes in a client that is
    no longer idle, the state does not go back. *)
Lemma occur_forward (s : Overlapped) (e : Event) :
  (∀ latest, e = StartResumed latest →
     startsAwaiting s ≠ 0%nat → currentState (client s) = IDLE) →
  (rank (currentState (client s))
   ≤ rank (currentState (client (occur s e))))%nat.
Proof.
  intros Hidle. destruct e; simpl.
  - apply step_forward.
  - by rewrite startCalled_spec.
  - destruct (startsAwaiting s) as [|n] eqn:Hn; [done|]. simpl.
    rewrite startResumed_state, (Hidle _ eq_refl) by done.
    simpl. lia.
  - done.
  - destruct (sendsAwaiting s) as [|[tx ready] rest]; [done|]. simpl.
    destruct (sendTxResumed_control tx ready (client s))
      as (_ & _ & _ & _ & -> & _). done.
  - destruct (strayLoops s); [done|]. simpl.
    destruct (handleL2Blocks_forward blocks (client s)) as [->|[-> ->]];
      simpl; lia.
Qed.


(** After [stop()], with no [start] suspended, the client is stopped for
    good. *)
Lemma occur_stopped (s : Overlapped) (e : Event) :
  currentState (client s) = STOPPED → startsAwaiting s = 0%nat →
  currentState (client (occur s e)) = STOPPED ∧
  startsAwaiting (occur s e) = 0%nat.
Proof.
  intros Hs Hn. destruct e; simpl.
  - split; [by apply step_stopped|done].
  - rewrite startCalled_spec. simpl. by rewrite bool_decide_eq_true_2.
  - by rewrite Hn.
  - done.
  - destruct (sendsAwaiting s) as [|[tx ready] rest]; [done|]. simpl.
    destruct (sendTxResumed_control tx ready (client s))
      as (_ & _ & _ & _ & -> & _). done.
  - destruct (strayLoops s); [done|]. simpl.
    split; [by apply handleL2Blocks_stopped|done].
Qed.

(** X19. Once [stop()] has completed with no call of [start] suspended at
    its [await], the client is stopped for good: whatever happens
    afterwards, calls that overlap included, and however often it is
    retried, [start()] throws the already-stopped error, at its first
    guard, and leaves the client as it is. *)
Theorem start_fails_once_stopped (s : Overlapped) (inflight : list L2Block)
    (later : list Event) (latest : Z) :
  startsAwaiting s = 0%nat →
  let stopped := occur s (Call (OpStop inflight)) in
  let c := client (occurAll stopped later) in
  currentState c = STOPPED ∧
  startCalled c = (Err AlreadyStopped, c) ∧
  start latest c = (Err AlreadyStopped, c).
Proof.
  intros Hn stopped c.
  assert (Hstopped : currentState (client stopped) = STOPPED ∧
                     startsAwaiting stopped = 0%nat).
  { subst stopped. simpl. split; [|done].
    destruct (stop_stopped inflight (client s)) as (c' & E & St).
    by rewrite E. }
  assert (Hc : currentState c = STOPPED).
  { subst c. destruct Hstopped as [Hs Hz]. revert Hs Hz.
    generalize stopped. clear stopped.
    induction later as [|e later IH]; intros t Hs Hz; simpl; [done|].
    destruct (occur_stopped t e Hs Hz) as [Hs' Hz']. by apply IH. }
  split; [done|]. split; [|by apply start_stopped].
  rewrite startCalled_spec. by rewrite bool_decide_eq_true_2.
Qed.


(** X3. The state of a client moves forward only, in the order [IDLE],
    [SYNCHING], [RUNNING], [STOPPED], as long as every call of [start]
    that resumes after its [await] finds the client still idle: then no
    call, no iteration of a block loop and no resumption takes the state
    back, so however a course of events is continued that way, the client
    is at least as far as it was. *)
Theorem state_only_moves_forward (s : Overlapped) (events more : list Event) :
  resumedWhileIdle (occurAll s events) more →
  (rank (currentState (client (occurAll s events)))
   ≤ rank (currentState (client (occurAll s (events ++ more)))))%nat.
Proof.
  intros Hidle.
  unfold occurAll in *. rewrite foldl_app.
  revert Hidle. generalize (foldl occur s events). clear s events.
  induction more as [|e more IH]; intros s Hidle; simpl; [lia|].
  destruct Hidle as [He Hmore].
  etrans; [|by apply IH].
  apply occur_forward. intros latest ->. exact He.
Qed.

(** X4. A stopped client is frozen, if nothing was in flight when it
    stopped. When [stop()] completes with no call of [start] suspended, no
    call of [sendTx] suspended that had found the client ready, and no
    stray block loop, then whatever happens afterwards, calls that overlap
    included, the pool, the synced block number, the promise and the state
    stay as [stop] left them. *)
Theorem stopped_client_is_frozen (s : Overlapped) (inflight : list L2Block)
    (later : list Event) :
  startsAwaiting s = 0%nat →
  Forall (λ sent, snd sent = false) (sendsAwaiting s) →
  strayLoops s = 0%nat →
  let stopped := client (occur s (Call (OpStop inflight))) in
  let c := client (occurAll (occur s (Call (OpStop inflight))) later) in
  currentState c = STOPPED ∧
  txPool c = txPool stopped ∧
  currentL2BlockNum c = currentL2BlockNum stopped ∧
  syncPromise c = syncPromise stopped ∧
  getTxs c = (Ok (getAllTxs (txPool stopped)), c).
Proof.
  intros Hstarts Hsends Hloops stopped c.
  set (frozen := λ t : Overlapped,
         currentState (client t) = STOPPED ∧
         runningPromise (client t) ≠ Some Pending ∧
         startsAwaiting t = 0%nat ∧
         Forall (λ sent, snd sent = false) (sendsAwaiting t) ∧
         strayLoops t = 0%nat).
  assert (Hstep : ∀ t e, frozen t →
            frozen (occur t e) ∧
            txPool (client (occur t e)) = txPool (client t) ∧
            currentL2BlockNum (client (occur t e)) = currentL2BlockNum (client t) ∧
            syncPromise (client (occur t e)) = syncPromise (client t)).
  { intros t e (Hs & Hr & Hn & Hf & Hl). unfold frozen. destruct e; simpl.
    - destruct (step_frozen o (client t) Hs Hr) as (Hs' & Hr' & Hp & Hb & Hq).
      split_and!; try done.
      destruct o; try done. by rewrite bool_decide_eq_false_2 by (by rewrite Hs).
    - rewrite startCalled_spec. simpl.
      rewrite bool_decide_eq_true_2 by done. by split_and!.
    - rewrite Hn. by split_and!.
    - split_and!; try done.
      apply Forall_app_2; [done|]. apply Forall_singleton. simpl.
      by rewrite bool_decide_eq_false_2 by (by rewrite Hs).
    - destruct (sendsAwaiting t) as [|[tx ready] rest] eqn:Hq;
        [rewrite Hq; by split_and!|].
      apply Forall_cons in Hf as [Hready Hrest]. simpl in Hready. subst ready.
      simpl. by split_and!.
    - rewrite Hl. by split_and!. }
  assert (Hstopped : frozen (occur s (Call (OpStop inflight)))).
  { unfold frozen. simpl.
    destruct (stop_ends_loop inflight (client s)) as [Hs Hr].
    by split_and!. }
  assert (Hrun : currentState c = STOPPED ∧
            txPool c = txPool stopped ∧
            currentL2BlockNum c = currentL2BlockNum stopped ∧
            syncPromise c = syncPromise stopped).
  { subst c stopped. revert Hstopped.
    generalize (occur s (Call (OpStop inflight))).
    induction later as [|e later IH]; intros t Hfrozen; simpl.
    - by destruct Hfrozen.
    - destruct (Hstep t e Hfrozen) as (Hfrozen' & <- & <- & <-).
      by apply IH. }
  destruct Hrun as (Hs & Hp & Hn & Hq).
  split_and!; try done.
  unfold getTxs. rewrite run_bind_get. unfold ret. by rewrite Hp.
Qed.

End Overlap.

(** * More on the note processor *)

Section MonadMore.
Context {S : Type}.

(** A loop keeps what its body keeps of the state and the accumulator. *)
Lemma foldM_invariant {A B} (I : S → B → Prop) (body : B → A → M S B) (xs : list A) :
  (∀ b x s b' s', x ∈ xs → body b x s = (Ok b', s') → I s b → I s' b') →
  ∀ b s b' s', foldM body xs b s = (Ok b', s') → I s b → I s' b'.
Proof.
  induction xs as [|x xs IH]; intros Hbody b s b' s' Hrun Hi; simpl in Hrun.
  - unfold ret in Hrun. by simplify_eq.
  - rewrite run_bind in Hrun.
    destruct (body b x s) as [[b1|e] s1] eqn:Hb; [|done].
    eapply IH; [|exact Hrun|].
    + intros ??????. eapply Hbody; [by right|done..].
    + eapply Hbody; [by left|done..].
Qed.

(** A loop whose body returns the accumulator as it is returns it as it is. *)
Lemma foldM_skip (R : relation S) `{!PreOrder R} {A B}
    (body : B → A → M S B) (xs : list A) (b : B) :
  (∀ x s, x ∈ xs → ∃ s', body b x s = (Ok b, s') ∧ R s s') →
  ∀ s, ∃ s', foldM body xs b s = (Ok b, s') ∧ R s s'.
Proof.
  induction xs as [|x xs IH]; intros Hbody s; simpl.
  - by exists s.
  - destruct (Hbody x s) as (s1 & E1 & R1); [by left|].
    destruct (IH (λ y t Hy, Hbody y t (list_elem_of_further _ _ _ Hy)) s1)
      as (s2 & E2 & R2).
    exists s2. rewrite run_bind, E1. split; [done|by etrans].
Qed.

End MonadMore.

Section ProcessorMore.
Context `{PXE.Collaborators} {Db Sim : Type}
  `{!PXE.PxeDatabase Db} `{!PXE.AcirSimulator Sim}.
Import PXE.

Local Abbreviation NP := (NoteProcessor Db Sim).

Global Instance sameButStats_preorder : PreOrder (sameButStats (Db := Db) (Sim := Sim)).
Proof.
  split.
  - intros p. by unfold sameButStats.
  - intros p q r Hpq Hqr. unfold sameButStats in *. destruct_and!.
    split_and!; congruence.
Qed.

(** *** The counters and the arrays *)

Lemma recordNoteDaos_surplus daos l (p : NP) :
  ∃ l' p', recordNoteDaos daos l p = (Ok l', p') ∧
           surplus p' l' = surplus p l ∧ sameButStats p p'.
Proof.
  unfold recordNoteDaos, bind, bump, modify, ret, surplus, sameButStats.
  destruct (incomingNote daos), (outgoingNote daos), (incomingDeferredNote daos);
    simpl; eexists _, _; (split; [reflexivity|]); simpl;
    rewrite ?length_app; simpl;
    (split; [repeat match goal with |- (_, _) = (_, _) => f_equal end; lia|done]).
Qed.

Lemma processLog_surplus ivsk ovsk effect start acc log (p p' : NP) acc' :
  processLog ivsk ovsk effect start acc log p = (Ok acc', p') →
  surplus p' (fst acc') = surplus p (fst acc).
Proof.
  unfold processLog. rewrite run_bind. simpl. rewrite run_bind_get.
  assert (Hproduce : ∀ ivpk ovpk payload (q : NP),
    bind (callProduceNoteDaos ivpk ovpk payload (txHash effect)
            (noteHashes effect) start (snd acc))
         (λ '(daos, excludedIndices),
            bind (recordNoteDaos daos (fst acc))
                 (λ l, ret (l, excludedIndices))) q = (Ok acc', p') →
    surplus p' (fst acc') = surplus q (fst acc)).
  { intros ivpk ovpk payload q. rewrite run_bind. unfold callProduceNoteDaos.
    destruct (produceNoteDaos _ _ _ _ _ _ _ _) as [[daos ex] sim].
    rewrite run_bind.
    destruct (recordNoteDaos_surplus daos (fst acc) (set_simulator sim q))
      as (l' & q' & E & Hs & _).
    rewrite E. unfold ret. intros [= <- <-]. simpl. by rewrite Hs. }
  destruct (decryptAsIncoming _ _) as [i|], (decryptAsOutgoing _ _) as [o|];
    [case_bool_decide; [done|]|..];
    try (intros Hrun; by apply Hproduce in Hrun).
  unfold ret. by intros [= <- <-].
Qed.

Lemma txLoop_surplus ivsk ovsk blk start rest :
  ∀ i l (p p' : NP) l',
    txLoop ivsk ovsk blk start i rest l p = (Ok l', p') →
    surplus p' l' = surplus p l.
Proof.
  induction rest as [|tx rest IH]; intros i l p p' l' Hrun; simpl in Hrun.
  - unfold ret in Hrun. by simplify_eq.
  - rewrite run_bind in Hrun. simpl in Hrun.
    destruct (txEffects (body blk) !! i) as [effect|]; [|done].
    rewrite run_bind in Hrun.
    destruct (processTxLogs _ _ _ _ _ _ _) as [[acc|e] p1] eqn:Hlogs; [|done].
    apply IH in Hrun. rewrite Hrun.
    unfold processTxLogs in Hlogs.
    apply (foldM_invariant
             (λ q a, surplus q (fst a) = surplus p l)) in Hlogs; [done| |done].
    intros a fl q a' q' _ Hfl Hq.
    apply (foldM_invariant
             (λ q a, surplus q (fst a) = surplus p l)) in Hfl; [done| |done].
    intros a1 log q1 a2 q2 _ Hlog Hq1.
    apply processLog_surplus in Hlog. by rewrite Hlog.
Qed.

Lemma blockLoop_surplus ivsk ovsk bs rest :
  ∀ k acc (p p' : NP) acc',
    blockLoop ivsk ovsk bs k rest acc p = (Ok acc', p') →
    decryptedIncoming (stats p')
      - Z.of_nat (length (fst acc' ≫= ProcessedData.incomingNotes))
    = decryptedIncoming (stats p)
      - Z.of_nat (length (fst acc ≫= ProcessedData.incomingNotes)) ∧
    decryptedOutgoing (stats p')
      - Z.of_nat (length (fst acc' ≫= ProcessedData.outgoingNotes))
    = decryptedOutgoing (stats p)
      - Z.of_nat (length (fst acc ≫= ProcessedData.outgoingNotes)) ∧
    deferred (stats p') - Z.of_nat (length (snd acc'))
    = deferred (stats p) - Z.of_nat (length (snd acc)).
Proof.
  induction rest as [|batch rest IH]; intros k acc p p' acc' Hrun; simpl in Hrun.
  - unfold ret in Hrun. by simplify_eq.
  - rewrite run_bind in Hrun. simpl in Hrun.
    destruct (bs !! k) as [blk|]; [|done].
    rewrite run_bind in Hrun.
    destruct (txLoop _ _ _ _ _ _ _ _) as [[l|e] p1] eqn:Htx; [|done].
    apply IH in Hrun as (Hi & Ho & Hd). apply txLoop_surplus in Htx.
    unfold surplus in Htx. injection Htx as Hi' Ho' Hd'.
    cbn [fst snd] in Hi, Ho, Hd.
    rewrite bind_app, bind_cons, !length_app in Hi.
    rewrite bind_app, bind_cons, !length_app in Ho.
    cbn [ProcessedData.incomingNotes ProcessedData.outgoingNotes
         incomingNotes outgoingNotes deferredNoteDaosIncoming length] in *.
    change (length ([] ≫= ProcessedData.incomingNotes)) with 0%nat in Hi.
    change (length ([] ≫= ProcessedData.outgoingNotes)) with 0%nat in Ho.
    split_and!; lia.
Qed.

(** X9. The statistics count what is persisted: in a call of [process] that
    returns, the counters [decryptedIncoming], [decryptedOutgoing] and
    [deferred] grow by the numbers of incoming, outgoing and deferred notes
    the call collected (the ones it hands to the database). *)
Theorem process_counts_its_notes (p p' p1 : NP) l2Blocks batches
    blocksAndNotes deferredNotes :
  process l2Blocks batches p = (Ok tt, p') →
  collect l2Blocks batches p = (Ok (blocksAndNotes, deferredNotes), p1) →
  decryptedIncoming (stats p') =
    decryptedIncoming (stats p)
    + Z.of_nat (length (blocksAndNotes ≫= ProcessedData.incomingNotes)) ∧
  decryptedOutgoing (stats p') =
    decryptedOutgoing (stats p)
    + Z.of_nat (length (blocksAndNotes ≫= ProcessedData.outgoingNotes)) ∧
  deferred (stats p') = deferred (stats p) + Z.of_nat (length deferredNotes).
Proof.
  intros Hp Hcol.
  destruct (decide (length l2Blocks = length batches)) as [Hlen|Hlen];
    [|by rewrite process_mismatch in Hp].
  destruct (last l2Blocks) as [lastBlock|] eqn:Hlast.
  2:{ apply last_None in Hlast. subst l2Blocks. destruct batches; [|done].
      rewrite process_empty in Hp. unfold collect in Hcol.
      rewrite run_bind_get in Hcol. simpl in Hcol. unfold ret in Hcol.
      simplify_eq. simpl. lia. }
  rewrite (process_nonempty _ _ _ _ Hlen Hlast), Hcol in Hp.
  assert (Hstats : stats p' = stats p1).
  { unfold processBlocksAndNotes, processDeferredNotes, bind, modify, ret in Hp.
    repeat case_bool_decide; by simplify_eq. }
  unfold collect in Hcol. rewrite run_bind_get in Hcol.
  apply blockLoop_surplus in Hcol as (Hi & Ho & Hd). simpl in *.
  rewrite Hstats. lia.
Qed.

(** *** Logs that are not for the account *)

Lemma processLog_notForAccount ivsk ovsk effect start acc log (p : NP) :
  notForAccount ivsk ovsk log →
  ∃ p', processLog ivsk ovsk effect start acc log p = (Ok acc, p') ∧
        sameButStats p p'.
Proof.
  intros [Hi Ho]. unfold processLog. rewrite run_bind. simpl.
  rewrite run_bind_get, Hi, Ho. eexists. split; [reflexivity|].
  by unfold sameButStats.
Qed.

Lemma txLoop_notForAccount ivsk ovsk blk start rest :
  ∀ i l (p : NP),
    (i + length rest ≤ length (txEffects (body blk)))%nat →
    Forall (notForAccount ivsk ovsk) (rest ≫= (λ tx, functionLogs tx ≫= logs)) →
    ∃ p', txLoop ivsk ovsk blk start i rest l p = (Ok l, p') ∧ sameButStats p p'.
Proof.
  induction rest as [|tx rest IH]; intros i l p Hlen Hnot; simpl in Hlen |- *.
  - by exists p.
  - rewrite bind_cons in Hnot. apply Forall_app in Hnot as [Htx Hrest].
    rewrite run_bind. simpl.
    destruct (txEffects (body blk) !! i) as [effect|] eqn:Hi.
    2:{ apply lookup_ge_None in Hi. lia. }
    rewrite run_bind. unfold processTxLogs.
    destruct (foldM_skip sameButStats
      (λ acc fl, foldM (processLog ivsk ovsk effect
         (start + Z.of_nat i * MAX_NEW_NOTE_HASHES_PER_TX)) (logs fl) acc)
      (functionLogs tx) (l, ∅)) with (s := set_stats (incr_txs (stats p)) p)
      as (p1 & E1 & R1).
    { intros fl q Hfl. apply foldM_skip; [apply _|].
      intros log q' Hlog. apply processLog_notForAccount.
      rewrite Forall_forall in Htx. apply Htx.
      apply list_elem_of_bind. by exists fl. }
    rewrite E1. simpl.
    destruct (IH (Datatypes.S i) l p1) as (p2 & E2 & R2); [lia|done|].
    exists p2. split; [done|]. etrans; [|exact R2]. etrans; [|exact R1].
    by unfold sameButStats.
Qed.

Lemma blockLoop_notForAccount ivsk ovsk bs rest :
  ∀ k acc (p : NP),
    aligned (drop k bs) rest →
    Forall (notForAccount ivsk ovsk) (rest ≫= logsOf) →
    ∃ p', blockLoop ivsk ovsk bs k rest acc p
            = (Ok (fst acc ++ withoutNotes (drop k bs), snd acc), p') ∧
          sameButStats p p'.
Proof.
  induction rest as [|batch rest IH]; intros k acc p Hal Hnot; simpl.
  - unfold aligned in Hal. apply Forall2_nil_inv_r in Hal. rewrite Hal.
    exists p. unfold ret, withoutNotes. simpl. rewrite app_nil_r.
    by destruct acc.
  - rewrite bind_cons in Hnot. apply Forall_app in Hnot as [Hb Hrest].
    unfold aligned in Hal.
    destruct (drop k bs) as [|blk bs'] eqn:Hdrop; inversion Hal; subst.
    assert (Hk : bs !! k = Some blk).
    { rewrite <- (Nat.add_0_r k), <- lookup_drop, Hdrop. done. }
    rewrite run_bind. simpl. rewrite Hk, run_bind.
    match goal with |- context [txLoop ivsk ovsk blk ?st 0 ?r ?l0 ?q] =>
      destruct (txLoop_notForAccount ivsk ovsk blk st r 0 l0 q)
        as (p1 & E1 & R1); [simpl; lia|exact Hb|]
    end.
    rewrite E1. simpl.
    assert (Hdrop' : drop (Datatypes.S k) bs = bs').
    { replace (Datatypes.S k) with (k + 1)%nat by lia.
      by rewrite <- drop_drop, Hdrop. }
    match goal with |- context [blockLoop ivsk ovsk bs _ rest ?a p1] =>
      destruct (IH (Datatypes.S k) a p1) as (p2 & E2 & R2);
        [by rewrite Hdrop'|done|]
    end.
    exists p2. rewrite E2, Hdrop'. simpl. rewrite <- app_assoc. simpl.
    split; [done|]. etrans; [|exact R2]. etrans; [|exact R1].
    by unfold sameButStats.
Qed.

Lemma withoutNotes_incoming l2Blocks :
  withoutNotes l2Blocks ≫= ProcessedData.incomingNotes = [].
Proof.
  induction l2Blocks as [|b bs IH]; [done|].
  unfold withoutNotes in *. cbn [map]. by rewrite bind_cons, IH.
Qed.

Lemma withoutNotes_outgoing l2Blocks :
  withoutNotes l2Blocks ≫= ProcessedData.outgoingNotes = [].
Proof.
  induction l2Blocks as [|b bs IH]; [done|].
  unfold withoutNotes in *. cbn [map]. by rewrite bind_cons, IH.
Qed.

(** X10. A batch none of whose logs is for the account is no error: if the
    blocks come with their log batches and no log decrypts, as incoming or
    as outgoing, [process] returns, without a call of the simulator; it
    adds no note and no deferred note, and only removes the notes the
    batch nullifies and sets the synced block to the last block's number. *)
Theorem process_nothing_for_account (p : NP) l2Blocks batches lastBlock :
  aligned l2Blocks batches →
  last l2Blocks = Some lastBlock →
  Forall (notForAccount (getMasterSecretKey (ivpkM p))
            (getMasterSecretKey (ovpkM p))) (batches ≫= logsOf) →
  ∃ p', process l2Blocks batches p = (Ok tt, p') ∧
        simulator p' = simulator p ∧
        db p' =
          setSynchedBlockNumberForPublicKey (ivpkM p) (number lastBlock)
            (snd (removeNullifiedNotes (nullifiersOf l2Blocks) (ivpkM p) (db p))).
Proof.
  intros Hal Hlast Hnot.
  pose proof (Forall2_length _ _ _ Hal) as Hlen.
  rewrite (process_nonempty _ _ _ _ Hlen Hlast).
  unfold collect. rewrite run_bind_get.
  destruct (blockLoop_notForAccount _ _ l2Blocks batches 0 ([], []) p Hal Hnot)
    as (p1 & E & Hdb & Hiv & _ & _ & _ & Hsim).
  rewrite E. simpl.
  unfold processBlocksAndNotes, processDeferredNotes.
  rewrite nullifiers_of_blocksAndNotes.
  rewrite withoutNotes_incoming, withoutNotes_outgoing.
  unfold withoutNotes. rewrite map_map. simpl. rewrite map_id.
  rewrite drop_0. unfold bind, modify, ret. simpl.
  eexists. split; [reflexivity|]. simpl. by rewrite Hsim, Hdb, Hiv.
Qed.

End ProcessorMore.

Section MemoryMore.
Context `{PXE.Collaborators} {Sim : Type} `{!PXE.AcirSimulator Sim}.
Import PXE.

Local Abbreviation NP := (NoteProcessor MemoryDb.t Sim).

(** The store after a call of [process] that returns. *)
Lemma process_memory_committed (p p' : NP) l2Blocks batches lastBlock :
  last l2Blocks = Some lastBlock →
  process l2Blocks batches p = (Ok tt, p') →
  ∃ incoming outgoing deferredNotes,
    db p' = MemoryDb.committed (ivpkM p) incoming outgoing deferredNotes
              (nullifiersOf l2Blocks) (number lastBlock) (db p).
Proof.
  intros Hlast Hp.
  destruct (decide (length l2Blocks = length batches)) as [Hlen|Hlen];
    [|by rewrite process_mismatch in Hp].
  rewrite (process_memory _ _ _ _ Hlen Hlast) in Hp.
  pose proof (collect_sameStore p l2Blocks batches) as (Hdb & Hiv & _).
  destruct (collect l2Blocks batches p) as [[[bn ds]|e] p1]; [|done].
  simpl in Hdb, Hiv. simplify_eq. simpl. rewrite Hdb, Hiv. by eexists _, _, _.
Qed.

(** X11. After a call of [process] that returns on a non-empty batch, the
    store holds no incoming note of this account whose nullifier a
    transaction of the batch emits: neither one it held before nor one the
    batch itself created. *)
Theorem process_leaves_no_nullified_note (p p' : NP) l2Blocks batches
    (n : IncomingNoteDao.t) :
  l2Blocks ≠ [] →
  process l2Blocks batches p = (Ok tt, p') →
  n ∈ MemoryDb.notes (db p') →
  IncomingNoteDao.ivpkM n = ivpkM p →
  IncomingNoteDao.siloedNullifier n ∉ nullifiersOf l2Blocks.
Proof.
  intros Hne Hp Hn Hmine Hnull.
  destruct (last l2Blocks) as [lastBlock|] eqn:Hlast;
    [|by apply last_None in Hlast].
  destruct (process_memory_committed _ _ _ _ _ Hlast Hp) as (i & o & d & Hdb).
  rewrite Hdb in Hn. simpl in Hn.
  apply list_elem_of_filter in Hn as [Hnot _]. apply Hnot. by split.
Qed.

(** X12. [process] removes nothing else. A call that returns keeps every
    incoming note the store held that is another account's or whose
    nullifier no transaction of the batch emits, keeps the outgoing and the
    deferred notes the store held, at their places, and leaves the synced
    block of every other account as it is. *)
Theorem process_keeps_the_rest (p p' : NP) l2Blocks batches :
  process l2Blocks batches p = (Ok tt, p') →
  (∀ n, n ∈ MemoryDb.notes (db p) →
        ¬ MemoryDb.nullified (nullifiersOf l2Blocks) (ivpkM p) n →
        n ∈ MemoryDb.notes (db p')) ∧
  MemoryDb.outgoingNotes (db p) `prefix_of` MemoryDb.outgoingNotes (db p') ∧
  MemoryDb.deferredNotes (db p) `prefix_of` MemoryDb.deferredNotes (db p') ∧
  (∀ account, account ≠ ivpkM p →
     getSynchedBlockNumberForPublicKey account (db p')
     = getSynchedBlockNumberForPublicKey account (db p)).
Proof.
  intros Hp.
  destruct (last l2Blocks) as [lastBlock|] eqn:Hlast.
  - destruct (process_memory_committed _ _ _ _ _ Hlast Hp) as (i & o & d & Hdb).
    rewrite Hdb. simpl. split_and!.
    + intros n Hn Hnot. apply list_elem_of_filter. split; [done|].
      apply elem_of_app. by left.
    + by apply prefix_app_r.
    + by apply prefix_app_r.
    + intros account Hne. by rewrite lookup_insert_ne.
  - apply last_None in Hlast. subst l2Blocks.
    destruct batches; [|done]. rewrite process_empty in Hp. by simplify_eq.
Qed.

End MemoryMore.

Section RecordingMore.
Context `{PXE.Collaborators} {Db Sim : Type}
  `{!PXE.PxeDatabase Db} `{!PXE.AcirSimulator Sim}.
Import PXE.

Local Abbreviation NP := (NoteProcessor Db (Recording Sim)).

Global Instance recordsWithKeys_preorder ivpk ovpk P :
  PreOrder (recordsWithKeys (Db := Db) (Sim := Sim) ivpk ovpk P).
Proof.
  split.
  - intros p [Hi Ho]. split_and!; [done|done|reflexivity].
  - intros p q r Hpq Hqr Hk. destruct (Hpq Hk) as (Hi & Ho & Hr).
    destruct (Hqr (conj Hi Ho)) as (Hi' & Ho' & Hr').
    split_and!; [done|done|by etrans].
Qed.

Lemma recordsWithKeys_stats ivpk ovpk P f (p : NP) :
  recordsWithKeys ivpk ovpk P p (set_stats (f (stats p)) p).
Proof.
  intros [Hi Ho]. split_and!; [done|done|].
  exists []. by rewrite app_nil_r.
Qed.

Lemma recordsWithKeys_call ivpk ovpk (P : ProduceNoteDaosCall → Prop)
    ivpk' ovpk' payload hash hashes start excluded :
  P {| argIvpkM := ivpk'; argOvpkM := ovpk'; argPayload := payload;
       argTxHash := hash; argNewNoteHashes := hashes;
       argDataStartIndexForTx := start; argExcludedIndices := excluded |} →
  preserves (recordsWithKeys (Db := Db) ivpk ovpk P)
    (callProduceNoteDaos ivpk' ovpk' payload hash hashes start excluded).
Proof.
  intros HP p [Hi Ho].
  pose proof (callProduceNoteDaos_recorded (Db := Db) P ivpk' ovpk' payload hash
                hashes start excluded HP p) as Hr.
  unfold callProduceNoteDaos in *.
  destruct (produceNoteDaos _ _ _ _ _ _ _ _) as [[daos excluded'] sim].
  by split_and!.
Qed.

Lemma processLog_answers ivpk ovpk (Q : EncryptedL2NoteLog → Prop)
    effect start acc log :
  Q log →
  preserves
    (recordsWithKeys (Db := Db) ivpk ovpk
       (λ c, ∃ log, Q log ∧ answers ivpk ovpk log c))
    (processLog (getMasterSecretKey ivpk) (getMasterSecretKey ovpk)
       effect start acc log).
Proof.
  intros HQ p Hk.
  set (R := recordsWithKeys (Db := Db) (Sim := Sim) ivpk ovpk
              (λ c, ∃ log, Q log ∧ answers ivpk ovpk log c)).
  assert (Hrest : ∀ ivpk' ovpk' payload (q : NP),
    answers ivpk ovpk log
      {| argIvpkM := ivpk'; argOvpkM := ovpk'; argPayload := payload;
         argTxHash := txHash effect; argNewNoteHashes := noteHashes effect;
         argDataStartIndexForTx := start; argExcludedIndices := snd acc |} →
    R q (snd (bind (callProduceNoteDaos ivpk' ovpk' payload (txHash effect)
                      (noteHashes effect) start (snd acc))
                   (λ '(daos, excludedIndices),
                      bind (recordNoteDaos daos (fst acc))
                           (λ l, ret (l, excludedIndices))) q))).
  { intros ivpk' ovpk' payload q Ha.
    apply preserves_bind; [apply _| |].
    - apply recordsWithKeys_call. by exists log.
    - intros [daos ex]. apply preserves_bind; [apply _| |intros ?; apply preserves_ret, _].
      apply recordNoteDaos_preserves; [apply _|]. apply recordsWithKeys_stats. }
  unfold processLog. rewrite run_bind. simpl. rewrite run_bind_get.
  destruct Hk as [Hi Ho]. simpl. rewrite Hi, Ho.
  assert (Hq : R p (set_stats (incr_seen (stats p)) p))
    by apply recordsWithKeys_stats.
  assert (Hk : ivpkM p = ivpk ∧ ovpkM p = ovpk) by done.
  destruct (decryptAsIncoming (data log) (getMasterSecretKey ivpk)) as [i|] eqn:Hdi,
           (decryptAsOutgoing (data log) (getMasterSecretKey ovpk)) as [o|] eqn:Hdo.
  - case_bool_decide as Hne; [by apply Hq|].
    refine (transitivity (R := R) Hq (Hrest _ _ _ _ _) Hk).
    unfold answers. simpl. rewrite Hdi, Hdo. simpl. split_and!; eauto.
  - refine (transitivity (R := R) Hq (Hrest _ _ _ _ _) Hk).
    unfold answers. simpl. rewrite Hdi, Hdo. simpl. split_and!; eauto.
  - refine (transitivity (R := R) Hq (Hrest _ _ _ _ _) Hk).
    unfold answers. simpl. rewrite Hdi, Hdo. simpl. split_and!; eauto.
  - by apply Hq.
Qed.

Lemma txLoop_answers ivpk ovpk (Q : EncryptedL2NoteLog → Prop) blk start rest :
  (∀ log, log ∈ rest ≫= (λ tx, functionLogs tx ≫= logs) → Q log) →
  ∀ i l,
    preserves
      (recordsWithKeys (Db := Db) ivpk ovpk
         (λ c, ∃ log, Q log ∧ answers ivpk ovpk log c))
      (txLoop (getMasterSecretKey ivpk) (getMasterSecretKey ovpk)
         blk start i rest l).
Proof.
  induction rest as [|tx rest IH]; intros HQ i l; simpl.
  - apply preserves_ret, _.
  - apply preserves_bind; [apply _| |intros _].
    { apply preserves_modify. intros p. apply recordsWithKeys_stats. }
    destruct (txEffects (body blk) !! i) as [effect|]; [|apply preserves_throw, _].
    apply preserves_bind; [apply _| |intros acc; apply IH].
    + unfold processTxLogs.
      apply preserves_foldM; [apply _|]. intros acc fl Hfl.
      apply preserves_foldM; [apply _|]. intros acc' log Hlog.
      apply processLog_answers. apply HQ. rewrite bind_cons.
      apply elem_of_app. left. apply list_elem_of_bind. by exists fl.
    + intros log Hlog. apply HQ. rewrite bind_cons. apply elem_of_app. by right.
Qed.

Lemma blockLoop_answers ivpk ovpk (Q : EncryptedL2NoteLog → Prop) bs rest :
  (∀ log, log ∈ rest ≫= logsOf → Q log) →
  ∀ k acc,
    preserves
      (recordsWithKeys (Db := Db) ivpk ovpk
         (λ c, ∃ log, Q log ∧ answers ivpk ovpk log c))
      (blockLoop (getMasterSecretKey ivpk) (getMasterSecretKey ovpk)
         bs k rest acc).
Proof.
  induction rest as [|batch rest IH]; intros HQ k acc; simpl.
  - apply preserves_ret, _.
  - apply preserves_bind; [apply _| |intros _].
    { apply preserves_modify. intros p. apply recordsWithKeys_stats. }
    destruct (bs !! k) as [blk|]; [|apply preserves_throw, _].
    apply preserves_bind; [apply _| |intros l; apply IH].
    + apply txLoop_answers. intros log Hlog. apply HQ.
      rewrite bind_cons. apply elem_of_app. by left.
    + intros log Hlog. apply HQ. rewrite bind_cons. apply elem_of_app. by right.
Qed.

(** X13. [process] calls [produceNoteDaos] only for logs of the batch that
    decrypt, and as the log decrypts: every call is for some log of the
    batch that decrypts as incoming or as outgoing, passes this account's
    incoming key exactly if the log decrypts as incoming and its outgoing
    key exactly if the log decrypts as outgoing (so never no key at all),
    and passes the payload the log decrypted to. *)
Theorem produceNoteDaos_called_for_decrypted_logs (p : NP) l2Blocks batches :
  ∃ new,
    calls (simulator (snd (process l2Blocks batches p)))
      = calls (simulator p) ++ new ∧
    Forall (λ c, ∃ log, log ∈ batches ≫= logsOf ∧
                        answers (ivpkM p) (ovpkM p) log c) new.
Proof.
  set (R := recordsWithKeys (Db := Db) (Sim := Sim) (ivpkM p) (ovpkM p)
              (λ c, ∃ log, log ∈ batches ≫= logsOf ∧
                           answers (ivpkM p) (ovpkM p) log c)).
  assert (Hrun : R p (snd (process l2Blocks batches p))).
  { unfold process, processBlocksAndNotes, processDeferredNotes.
    case_bool_decide; [by apply preserves_throw, _|].
    destruct (last l2Blocks) as [lastBlock|]; [|by apply preserves_ret, _].
    rewrite run_bind_get.
    match goal with |- R p (snd (bind ?m ?k p)) =>
      apply (preserves_bind R m k)
    end.
    - by apply blockLoop_answers.
    - intros [bn ds].
      assert (Hdb : ∀ f : NP → Db, preserves R (modify (λ q, set_db (f q) q))).
      { intros f. apply preserves_modify. intros q [Hi Ho].
        split_and!; [done|done|]. exists []. by rewrite app_nil_r. }
      repeat first
        [ apply preserves_ret; apply _
        | apply Hdb
        | apply preserves_bind; [apply _| |intros ?]
        | case_match ]. }
  by destruct (Hrun (conj eq_refl eq_refl)) as (_ & _ & Hnew).
Qed.

End RecordingMore.

Section DeferredMore.
Context `{PXE.Collaborators} {Db Sim : Type}
  `{!PXE.PxeDatabase Db} `{!PXE.AcirSimulator Sim}.
Import PXE.

Local Abbreviation NP := (NoteProcessor Db Sim).

Lemma decodeDeferredNote_throwsOnly acc d :
  throwsOnly (S := NP) (λ e, e = DeferredRetryFailed) (decodeDeferredNote acc d).
Proof.
  unfold decodeDeferredNote. destruct acc as [excluded incoming].
  apply throwsOnly_bind; [by intros ??|intros p].
  case_bool_decide; [apply throwsOnly_ret|].
  apply throwsOnly_bind; [apply callProduceNoteDaos_throwsOnly|].
  intros [daos excluded'].
  destruct (incomingNote daos); [|by apply throwsOnly_throw].
  apply throwsOnly_bind; [apply throwsOnly_modify|intros _; apply throwsOnly_ret].
Qed.

Lemma decodeLoop_count ds :
  ∀ acc (p p' : NP) acc',
    foldM decodeDeferredNote ds acc p = (Ok acc', p') →
    length (snd acc') =
      (length (snd acc)
       + length (filter (λ d, DeferredNoteDao.ivpkM d = ivpkM p) ds))%nat ∧
    decryptedIncoming (stats p') =
      decryptedIncoming (stats p)
      + Z.of_nat (length (filter (λ d, DeferredNoteDao.ivpkM d = ivpkM p) ds)).
Proof.
  induction ds as [|d ds IH]; intros acc p p' acc' Hrun.
  - simpl in Hrun. unfold ret in Hrun. simplify_eq. simpl. lia.
  - rewrite filter_cons. simpl in Hrun. rewrite run_bind in Hrun.
    case_decide as Hd.
    + revert Hrun. unfold decodeDeferredNote. destruct acc as [excluded incoming].
      rewrite run_bind_get, bool_decide_eq_false_2 by (by intros ?).
      rewrite run_bind. unfold callProduceNoteDaos.
      destruct (produceNoteDaos _ _ _ _ _ _ _ _) as [[daos excluded'] sim].
      destruct (incomingNote daos) as [n|]; [|done].
      rewrite run_bind. simpl. intros Hrun. apply IH in Hrun as [Hl Hc].
      simpl in *. rewrite length_app in Hl. simpl in Hl. lia.
    + rewrite decodeDeferredNote_foreign in Hrun by done. by apply IH in Hrun.
Qed.

(** X14. What [decodeDeferredNotes] comes to. If it returns, it returns
    one incoming note for each of the given records that is this
    account's, and has counted them in [decryptedIncoming]; if it throws,
    it throws the error of a record that could not be decoded. Either way
    it has not touched the database. *)
Theorem decodeDeferredNotes_outcome (p : NP) (ds : list DeferredNoteDao.t) :
  let own := filter (λ d, DeferredNoteDao.ivpkM d = ivpkM p) ds in
  match decodeDeferredNotes ds p with
  | (Ok notes, p') =>
      length notes = length own ∧
      decryptedIncoming (stats p')
        = decryptedIncoming (stats p) + Z.of_nat (length own) ∧
      db p' = db p
  | (Err e, p') => e = DeferredRetryFailed ∧ db p' = db p
  end.
Proof.
  intros own.
  pose proof (preserves_foldM (sameStore (Db := Db) (Sim := Sim))
                decodeDeferredNote ds (∅, [])
                (λ acc x _, decodeDeferredNote_sameStore acc x) p) as Hs.
  pose proof (throwsOnly_foldM (λ e, e = DeferredRetryFailed)
                decodeDeferredNote ds (∅, [])
                (λ acc x _, decodeDeferredNote_throwsOnly acc x) p) as Ht.
  unfold decodeDeferredNotes. rewrite run_bind.
  destruct (foldM decodeDeferredNote ds (∅, []) p) as [[acc|e] p'] eqn:Hrun;
    simpl in *.
  - apply decodeLoop_count in Hrun as [Hl Hc]. simpl in Hl.
    split_and!; [done|done|apply Hs].
  - split; [by apply Ht|apply Hs].
Qed.

End DeferredMore.

Section DeferredRecording.
Context `{PXE.Collaborators} {Db Sim : Type}
  `{!PXE.PxeDatabase Db} `{!PXE.AcirSimulator Sim}.
Import PXE.

Local Abbreviation NP := (NoteProcessor Db (Recording Sim)).

Lemma decodeDeferredNote_retries ivpk ovpk (Q : DeferredNoteDao.t → Prop) acc d :
  Q d →
  preserves
    (recordsWithKeys (Db := Db) (Sim := Sim) ivpk ovpk
       (λ c, ∃ d, Q d ∧ retries ivpk d c))
    (decodeDeferredNote acc d).
Proof.
  intros HQ p Hk. destruct acc as [excluded incoming].
  set (R := recordsWithKeys (Db := Db) (Sim := Sim) ivpk ovpk
              (λ c, ∃ d, Q d ∧ retries ivpk d c)).
  unfold decodeDeferredNote. rewrite run_bind_get.
  case_bool_decide as Hd; [by apply (reflexivity (R := R))|].
  destruct Hk as [Hi Ho].
  assert (Hk : ivpkM p = ivpk ∧ ovpkM p = ovpk) by done.
  revert Hk.
  match goal with |- _ → _ ∧ _ ∧ recordedOnly _ p (snd (bind ?m ?k p)) =>
    apply (preserves_bind R m k)
  end.
  - apply recordsWithKeys_call. exists d. split; [done|].
    unfold retries. simpl. rewrite Hd, Hi. by split_and!.
  - intros [daos excluded'].
    destruct (incomingNote daos); [|apply preserves_throw, _].
    apply preserves_bind; [apply _| |intros _; apply preserves_ret, _].
    apply preserves_modify. intros q. apply recordsWithKeys_stats.
Qed.

(** X15. A retry passes on what was deferred: every call of
    [produceNoteDaos] that [decodeDeferredNotes] makes is for one of the
    given records that is this account's, with this account's incoming key
    and no outgoing key, the payload made of the record's note, contract
    address, storage slot and note type, and the record's transaction hash,
    note hashes and leaf-index offset. *)
Theorem decodeDeferredNotes_calls (p : NP) (ds : list DeferredNoteDao.t) :
  ∃ new,
    calls (simulator (snd (decodeDeferredNotes ds p)))
      = calls (simulator p) ++ new ∧
    Forall (λ c, ∃ d, d ∈ ds ∧ retries (ivpkM p) d c) new.
Proof.
  set (R := recordsWithKeys (Db := Db) (Sim := Sim) (ivpkM p) (ovpkM p)
              (λ c, ∃ d, d ∈ ds ∧ retries (ivpkM p) d c)).
  assert (Hrun : R p (snd (decodeDeferredNotes ds p))).
  { unfold decodeDeferredNotes.
    apply (preserves_bind R); [|intros ?; apply preserves_ret, _].
    apply (preserves_foldM R). intros acc d Hd.
    by apply decodeDeferredNote_retries. }
  by destruct (Hrun (conj eq_refl eq_refl)) as (_ & _ & Hnew).
Qed.

End DeferredRecording.

Section P2PLog.
Context `{P2P.Collaborators}.
Import P2P.

Lemma reconcileTxPool_log (blocks : list L2Block) (c : P2PClient) :
  log (snd (reconcileTxPool blocks c))
  = log c ++ map DeletingTx (blocks ≫= createTxIds).
Proof.
  revert c. unfold reconcileTxPool.
  induction blocks as [|b blocks IH]; intros c.
  - simpl. by rewrite app_nil_r.
  - rewrite bind_cons. cbn [forOf]. unfold bind at 1. unfold bind at 1.
    destruct (logging_deletions (createTxIds b) c) as (c1 & E1 & _ & _ & L1).
    rewrite E1. simpl. rewrite IH. simpl.
    by rewrite L1, map_app, <- app_assoc.
Qed.

(** X18. What [handleL2Blocks] logs for a batch that is not empty: a line
    for each transaction of each block, in the order of the blocks, then
    the block synced to, and then the move to [RUNNING] in case the client
    was synching and has reached the block number it syncs to. *)
Theorem handleL2Blocks_log (c : P2PClient) (blocks : list L2Block)
    (lastBlock : L2Block) :
  last blocks = Some lastBlock →
  log (snd (handleL2Blocks blocks c))
  = log c
    ++ map DeletingTx (blocks ≫= createTxIds)
    ++ [SynchedToBlock (number lastBlock)]
    ++ (if bool_decide (currentState c = SYNCHING)
           && (latestBlockNumberAtStart c <=? number lastBlock)
        then [MovedToState RUNNING] else []).
Proof.
  intros Hlast. unfold handleL2Blocks. rewrite Hlast.
  pose proof (reconcileTxPool_log blocks c) as Hlog.
  destruct (reconcileTxPool_spec blocks c) as (c1 & E1 & S1 & _).
  unfold bind, get, modify, logMsg, setCurrentState, bind, modify, ret.
  rewrite E1 in Hlog |- *. simpl in Hlog |- *.
  destruct S1 as (_ & _ & _ & _ & St & _ & Lt & _).
  rewrite St, Lt.
  destruct (bool_decide (currentState c = SYNCHING)
            && (latestBlockNumberAtStart c <=? number lastBlock)); simpl.
  - destruct (syncResolve c1); simpl; rewrite Hlog, <- !app_assoc; done.
  - by rewrite Hlog, <- !app_assoc.
Qed.

End P2PLog.

Section Counting.
Context `{PXE.Collaborators} {Db Sim : Type}
  `{!PXE.PxeDatabase Db} `{!PXE.AcirSimulator Sim}.
Import PXE.

Local Abbreviation NP := (NoteProcessor Db Sim).

(** A counter [m] of the statistics that a block adds [perBlock] to, a
    transaction [perTx] and a log [perLog], and that no note changes. *)
Variable m : NoteProcessorStats → Z.
Variables perBlock perTx perLog : Z.
Hypothesis m_blocks : ∀ s, m (incr_blocks s) = m s + perBlock.
Hypothesis m_txs : ∀ s, m (incr_txs s) = m s + perTx.
Hypothesis m_seen : ∀ s, m (incr_seen s) = m s + perLog.
Hypothesis m_decryptedIncoming : ∀ s, m (incr_decryptedIncoming s) = m s.
Hypothesis m_decryptedOutgoing : ∀ s, m (incr_decryptedOutgoing s) = m s.
Hypothesis m_deferred : ∀ s, m (incr_deferred s) = m s.
Hypothesis m_failed : ∀ s, m (incr_failed s) = m s.

Lemma recordNoteDaos_measure daos l (p p' : NP) l' :
  recordNoteDaos daos l p = (Ok l', p') → m (stats p') = m (stats p).
Proof using m_decryptedIncoming m_decryptedOutgoing m_deferred m_failed.
  unfold recordNoteDaos, bind, bump, modify, ret.
  destruct (incomingNote daos), (outgoingNote daos), (incomingDeferredNote daos);
    simpl; intros [= <- <-]; simpl;
    by rewrite ?m_decryptedIncoming, ?m_decryptedOutgoing, ?m_deferred,
         ?m_failed, ?m_decryptedIncoming, ?m_decryptedOutgoing, ?m_deferred.
Qed.

Lemma processLog_measure ivsk ovsk effect start acc log (p p' : NP) acc' :
  processLog ivsk ovsk effect start acc log p = (Ok acc', p') →
  m (stats p') = m (stats p) + perLog.
Proof using All.
  unfold processLog. rewrite run_bind. simpl. rewrite run_bind_get.
  assert (Hproduce : ∀ ivpk ovpk payload (q : NP),
    bind (callProduceNoteDaos ivpk ovpk payload (txHash effect)
            (noteHashes effect) start (snd acc))
         (λ '(daos, excludedIndices),
            bind (recordNoteDaos daos (fst acc))
                 (λ l, ret (l, excludedIndices))) q = (Ok acc', p') →
    m (stats p') = m (stats q)).
  { intros ivpk ovpk payload q. rewrite run_bind. unfold callProduceNoteDaos.
    destruct (produceNoteDaos _ _ _ _ _ _ _ _) as [[daos ex] sim].
    rewrite run_bind.
    destruct (recordNoteDaos daos (fst acc) (set_simulator sim q))
      as [[l'|e] q'] eqn:E; [|done].
    apply recordNoteDaos_measure in E. unfold ret. by intros [= <- <-]. }
  destruct (decryptAsIncoming _ _) as [i|], (decryptAsOutgoing _ _) as [o|];
    [case_bool_decide; [done|]|..];
    try (intros Hrun; apply Hproduce in Hrun; rewrite Hrun; simpl;
         by rewrite m_seen).
  unfold ret. intros [= <- <-]. simpl. by rewrite m_seen.
Qed.

Lemma processTxLogs_measure ivsk ovsk effect start fls :
  ∀ acc (p p' : NP) acc',
    processTxLogs ivsk ovsk effect start fls acc p = (Ok acc', p') →
    m (stats p') = m (stats p) + perLog * Z.of_nat (length (fls ≫= logs)).
Proof using All.
  unfold processTxLogs.
  induction fls as [|fl fls IH]; intros acc p p' acc' Hrun.
  - simpl in Hrun. unfold ret in Hrun. simplify_eq. simpl. lia.
  - cbn [foldM] in Hrun. rewrite run_bind in Hrun.
    destruct (foldM _ (logs fl) acc p) as [[acc1|e] p1] eqn:Hfl; [|done].
    apply IH in Hrun. rewrite Hrun, bind_cons, length_app.
    assert (Hlogs : m (stats p1)
                    = m (stats p) + perLog * Z.of_nat (length (logs fl))).
    { clear Hrun IH. revert acc p Hfl.
      induction (logs fl) as [|log ls IHl]; intros acc p Hfl.
      - simpl in Hfl. unfold ret in Hfl. simplify_eq. simpl. lia.
      - cbn [foldM] in Hfl. rewrite run_bind in Hfl.
        destruct (processLog _ _ _ _ acc log p) as [[acc2|e] p2] eqn:Hlog;
          [|done].
        apply IHl in Hfl. apply processLog_measure in Hlog.
        rewrite Hfl, Hlog. cbn [length]. lia. }
    rewrite Hlogs. lia.
Qed.

Lemma txLoop_measure ivsk ovsk blk start rest :
  ∀ i l (p p' : NP) l',
    txLoop ivsk ovsk blk start i rest l p = (Ok l', p') →
    m (stats p')
    = m (stats p) + perTx * Z.of_nat (length rest)
      + perLog * Z.of_nat (length (rest ≫= (λ tx, functionLogs tx ≫= logs))).
Proof using All.
  induction rest as [|tx rest IH]; intros i l p p' l' Hrun; simpl in Hrun.
  - unfold ret in Hrun. simplify_eq. simpl. lia.
  - rewrite run_bind in Hrun. simpl in Hrun.
    destruct (txEffects (body blk) !! i) as [effect|]; [|done].
    rewrite run_bind in Hrun.
    destruct (processTxLogs _ _ _ _ _ _ _) as [[acc|e] p1] eqn:Hlogs; [|done].
    apply IH in Hrun. apply processTxLogs_measure in Hlogs.
    simpl in Hlogs. rewrite m_txs in Hlogs.
    rewrite Hrun, Hlogs, bind_cons, length_app. cbn [length]. lia.
Qed.

Lemma blockLoop_measure ivsk ovsk bs rest :
  ∀ k acc (p p' : NP) acc',
    blockLoop ivsk ovsk bs k rest acc p = (Ok acc', p') →
    m (stats p')
    = m (stats p) + perBlock * Z.of_nat (length rest)
      + perTx * Z.of_nat (length (rest ≫= txLogs))
      + perLog * Z.of_nat (length (rest ≫= logsOf)).
Proof using All.
  induction rest as [|batch rest IH]; intros k acc p p' acc' Hrun; simpl in Hrun.
  - unfold ret in Hrun. simplify_eq. simpl. lia.
  - rewrite run_bind in Hrun. simpl in Hrun.
    destruct (bs !! k) as [blk|]; [|done].
    rewrite run_bind in Hrun.
    destruct (txLoop _ _ _ _ _ _ _ _) as [[l|e] p1] eqn:Htx; [|done].
    apply IH in Hrun. apply txLoop_measure in Htx.
    simpl in Htx. rewrite m_blocks in Htx.
    rewrite Hrun, Htx, !bind_cons, !length_app. unfold logsOf at 2.
    cbn [length]. lia.
Qed.

Lemma process_measure (p p' : NP) l2Blocks batches :
  process l2Blocks batches p = (Ok tt, p') →
  m (stats p')
  = m (stats p) + perBlock * Z.of_nat (length batches)
    + perTx * Z.of_nat (length (batches ≫= txLogs))
    + perLog * Z.of_nat (length (batches ≫= logsOf)).
Proof using All.
  intros Hp.
  destruct (decide (length l2Blocks = length batches)) as [Hlen|Hlen];
    [|by rewrite process_mismatch in Hp].
  destruct (last l2Blocks) as [lastBlock|] eqn:Hlast.
  2:{ apply last_None in Hlast. subst l2Blocks. destruct batches; [|done].
      rewrite process_empty in Hp. simplify_eq. simpl. lia. }
  rewrite (process_nonempty _ _ _ _ Hlen Hlast) in Hp.
  destruct (collect l2Blocks batches p) as [[[bn ds]|e] p1] eqn:Hcol; [|done].
  assert (Hstats : stats p' = stats p1).
  { unfold processBlocksAndNotes, processDeferredNotes, bind, modify, ret in Hp.
    repeat case_bool_decide; by simplify_eq. }
  unfold collect in Hcol. rewrite run_bind_get in Hcol.
  apply blockLoop_measure in Hcol. by rewrite Hstats.
Qed.

End Counting.

Section ProcessorStatus.
Context `{PXE.Collaborators} {Db Sim : Type}
  `{!PXE.PxeDatabase Db} `{!PXE.AcirSimulator Sim}.
Import PXE.

Local Abbreviation NP := (NoteProcessor Db Sim).

(** X16. The statistics count what was visited: in a call of [process]
    that returns, the counter [blocks] grows by the number of log batches,
    [txs] by the number of transactions that have an entry in them, and
    [seen] by the number of logs, whether a log decrypts or not. *)
Theorem process_counts_what_it_saw (p p' : NP) l2Blocks batches :
  process l2Blocks batches p = (Ok tt, p') →
  blocks (stats p') = blocks (stats p) + Z.of_nat (length batches) ∧
  txs (stats p') = txs (stats p) + Z.of_nat (length (batches ≫= txLogs)) ∧
  seen (stats p') = seen (stats p) + Z.of_nat (length (batches ≫= logsOf)).
Proof.
  intros Hp.
  pose proof (λ m perBlock perTx perLog H1 H2 H3 H4 H5 H6 H7,
    process_measure m perBlock perTx perLog H1 H2 H3 H4 H5 H6 H7
      p p' l2Blocks batches Hp) as Hm.
  split_and!.
  - rewrite (Hm blocks 1 0 0); [lia|intros s; simpl; lia..].
  - rewrite (Hm txs 0 1 0); [lia|intros s; simpl; lia..].
  - rewrite (Hm seen 0 0 1); [lia|intros s; simpl; lia..].
Qed.

(** X17. After a call of [process] that returns on a batch that is not
    empty, for a database that answers with the synced block last set, the
    processor's status is the number of the batch's last block, and the
    processor is synchronized exactly if that is the node's block number. *)
Theorem status_after_process (p p' : NP) l2Blocks batches lastBlock
    (remoteBlockNumber : Z) :
  (∀ account n (d : Db),
     getSynchedBlockNumberForPublicKey account
       (setSynchedBlockNumberForPublicKey account n d) = Some n) →
  last l2Blocks = Some lastBlock →
  process l2Blocks batches p = (Ok tt, p') →
  syncedToBlock (status p') = number lastBlock ∧
  isSynchronized remoteBlockNumber p'
  = bool_decide (number lastBlock = remoteBlockNumber).
Proof.
  intros Hdb Hlast Hp.
  destruct (process_returns_synced _ _ _ _ _ Hlast Hp) as (Hiv & _ & d & Hd).
  assert (Hsynced : getSyncedToBlock p' = number lastBlock).
  { unfold getSyncedToBlock. by rewrite Hd, Hiv, Hdb. }
  unfold status, isSynchronized. simpl. by rewrite Hsynced.
Qed.

End ProcessorStatus.

(** * Collaborators that fail *)

(** ** The pool *)

Section PoolFailureFacts.
Context `{P2P.Collaborators} `{!P2P.PoolFailures}.
Import P2P.

Lemma sameControl_trans (c1 c2 c3 : P2PClient) :
  sameControl c1 c2 → sameControl c2 c3 → sameControl c1 c3.
Proof.
  unfold sameControl. intros ??. destruct_and!. split_and!; congruence.
Qed.

(** With a pool that can fail, [reconcileTxPool] either does what it does
    with one that cannot, or throws, having changed the pool and the log
    only. *)
Lemma reconcileTxPool_fallible (blocks : list L2Block) (c : P2PClient) :
  match Fallible.reconcileTxPool blocks c with
  | (Ok _, c') => reconcileTxPool blocks c = (Ok tt, c')
  | (Err e, c') => sameControl c c' ∧ ∃ ids, deleteFails ids (txPool c') = Some e
  end.
Proof.
  revert c. unfold Fallible.reconcileTxPool, reconcileTxPool.
  induction blocks as [|b blocks IH]; intros c; cbn [forOf].
  - done.
  - unfold bind at 1. unfold bind at 1.
    unfold bind at 2. unfold bind at 2.
    destruct (logging_deletions (createTxIds b) c) as (c1 & E1 & S1 & P1 & L1).
    rewrite E1. unfold Fallible.callDeleteTxs. rewrite run_bind_get.
    destruct (deleteFails (createTxIds b) (txPool c1)) as [e|] eqn:Hfail.
    + simpl. split; [done|]. by exists (createTxIds b).
    + simpl. specialize (IH (set_txPool (deleteTxs (createTxIds b) (txPool c1)) c1)).
      destruct (forOf _ blocks _) as [[[]|e] c'] eqn:Hrest; [done|].
      destruct IH as [Hsame Hids]. split; [|done].
      eapply sameControl_trans; [exact S1|]. exact Hsame.
Qed.

Lemma handleL2Blocks_fallible (blocks : list L2Block) (c : P2PClient) :
  match Fallible.handleL2Blocks blocks c with
  | (Ok _, c') => handleL2Blocks blocks c = (Ok tt, c')
  | (Err e, c') => sameControl c c' ∧ ∃ ids, deleteFails ids (txPool c') = Some e
  end.
Proof.
  unfold Fallible.handleL2Blocks, handleL2Blocks.
  destruct (last blocks) as [b|]; [|done].
  pose proof (reconcileTxPool_fallible blocks c) as Hrec.
  unfold bind, get, modify, logMsg, setCurrentState, bind, modify, ret.
  destruct (Fallible.reconcileTxPool blocks c) as [[[]|e] c1]; [|done].
  rewrite Hrec. simpl.
  destruct (bool_decide (currentState c1 = SYNCHING)
            && (latestBlockNumberAtStart c1 <=? number b)); simpl; [|done].
  by destruct (syncResolve c1).
Qed.

End PoolFailureFacts.

(** ** The database *)

Section DatabaseFailureFacts.
Context `{PXE.Collaborators} {Db Sim : Type}
  `{!PXE.PxeDatabase Db} `{!PXE.DatabaseFailures Db} `{!PXE.AcirSimulator Sim}.
Import PXE.

Local Abbreviation NP := (NoteProcessor Db Sim).

Lemma forOf_awaitWrite_ok (writes : list DbCall) :
  ∀ q q' : NP,
    forOf Fallible.awaitWrite writes q = (Ok tt, q') →
    q' = foldl (λ q call, Fallible.commit call q) q writes.
Proof.
  induction writes as [|call writes IH]; intros q q'; simpl.
  - unfold ret. by intros [= <-].
  - rewrite run_bind. unfold Fallible.awaitWrite. rewrite run_bind_get.
    destruct (writeFails call (db q)); [done|]. simpl. apply IH.
Qed.

Lemma forOf_awaitWrite_err (writes : list DbCall) :
  ∀ (q q' : NP) e,
    forOf Fallible.awaitWrite writes q = (Err e, q') →
    ∃ accepted call rest,
      writes = accepted ++ call :: rest ∧
      q' = foldl (λ q call, Fallible.commit call q) q accepted ∧
      writeFails call (db q') = Some e.
Proof.
  induction writes as [|call writes IH]; intros q q' e; simpl; [done|].
  rewrite run_bind. unfold Fallible.awaitWrite. rewrite run_bind_get.
  destruct (writeFails call (db q)) as [e'|] eqn:Hfail; simpl.
  - intros [= <- <-]. by exists [], call, writes.
  - intros Hrest. apply IH in Hrest as (accepted & call' & rest & -> & -> & Hf).
    by exists (call :: accepted), call', rest.
Qed.

Lemma commit_all_keys (writes : list DbCall) :
  ∀ q : NP,
    let q' := foldl (λ q call, Fallible.commit call q) q writes in
    ivpkM q' = ivpkM q ∧ ovpkM q' = ovpkM q ∧ account q' = account q ∧
    startingBlock q' = startingBlock q ∧ stats q' = stats q ∧
    simulator q' = simulator q ∧
    db q' = foldl (λ d call, perform call d) (db q) writes.
Proof.
  induction writes as [|call writes IH]; intros q; simpl; [done|].
  destruct (IH (Fallible.commit call q)) as (-> & -> & -> & -> & -> & -> & ->).
  done.
Qed.

(** After its loop, [process] makes the writes [writesOf]. *)
Lemma process_writes (q : NP) blocksAndNotes deferredNotes lastBlock :
  (processBlocksAndNotes blocksAndNotes >>
   processDeferredNotes deferredNotes >>
   modify (λ p, set_db (setSynchedBlockNumberForPublicKey (ivpkM p)
                          (number lastBlock) (db p)) p)) q
  = (Ok tt, foldl (λ q call, Fallible.commit call q) q
              (Fallible.writesOf blocksAndNotes deferredNotes (ivpkM q) lastBlock)).
Proof.
  unfold processBlocksAndNotes, processDeferredNotes, Fallible.writesOf,
    bind, modify, ret.
  by repeat case_bool_decide.
Qed.

Lemma process_awaits_writes (q : NP) blocksAndNotes deferredNotes lastBlock :
  (Fallible.processBlocksAndNotes blocksAndNotes >>
   Fallible.processDeferredNotes deferredNotes >>
   let* p := get in
   Fallible.awaitWrite
     (SetSynchedBlockNumberForPublicKey (ivpkM p) (number lastBlock))) q
  = forOf Fallible.awaitWrite
      (Fallible.writesOf blocksAndNotes deferredNotes (ivpkM q) lastBlock) q.
Proof.
  unfold Fallible.processBlocksAndNotes, Fallible.processDeferredNotes,
    Fallible.writesOf.
  repeat case_bool_decide; cbn [app forOf];
    unfold Fallible.awaitWrite, bind, get, modify, ret, throw; simpl;
    repeat (match goal with
            | |- context [writeFails ?call ?d] => destruct (writeFails call d)
            end; simpl; try reflexivity).
Qed.

Lemma process_fallible_nonempty (p : NP) l2Blocks batches lastBlock :
  length l2Blocks = length batches →
  last l2Blocks = Some lastBlock →
  Fallible.process l2Blocks batches p =
    match collect l2Blocks batches p with
    | (Err e, p') => (Err e, p')
    | (Ok (blocksAndNotes, deferredNotes), p') =>
        forOf Fallible.awaitWrite
          (Fallible.writesOf blocksAndNotes deferredNotes (ivpkM p') lastBlock) p'
    end.
Proof.
  intros Hlen Hlast. unfold Fallible.process, collect.
  rewrite bool_decide_eq_false_2 by (by intros ?). rewrite Hlast.
  rewrite !run_bind_get, run_bind.
  destruct (blockLoop _ _ _ _ _ _ _) as [[[bn ds]|e] p1]; [|done].
  apply process_awaits_writes.
Qed.

(** [process] on a database that can reject writes: it returns what it
    returns when every write is accepted; it throws what it throws then,
    before any write; or a write is rejected, after the writes before it. *)
Lemma process_fallible (p : NP) l2Blocks batches :
  match Fallible.process l2Blocks batches p with
  | (Ok _, p') => process l2Blocks batches p = (Ok tt, p')
  | (Err e, p') =>
      (process l2Blocks batches p = (Err e, p') ∧ db p' = db p) ∨
      ∃ blocksAndNotes deferredNotes p1 lastBlock accepted call rest,
        length l2Blocks = length batches ∧
        last l2Blocks = Some lastBlock ∧
        collect l2Blocks batches p = (Ok (blocksAndNotes, deferredNotes), p1) ∧
        Fallible.writesOf blocksAndNotes deferredNotes (ivpkM p) lastBlock
          = accepted ++ call :: rest ∧
        p' = foldl (λ q call, Fallible.commit call q) p1 accepted ∧
        writeFails call (db p') = Some e
  end.
Proof.
  destruct (decide (length l2Blocks = length batches)) as [Hlen|Hlen].
  2:{ rewrite process_mismatch by done. unfold Fallible.process.
      rewrite bool_decide_eq_true_2 by done. by left. }
  destruct (last l2Blocks) as [lastBlock|] eqn:Hlast.
  2:{ unfold Fallible.process. rewrite bool_decide_eq_false_2 by (by intros ?).
      rewrite Hlast. apply last_None in Hlast. subst l2Blocks.
      destruct batches; [|done]. apply process_empty. }
  rewrite (process_fallible_nonempty _ _ _ _ Hlen Hlast).
  rewrite (process_nonempty _ _ _ _ Hlen Hlast).
  pose proof (collect_sameStore p l2Blocks batches) as (Hdb & Hiv & _).
  destruct (collect l2Blocks batches p) as [[[bn ds]|e] p1] eqn:Hcol;
    simpl in Hdb, Hiv; [|by left].
  rewrite process_writes.
  destruct (forOf _ _ p1) as [[[]|e] p'] eqn:Hwrites.
  - apply forOf_awaitWrite_ok in Hwrites. by rewrite Hwrites.
  - right. apply forOf_awaitWrite_err in Hwrites
      as (accepted & call & rest & Hw & Hp' & Hfail).
    exists bn, ds, p1, lastBlock, accepted, call, rest.
    rewrite <- Hiv. by split_and!.
Qed.

(** Of the writes that come before another of [writesOf], none sets the
    synced block. *)
Lemma writesOf_before blocksAndNotes deferredNotes account lastBlock
    accepted call rest :
  Fallible.writesOf blocksAndNotes deferredNotes account lastBlock
    = accepted ++ call :: rest →
  Forall leavesSynchedBlock accepted.
Proof.
  unfold Fallible.writesOf. cbv zeta.
  match goal with |- ?a ++ ?b ++ ?c ++ [?d] = _ → _ =>
    assert (Hbefore : Forall leavesSynchedBlock (a ++ b ++ c))
      by (repeat apply Forall_app_2; repeat case_bool_decide;
          repeat apply Forall_cons_2; try apply Forall_nil_2; by intros ??);
    replace (a ++ b ++ c ++ [d]) with ((a ++ b ++ c) ++ [d])
      by (by rewrite <- !app_assoc);
    generalize dependent (a ++ b ++ c)
  end.
  intros before Hbefore Heq.
  destruct (decide (rest = [])) as [->|Hrest].
  - apply app_inj_tail in Heq as [<- _]. done.
  - destruct (exists_last Hrest) as (rest' & x & ->).
    rewrite app_comm_cons, app_assoc in Heq.
    apply app_inj_tail in Heq as [-> _].
    by apply Forall_app in Hbefore as [Hbefore _].
Qed.

End DatabaseFailureFacts.

(** ** The journal of a database that can reject writes *)

Section RejectedWrites.
Context `{P2P.Collaborators} `{!P2P.PoolFailures}
  `{PXE.Collaborators} {Db Sim : Type}
  `{!PXE.PxeDatabase Db} `{!PXE.DatabaseFailures Db} `{!PXE.AcirSimulator Sim}.
Import PXE.

Local Abbreviation JP := (NoteProcessor (Journaled Db) Sim).

Lemma perform_journaled (call : DbCall) (j : Journaled Db) :
  journal (perform call j) = journal j ++ [call] ∧
  store (perform call j) = perform call (store j).
Proof. by destruct call. Qed.

Lemma perform_all_journaled (writes : list DbCall) :
  ∀ j : Journaled Db,
    journal (foldl (λ d call, perform call d) j writes) = journal j ++ writes ∧
    store (foldl (λ d call, perform call d) j writes)
    = foldl (λ d call, perform call d) (store j) writes.
Proof.
  induction writes as [|call writes IH]; intros j; simpl.
  - by rewrite app_nil_r.
  - destruct (IH (perform call j)) as [-> ->].
    destruct (perform_journaled call j) as [-> ->].
    by rewrite <- app_assoc.
Qed.

(** Writes that are not [setSynchedBlockNumberForPublicKey] leave the
    synced block as it is, in a database that keeps it apart. *)
Lemma perform_all_synched (writes : list DbCall) (account : PublicKey) :
  (∀ account call (d : Db), leavesSynchedBlock call →
     getSynchedBlockNumberForPublicKey account (perform call d)
     = getSynchedBlockNumberForPublicKey account d) →
  Forall leavesSynchedBlock writes →
  ∀ d : Db,
    getSynchedBlockNumberForPublicKey account
      (foldl (λ d call, perform call d) d writes)
    = getSynchedBlockNumberForPublicKey account d.
Proof.
  intros Hframe Hwrites. induction Hwrites as [|call writes Hcall _ IH];
    intros d; simpl; [done|].
  by rewrite IH, Hframe.
Qed.

(** What the database has after a call of [process] in which the write
    [call] was rejected. *)
Lemma process_rejected (p p' p1 : JP) l2Blocks batches lastBlock
    blocksAndNotes deferredNotes accepted call rest :
  length l2Blocks = length batches →
  last l2Blocks = Some lastBlock →
  collect l2Blocks batches p = (Ok (blocksAndNotes, deferredNotes), p1) →
  Fallible.writesOf blocksAndNotes deferredNotes (ivpkM p) lastBlock
    = accepted ++ call :: rest →
  p' = foldl (λ q call, Fallible.commit call q) p1 accepted →
  ivpkM p' = ivpkM p ∧ startingBlock p' = startingBlock p ∧
  journal (db p') = journal (db p) ++ accepted ∧
  store (db p') = foldl (λ d call, perform call d) (store (db p)) accepted ∧
  Forall leavesSynchedBlock accepted ∧
  ∃ p'', process l2Blocks batches p = (Ok tt, p'') ∧
         journal (db p'') = journal (db p) ++ accepted ++ call :: rest.
Proof.
  intros Hlen Hlast Hcol Hwrites ->.
  pose proof (collect_sameStore p l2Blocks batches) as (Hdb & Hiv & _ & _ & Hst).
  rewrite Hcol in Hdb, Hiv, Hst. simpl in Hdb, Hiv, Hst.
  destruct (commit_all_keys accepted p1) as (-> & _ & _ & -> & _ & _ & ->).
  destruct (perform_all_journaled accepted (db p1)) as [-> ->].
  rewrite Hdb. split_and!; try done.
  { by eapply writesOf_before. }
  rewrite (process_nonempty _ _ _ _ Hlen Hlast), Hcol, process_writes.
  eexists. split; [reflexivity|].
  destruct (commit_all_keys
              (Fallible.writesOf blocksAndNotes deferredNotes (ivpkM p1) lastBlock)
              p1) as (_ & _ & _ & _ & _ & _ & ->).
  destruct (perform_all_journaled
              (Fallible.writesOf blocksAndNotes deferredNotes (ivpkM p1) lastBlock)
              (db p1)) as [-> _].
  by rewrite Hiv, Hwrites, Hdb.
Qed.

(** C2 (as the code has it). In a call given a batch whose last block
    number is not below the synced block, the synced block of the client
    and that of a processor do not go back (the database being one that
    keeps the synced block apart and answers with the one last set). And
    the synced block is written after the batch's other changes and only
    when they were made. When the pool fails to delete, [handleL2Blocks]
    throws and the client's block number is as before; when it returns,
    all deletions are done. When [process] throws, be it an error of its
    own or a write that the database rejects, no write that was accepted
    sets the synced block; when it returns, it has made no write at all
    (an empty batch) or has set the synced block with its last write,
    after all the others were accepted. *)
Theorem synced_block_advances (c : P2P.P2PClient) (blocks : list P2P.L2Block)
    (p : JP) (l2Blocks : list L2Block)
    (batches : list EncryptedNoteL2BlockL2Logs) :
  (∀ account n (d : Db),
     getSynchedBlockNumberForPublicKey account
       (setSynchedBlockNumberForPublicKey account n d) = Some n) →
  (∀ account call (d : Db), leavesSynchedBlock call →
     getSynchedBlockNumberForPublicKey account (perform call d)
     = getSynchedBlockNumberForPublicKey account d) →
  (∀ b, last blocks = Some b → P2P.currentL2BlockNum c ≤ P2P.number b) →
  (∀ b, last l2Blocks = Some b → getSyncedToBlock p ≤ number b) →
  match P2P.Fallible.handleL2Blocks blocks c with
  | (Ok _, c') =>
      P2P.currentL2BlockNum c ≤ P2P.currentL2BlockNum c' ∧
      P2P.txPool c' = P2P.reconciled blocks (P2P.txPool c) ∧
      P2P.handleL2Blocks blocks c = (Ok tt, c')
  | (Err e, c') =>
      P2P.currentL2BlockNum c' = P2P.currentL2BlockNum c ∧
      ∃ ids, P2P.deleteFails ids (P2P.txPool c') = Some e
  end ∧
  match Fallible.process l2Blocks batches p with
  | (Ok _, p') =>
      getSyncedToBlock p ≤ getSyncedToBlock p' ∧
      process l2Blocks batches p = (Ok tt, p') ∧
      ((l2Blocks = [] ∧ journal (db p') = journal (db p)) ∨
       ∃ others b,
         last l2Blocks = Some b ∧
         journal (db p') =
           journal (db p) ++ others
           ++ [SetSynchedBlockNumberForPublicKey (ivpkM p) (number b)] ∧
         Forall leavesSynchedBlock others ∧
         getSyncedToBlock p' = number b)
  | (Err e, p') =>
      getSyncedToBlock p' = getSyncedToBlock p ∧
      ∃ accepted,
        journal (db p') = journal (db p) ++ accepted ∧
        Forall leavesSynchedBlock accepted
  end.
Proof.
  intros Hlaw Hframe Hc Hp. split.
  - pose proof (handleL2Blocks_fallible blocks c) as Hf.
    destruct (P2P.Fallible.handleL2Blocks blocks c) as [[[]|e] c'].
    + destruct (last blocks) as [b|] eqn:Hlast.
      * destruct (handleL2Blocks_spec blocks b c Hlast) as (c2 & E2 & N2 & P2 & _).
        rewrite E2 in Hf. simplify_eq. rewrite N2.
        split_and!; [by apply Hc|done|done].
      * rewrite handleL2Blocks_empty in Hf by done. simplify_eq.
        apply last_None in Hlast. subst blocks. by split_and!.
    + destruct Hf as [(_ & _ & _ & Hnum & _) Hids]. by split.
  - pose proof (process_fallible p l2Blocks batches) as Hf.
    destruct (Fallible.process l2Blocks batches p) as [[[]|e] p'].
    + split_and!; [|done|].
      * destruct (last l2Blocks) as [b|] eqn:Hlast.
        -- destruct (process_returns_synced _ _ _ _ _ Hlast Hf)
             as (Hiv' & _ & d & Hd).
           unfold getSyncedToBlock at 2. rewrite Hd, Hiv'. simpl.
           rewrite Hlaw. by apply Hp.
        -- apply last_None in Hlast. subst l2Blocks.
           destruct batches; [|done]. rewrite process_empty in Hf.
           simplify_eq. lia.
      * destruct (last l2Blocks) as [b|] eqn:Hlast.
        -- right.
           assert (Hlen : length l2Blocks = length batches).
           { destruct (decide (length l2Blocks = length batches)); [done|].
             by rewrite process_mismatch in Hf. }
           destruct (collect l2Blocks batches p) as [[[bn ds]|e] p1] eqn:Hcol;
             [|by rewrite (process_nonempty _ _ _ _ Hlen Hlast), Hcol in Hf].
           pose proof (process_journal _ _ _ _ _ _ _ _ Hlen Hlast Hcol Hf) as Hj.
           cbv zeta in Hj.
           match type of Hj with
           | _ = _ ++ ?x ++ ?y ++ ?z ++ _ => exists (x ++ y ++ z), b
           end.
           split; [done|].
           split; [rewrite Hj; by rewrite <- !app_assoc|].
           split.
           { repeat apply Forall_app_2; repeat case_bool_decide;
               repeat apply Forall_cons_2; try apply Forall_nil_2; by intros ??. }
           destruct (process_returns_synced _ _ _ _ _ Hlast Hf)
             as (Hiv' & _ & d & Hd).
           unfold getSyncedToBlock. rewrite Hd, Hiv'. simpl. by rewrite Hlaw.
        -- left. apply last_None in Hlast. subst l2Blocks.
           destruct batches; [|done]. rewrite process_empty in Hf.
           by simplify_eq.
    + destruct Hf as [[Hthrow Hdb]|
        (bn & ds & p1 & b & accepted & call & rest
         & Hlen & Hlast & Hcol & Hwrites & Hp' & Hfail)].
      * pose proof (process_throws_sameStore _ _ _ _ _ Hthrow) as Hs.
        split; [by apply getSyncedToBlock_sameStore|].
        exists []. rewrite app_nil_r, Hdb. by split.
      * destruct (process_rejected p p' p1 l2Blocks batches b bn ds
                    accepted call rest Hlen Hlast Hcol Hwrites Hp')
          as (Hiv & Hst & Hj & Hstore & Hleaves & _).
        split; [|by exists accepted].
        unfold getSyncedToBlock. rewrite Hiv, Hst. simpl.
        by rewrite Hstore, (perform_all_synched _ _ Hframe Hleaves).
Qed.

(** X8. [process] is not all or nothing when the database rejects a write.
    A call that throws either throws what it throws on a database that
    accepts every write, an error of [process] itself raised before any
    write, and then the database is untouched; or one of its writes was
    rejected, and then the writes before it stay written: the journal has
    them, in order, and neither the rejected write nor those that would
    have followed, none of them sets the synced block, and the error is
    the one the database rejected the write with. *)
Theorem process_rejected_write (p p' : JP) l2Blocks batches (e : Error) :
  Fallible.process l2Blocks batches p = (Err e, p') →
  (process l2Blocks batches p = (Err e, p') ∧ db p' = db p) ∨
  (∃ p'' accepted call rest,
     process l2Blocks batches p = (Ok tt, p'') ∧
     journal (db p'') = journal (db p) ++ accepted ++ call :: rest ∧
     journal (db p') = journal (db p) ++ accepted ∧
     store (db p') = foldl (λ d call, perform call d) (store (db p)) accepted ∧
     Forall leavesSynchedBlock accepted ∧
     writeFails call (db p') = Some e).
Proof.
  intros Hrun.
  pose proof (process_fallible p l2Blocks batches) as Hf.
  rewrite Hrun in Hf.
  destruct Hf as [Hthrow|
    (bn & ds & p1 & b & accepted & call & rest
     & Hlen & Hlast & Hcol & Hwrites & Hp' & Hfail)]; [by left|].
  right.
  destruct (process_rejected p p' p1 l2Blocks batches b bn ds
              accepted call rest Hlen Hlast Hcol Hwrites Hp')
    as (_ & _ & Hj & Hstore & Hleaves & p'' & Hok & Hj'').
  exists p'', accepted, call, rest. by split_and!.
Qed.

End RejectedWrites.

(** * The theorems on sample runs *)

Section Runs.
Import PXE Sample.

(** The run of C1's theorem: a block whose transaction has an incoming
    note of a known contract and one of an unknown contract. *)
Lemma process_database_calls_witness :
  let p := processor emptyJournaled in
  let l2Blocks := [blockOf 10 [26] [5]] in
  let batches := [batchOf [logIncoming; logDeferred]] in
  last l2Blocks = Some (blockOf 10 [26] [5]) ∧
  process l2Blocks batches p = (Ok tt, snd (process l2Blocks batches p)) ∧
  ∃ blocksAndNotes deferredNotes p1,
    collect l2Blocks batches p = (Ok (blocksAndNotes, deferredNotes), p1) ∧
    let incoming := blocksAndNotes ≫= ProcessedData.incomingNotes in
    let outgoing := blocksAndNotes ≫= ProcessedData.outgoingNotes in
    journal (db (snd (process l2Blocks batches p))) =
      journal (db p)
      ++ (if bool_decide (incoming ≠ [] ∨ outgoing ≠ [])
          then [AddNotes incoming outgoing] else [])
      ++ [RemoveNullifiedNotes (nullifiersOf l2Blocks) (ivpkM p)]
      ++ (if bool_decide (deferredNotes ≠ [])
          then [AddDeferredNotes deferredNotes] else [])
      ++ [SetSynchedBlockNumberForPublicKey (ivpkM p)
            (number (blockOf 10 [26] [5]))].
Proof.
  intros p l2Blocks batches.
  split; [reflexivity|]. split; [vm_compute; reflexivity|].
  apply (process_database_calls p _ l2Blocks batches (blockOf 10 [26] [5]));
    [reflexivity|vm_compute; reflexivity].
Defined.

(** C1, as the specification states it, fails on that run: the deferred
    notes are persisted after the nullified notes are removed, not before. *)
Lemma process_database_calls_counterexample :
  let r := process [blockOf 10 [26] [5]] [batchOf [logIncoming; logDeferred]]
             (processor emptyJournaled) in
  fst r = Ok tt ∧
  journal (db (snd r)) =
    [AddNotes [noteIncoming 10] [];
     RemoveNullifiedNotes [5] 1;
     AddDeferredNotes [noteDeferred 10 [26]];
     SetSynchedBlockNumberForPublicKey 1 10] ∧
  ¬ specifiedOrder (journal (db (snd r))).
Proof.
  split; [vm_compute; reflexivity|].
  split; [vm_compute; reflexivity|].
  intros (i & o & d & n & a & w & Heq). vm_compute in Heq. discriminate Heq.
Qed.

(** The run of C2's theorem: a client and a processor that have synced
    nothing, given a batch each, with a pool and a store that accept what
    the batches ask of them. *)
Lemma synced_block_advances_witness :
  let c := P2P.new (H := p2p) [1; 2; 3] in
  let blocks : list (P2P.L2Block (Collaborators := p2p)) := [(5, [1; 2])] in
  let p := processor emptyJournaled in
  let l2Blocks := [blockOf 10 [26] [5]] in
  let batches := [batchOf [logIncoming]] in
  let c' := snd (P2P.Fallible.handleL2Blocks blocks c) in
  let p' := snd (Fallible.process l2Blocks batches p) in
  (∀ account n (d : MemoryDb.t),
     getSynchedBlockNumberForPublicKey account
       (setSynchedBlockNumberForPublicKey account n d) = Some n) ∧
  (∀ account call (d : MemoryDb.t), leavesSynchedBlock call →
     getSynchedBlockNumberForPublicKey account (perform call d)
     = getSynchedBlockNumberForPublicKey account d) ∧
  (∀ b, last blocks = Some b → P2P.currentL2BlockNum c ≤ P2P.number b) ∧
  (∀ b, last l2Blocks = Some b → getSyncedToBlock p ≤ number b) ∧
  (P2P.currentL2BlockNum c ≤ P2P.currentL2BlockNum c' ∧
   P2P.txPool c' = P2P.reconciled blocks (P2P.txPool c)) ∧
  (getSyncedToBlock p ≤ getSyncedToBlock p' ∧
   process l2Blocks batches p = (Ok tt, p')).
Proof.
  intros c blocks p l2Blocks batches c' p'.
  assert (H0 : ∀ account n (d : MemoryDb.t),
     getSynchedBlockNumberForPublicKey account
       (setSynchedBlockNumberForPublicKey account n d) = Some n).
  { intros account n d. simpl. apply lookup_insert_eq. }
  assert (H1 : ∀ account call (d : MemoryDb.t), leavesSynchedBlock call →
     getSynchedBlockNumberForPublicKey account (perform call d)
     = getSynchedBlockNumberForPublicKey account d).
  { intros account call d Hcall. destruct call; try reflexivity.
    by destruct (Hcall account0 blockNumber). }
  assert (H2 : ∀ b, last blocks = Some b → P2P.currentL2BlockNum c ≤ P2P.number b).
  { intros b [= <-]. simpl. lia. }
  assert (H3 : ∀ b, last l2Blocks = Some b → getSyncedToBlock p ≤ number b).
  { intros b [= <-]. vm_compute. discriminate. }
  split; [exact H0|]. split; [exact H1|]. split; [exact H2|]. split; [exact H3|].
  destruct (synced_block_advances c blocks p l2Blocks batches H0 H1 H2 H3)
    as [Hc Hp].
  assert (Ec : P2P.Fallible.handleL2Blocks blocks c = (Ok tt, c'))
    by (vm_compute; reflexivity).
  assert (Ep : Fallible.process l2Blocks batches p = (Ok tt, p'))
    by (vm_compute; reflexivity).
  rewrite Ec in Hc. rewrite Ep in Hp.
  destruct Hc as (Hc1 & Hc2 & _). destruct Hp as (Hp1 & Hp2 & _).
  split; [split; [exact Hc1|exact Hc2]|split; [exact Hp1|exact Hp2]].
Defined.

(** When the pool fails on the second block of a batch, the first block's
    transactions are deleted and the client's block number is as before;
    when the store rejects the removal of the nullified notes, the notes of
    the batch are written and the synced block is not set. *)
Example synced_block_not_set_run :
  let c := P2P.new (H := p2p) [1; 2; 3] in
  let rc := P2P.Fallible.handleL2Blocks [(5, [1]); (6, [0; 2])] c in
  let p := processor emptyJournaled in
  let rp := Fallible.process [blockOf 10 [26] [0]] [batchOf [logIncoming]] p in
  (fst rc = Err StorageError ∧ P2P.txPool (snd rc) = [2; 3] ∧
   P2P.currentL2BlockNum (snd rc) = 0) ∧
  (fst rp = Err StorageError ∧
   journal (db (snd rp)) = [AddNotes [noteIncoming 10] []] ∧
   getSyncedToBlock (snd rp) = 0).
Proof. by vm_compute. Qed.

(** C2, as the specification states it, fails when a later batch ends
    with a lower block number: the client that has synced to block 5 and
    the processor that has synced to block 10 both go back to block 3. *)
Lemma synced_block_advances_counterexample :
  let c5 := P2P.run (P2P.new (H := p2p) [])
              [P2P.OpStart 0; P2P.OpBlockProcess [(5, [])]] in
  let c3 := P2P.step c5 (P2P.OpBlockProcess [(3, [])]) in
  let p10 := snd (process [blockOf 10 [] []] [batchOf []]
                    (processor MemoryDb.empty)) in
  let p3 := snd (process [blockOf 3 [] []] [batchOf []] p10) in
  (P2P.currentL2BlockNum c5 = 5 ∧ P2P.currentL2BlockNum c3 = 3 ∧
   P2P.currentL2BlockNum c3 < P2P.currentL2BlockNum c5) ∧
  (getSyncedToBlock p10 = 10 ∧ getSyncedToBlock p3 = 3 ∧
   getSyncedToBlock p3 < getSyncedToBlock p10).
Proof. vm_compute. repeat split; congruence. Qed.

(** The run of C3's theorem: the second log of the transaction decrypts
    as incoming to one payload and as outgoing to another. *)
Lemma process_payload_conflict_witness :
  let p := processor emptyJournaled in
  let l2Blocks := [blockOf 10 [26] [5]] in
  let batches := [batchOf [logIncoming; logConflict; logDeferred]] in
  aligned l2Blocks batches ∧
  hasPayloadConflict (ivpkM p) (ovpkM p) batches ∧
  ∃ p', process l2Blocks batches p = (Err DecryptionPayloadConflict, p') ∧
        db p' = db p ∧
        getSyncedToBlock p' = getSyncedToBlock p.
Proof.
  intros p l2Blocks batches.
  assert (H1 : aligned l2Blocks batches).
  { repeat constructor. }
  assert (H2 : hasPayloadConflict (ivpkM p) (ovpkM p) batches).
  { apply Exists_cons_tl, Exists_cons_hd. reflexivity. }
  split; [exact H1|]. split; [exact H2|].
  apply (process_payload_conflict p l2Blocks batches H1 H2).
Defined.

(** The run of C4's theorem: one block, no log batch. *)
Lemma process_mismatch_or_empty_witness :
  let p := processor emptyJournaled in
  let l2Blocks := [blockOf 10 [26] [5]] in
  length l2Blocks ≠ length (@nil EncryptedNoteL2BlockL2Logs) ∧
  process l2Blocks [] p = (Err (BatchLengthMismatch 1 0), p) ∧
  process [] [] p = (Ok tt, p).
Proof.
  intros p l2Blocks.
  assert (H1 : length l2Blocks ≠ length (@nil EncryptedNoteL2BlockL2Logs)).
  { simpl. lia. }
  split; [exact H1|].
  destruct (process_mismatch_or_empty p l2Blocks []) as [Hm He].
  split; [exact (Hm H1)|exact He].
Defined.

(** The run of C5's theorem: block 5 creates a note, block 6 nullifies it
    and creates another. *)
Lemma process_in_two_calls_witness :
  let p := processor MemoryDb.empty in
  let b1 := [blockOf 5 [26] []] in
  let l1 := [batchOf [logIncoming]] in
  let b2 := [blockOf 6 [27] [1026]] in
  let l2 := [batchOf [logIncoming']] in
  let pw := snd (process (b1 ++ b2) (l1 ++ l2) p) in
  length b1 = length l1 ∧
  length b2 = length l2 ∧
  process (b1 ++ b2) (l1 ++ l2) p = (Ok tt, pw) ∧
  (∀ acc p2, collect b2 l2 (snd (process b1 l1 p)) = (Ok acc, p2) →
     Forall (λ n, ¬ MemoryDb.nullified (nullifiersOf b1) (ivpkM p) n)
            (fst acc ≫= ProcessedData.incomingNotes)) ∧
  ∃ p1, process b1 l1 p = (Ok tt, p1) ∧ process b2 l2 p1 = (Ok tt, pw).
Proof.
  intros p b1 l1 b2 l2 pw.
  assert (H3 : process (b1 ++ b2) (l1 ++ l2) p = (Ok tt, pw)).
  { vm_compute. reflexivity. }
  assert (H4 : ∀ acc p2, collect b2 l2 (snd (process b1 l1 p)) = (Ok acc, p2) →
     Forall (λ n, ¬ MemoryDb.nullified (nullifiersOf b1) (ivpkM p) n)
            (fst acc ≫= ProcessedData.incomingNotes)).
  { intros acc p2 Hcol. apply Forall_forall. intros n _ [_ Hn].
    vm_compute in Hn. inversion Hn. }
  split; [reflexivity|]. split; [reflexivity|].
  split; [exact H3|]. split; [exact H4|].
  apply (process_in_two_calls p pw b1 l1 b2 l2 eq_refl eq_refl H3 H4).
Defined.

(** C5, as the specification states it, fails in two ways. When the
    second part of the sequence has a log in conflict, the one call throws
    and commits nothing, the two calls leave the first part committed. And
    when the first part emits the nullifier of a note that the second part
    creates, the one call removes the note, the two calls keep it. *)
Lemma process_in_two_calls_counterexample :
  let p := processor MemoryDb.empty in
  (let b1 := [blockOf 5 [26] []] in
   let l1 := [batchOf [logIncoming]] in
   let b2 := [blockOf 6 [] []] in
   let l2 := [batchOf [logConflict]] in
   let whole := snd (process (b1 ++ b2) (l1 ++ l2) p) in
   let parts := snd (process b2 l2 (snd (process b1 l1 p))) in
   (MemoryDb.notes (db whole) = [] ∧ getSyncedToBlock whole = 0) ∧
   (MemoryDb.notes (db parts) = [noteIncoming 5] ∧ getSyncedToBlock parts = 5) ∧
   db whole ≠ db parts) ∧
  (let b1 := [blockOf 5 [] [1026]] in
   let l1 := [batchOf []] in
   let b2 := [blockOf 6 [26] []] in
   let l2 := [batchOf [logIncoming]] in
   let whole := process (b1 ++ b2) (l1 ++ l2) p in
   let parts := process b2 l2 (snd (process b1 l1 p)) in
   fst whole = Ok tt ∧ fst parts = Ok tt ∧
   MemoryDb.notes (db (snd whole)) = [] ∧
   MemoryDb.notes (db (snd parts)) = [noteIncoming 6] ∧
   db (snd whole) ≠ db (snd parts)).
Proof.
  split.
  - split; [by vm_compute|]. split; [by vm_compute|].
    intros Heq. apply (f_equal MemoryDb.notes) in Heq.
    vm_compute in Heq. discriminate Heq.
  - split; [by vm_compute|]. split; [by vm_compute|].
    split; [by vm_compute|]. split; [by vm_compute|].
    intros Heq. apply (f_equal MemoryDb.notes) in Heq.
    vm_compute in Heq. discriminate Heq.
Qed.

(** The offsets on a run: the transaction of block 10, the only one of a block
    padded to one transaction, starts at leaf 10 * 64 - 1 * 64. *)
Example produceNoteDaos_offsets_run :
  map argDataStartIndexForTx
    (calls (simulator (snd (process [blockOf 10 [26] [5]]
       [batchOf [logIncoming; logForeign; logDeferred]]
       {| stats := noStats; account := 9; ivpkM := 1; ovpkM := 2;
          db := MemoryDb.empty; startingBlock := 1;
          simulator := {| calls := []; underlying := ({[1]} : gset Z) |} |}))))
  = [576; 576].
Proof. by vm_compute. Qed.

(** The run of C6's theorem: two blocks of two transactions each. In each
    block the first transaction has one log that decrypts and the second
    another; their calls have the offsets of the transactions at index 0
    and at index 1. *)
Lemma produceNoteDaos_offsets_witness :
  let p := recordingProcessor MemoryDb.empty in
  let l2Blocks := [blockOfTwo 10; blockOfTwo 11] in
  let batches := [batchOfTwo; batchOfTwo] in
  fst (process l2Blocks batches p) = Ok tt ∧
  map argsOfTx (calls (simulator (snd (process l2Blocks batches p))))
  = [(710, [26], 512); (810, [27], 576); (711, [26], 576); (811, [27], 640)].
Proof.
  intros p l2Blocks batches.
  assert (H1 : fst (process l2Blocks batches p) = Ok tt)
    by (vm_compute; reflexivity).
  split; [exact H1|].
  destruct (produceNoteDaos_offsets p l2Blocks batches)
    as (new & Hcalls & _ & Hall).
  rewrite Hcalls. exact (Hall H1).
Defined.

(** The run of X19's theorem: a client that was started and has synced is
    stopped; afterwards calls of [start] and [sendTx] overlap. *)
Lemma start_fails_once_stopped_witness :
  let s := P2P.occurAll (P2P.settled (P2P.new (H := p2p) [1; 2]))
             [P2P.StartCalled; P2P.StartResumed 7;
              P2P.Call (P2P.OpBlockProcess [(7, [1])]);
              P2P.SendTxCalled 4] in
  let later : list (P2P.Event (H := p2p)) :=
    [P2P.StartCalled; P2P.SendTxResumed; P2P.StartResumed 9;
     P2P.Call (P2P.OpStart 9)] in
  let stopped := P2P.occur s (P2P.Call (P2P.OpStop [])) in
  let c := P2P.client (P2P.occurAll stopped later) in
  P2P.startsAwaiting s = 0%nat ∧
  P2P.currentState c = P2P.STOPPED ∧
  P2P.startCalled c = (Err AlreadyStopped, c) ∧
  P2P.start 11 c = (Err AlreadyStopped, c).
Proof.
  intros s later stopped c.
  assert (H1 : P2P.startsAwaiting s = 0%nat) by reflexivity.
  split; [exact H1|].
  apply (start_fails_once_stopped s [] later 11 H1).
Defined.

(** C7 fails when a call of [start] is suspended at its [await] while
    [stop()] completes. A new client; [start()] is called and awaits the
    remote tip; [stop()] is called and completes, and the client is
    [STOPPED]; the tip arrives and the suspended call resumes, without
    looking at the state again, and makes the client [RUNNING]. From then
    on [start()] returns instead of throwing the already-stopped error,
    [isReady()] answers [true] and [sendTx] adds to the pool. *)
Theorem start_resumed_after_stop :
  let s := P2P.occurAll (P2P.settled (P2P.new (H := p2p) [1]))
             [P2P.StartCalled; P2P.Call (P2P.OpStop [])] in
  let c := P2P.client (P2P.occur s (P2P.StartResumed 0)) in
  P2P.startsAwaiting s = 1%nat ∧
  P2P.currentState (P2P.client s) = P2P.STOPPED ∧
  P2P.currentState c = P2P.RUNNING ∧
  P2P.start 9 c = (Ok Resolved, c) ∧
  fst (P2P.isReady c) = Ok true ∧
  P2P.getAllTxs (P2P.txPool (snd (P2P.sendTx 4 c))) = [1; 4].
Proof.
  intros s c.
  assert (Hstopped : P2P.currentState (P2P.client s) = P2P.STOPPED)
    by (vm_compute; reflexivity).
  assert (Hrunning : P2P.currentState c = P2P.RUNNING)
    by (vm_compute; reflexivity).
  split; [vm_compute; reflexivity|]. split; [exact Hstopped|].
  split; [exact Hrunning|].
  split; [apply start_not_idle; rewrite Hrunning; discriminate|].
  split; vm_compute; reflexivity.
Qed.

(** The run of C8's theorem: a new client, and no block yet at the remote. *)
Lemma start_when_caught_up_witness :
  let c := P2P.new (H := p2p) [] in
  P2P.currentState c = P2P.IDLE ∧
  0 < P2P.currentL2BlockNum c + 1 ∧
  ∃ c', P2P.start 0 c = (Ok Resolved, c') ∧
        P2P.currentState c' = P2P.RUNNING ∧
        P2P.syncPromise c' = Resolved ∧
        P2P.log c' = P2P.log c ++
          [P2P.MovedToState P2P.RUNNING;
           P2P.NextBlockBeyondLatest (P2P.currentL2BlockNum c + 1) 0;
           P2P.StartedBlockDownloader (P2P.currentL2BlockNum c + 1)].
Proof.
  intros c.
  assert (H1 : P2P.currentState c = P2P.IDLE) by reflexivity.
  assert (H2 : 0 < P2P.currentL2BlockNum c + 1) by (simpl; lia).
  split; [exact H1|]. split; [exact H2|].
  apply (start_when_caught_up c 0 H1 H2).
Defined.

(** A client that was started, synced and stopped cannot be started. *)
Example start_after_stop_fails_run :
  let c := P2P.run (P2P.new (H := p2p) [1; 2])
             [P2P.OpStart 7; P2P.OpBlockProcess [(7, [1])]; P2P.OpStop [];
              P2P.OpStart 9; P2P.OpSendTx 4] in
  P2P.currentState c = P2P.STOPPED ∧
  fst (P2P.start 9 c) = Err AlreadyStopped ∧
  P2P.getAllTxs (P2P.txPool c) = [2].
Proof. by vm_compute. Qed.

(** The run of C9's theorem: a record of another account, then a record of
    this account whose note hash is not among the transaction's. *)
Lemma decodeDeferredNotes_skips_or_throws_witness :
  let p := processor MemoryDb.empty in
  let before := [deferredOf 5 [26]] in
  let d := deferredOf 1 [] in
  let rest := [deferredOf 1 [26]] in
  foldM decodeDeferredNote before (∅, []) p = (Ok (∅, []), p) ∧
  DeferredNoteDao.ivpkM d = ivpkM p ∧
  decodeDeferredNotes (before ++ d :: rest) p
    = decodeDeferredNotes
        (filter (λ d, DeferredNoteDao.ivpkM d = ivpkM p) (before ++ d :: rest)) p ∧
  ∃ p', decodeDeferredNotes (before ++ d :: rest) p = (Err DeferredRetryFailed, p').
Proof.
  intros p before d rest.
  assert (H1 : foldM decodeDeferredNote before (∅, []) p = (Ok (∅, []), p))
    by (vm_compute; reflexivity).
  assert (H2 : DeferredNoteDao.ivpkM d = ivpkM p) by reflexivity.
  destruct (decodeDeferredNotes_skips_or_throws p before rest d) as [Hskip Hthrow].
  split; [exact H1|]. split; [exact H2|]. split; [exact Hskip|].
  apply (Hthrow ∅ [] p H1 H2). vm_compute. reflexivity.
Defined.

(** Without the failing record the call returns the note of this account's
    record and nothing for the other account's. *)
Example decodeDeferredNotes_run :
  fst (decodeDeferredNotes [deferredOf 5 [26]; deferredOf 1 [26]]
         (processor MemoryDb.empty))
  = Ok [noteIncoming 10].
Proof. by vm_compute. Qed.

(** The specification's scenario: block 10 has an incoming note for the
    account, block 11 nullifies it. *)
Example process_block_10_then_11 :
  let p10 := snd (process [blockOf 10 [26] []] [batchOf [logIncoming]]
                    (processor MemoryDb.empty)) in
  let p11 := snd (process [blockOf 11 [] [1026]] [batchOf [logForeign]] p10) in
  MemoryDb.notes (db p10) = [noteIncoming 10] ∧ getSyncedToBlock p10 = 10 ∧
  MemoryDb.notes (db p11) = [] ∧ getSyncedToBlock p11 = 11.
Proof. by vm_compute. Qed.

(** The run of C10's theorem: a processor starting at block 1, on an empty
    store, with the node at block 0. *)
Lemma status_before_first_batch_witness :
  let p := processor MemoryDb.empty in
  getSynchedBlockNumberForPublicKey (ivpkM p) (db p) = None ∧
  syncedToBlock (status p) = startingBlock p - 1 ∧
  isSynchronized 0 p = bool_decide (startingBlock p - 1 = 0).
Proof.
  intros p.
  assert (H1 : getSynchedBlockNumberForPublicKey (ivpkM p) (db p) = None)
    by reflexivity.
  split; [exact H1|].
  apply (status_before_first_batch p 0 H1).
Defined.

End Runs.

(** * Further runs *)

Section FurtherRuns.
Import PXE Sample.


(** The run of X3's theorem: two calls of [start] overlap and the second
    resumes when the first has made the client [RUNNING]; from there on,
    the client is sent a transaction and is stopped, and the
    transaction's call resumes. *)
Lemma state_only_moves_forward_witness :
  let s := P2P.settled (P2P.new (H := p2p) [1; 2]) in
  let events : list (P2P.Event (H := p2p)) :=
    [P2P.StartCalled; P2P.StartCalled; P2P.StartResumed 0;
     P2P.StartResumed 7] in
  let more : list (P2P.Event (H := p2p)) :=
    [P2P.Call (P2P.OpBlockProcess [(7, [1])]); P2P.SendTxCalled 4;
     P2P.StartCalled; P2P.StartResumed 9;
     P2P.Call (P2P.OpStop []); P2P.SendTxResumed] in
  P2P.resumedWhileIdle (P2P.occurAll s events) more ∧
  (P2P.rank (P2P.currentState (P2P.client (P2P.occurAll s events)))
   ≤ P2P.rank (P2P.currentState
                 (P2P.client (P2P.occurAll s (events ++ more)))))%nat.
Proof.
  intros s events more.
  assert (H1 : P2P.resumedWhileIdle (P2P.occurAll s events) more).
  { simpl. by split_and!. }
  split; [exact H1|].
  apply (state_only_moves_forward s events more H1).
Defined.

(** When a second [start] resumes in a client that the first has made
    [RUNNING], and the remote tip has moved on, the state goes back to
    [SYNCHING]. *)
Example state_goes_back_run :
  let s := P2P.occurAll (P2P.settled (P2P.new (H := p2p) []))
             [P2P.StartCalled; P2P.StartCalled; P2P.StartResumed 0] in
  P2P.currentState (P2P.client s) = P2P.RUNNING ∧
  P2P.currentState (P2P.client (P2P.occur s (P2P.StartResumed 3)))
    = P2P.SYNCHING ∧
  P2P.strayLoops (P2P.occur s (P2P.StartResumed 3)) = 1%nat.
Proof. by vm_compute. Qed.

(** The run of X4's theorem: a running client with a [sendTx] in flight
    that found it not ready is stopped; afterwards calls overlap. *)
Lemma stopped_client_is_frozen_witness :
  let s := P2P.occurAll (P2P.settled (P2P.new (H := p2p) [1; 2]))
             [P2P.SendTxCalled 4; P2P.Call (P2P.OpStart 0);
              P2P.Call (P2P.OpSendTx 5)] in
  let inflight : list (P2P.L2Block (Collaborators := p2p)) := [(3, [1])] in
  let later : list (P2P.Event (H := p2p)) :=
    [P2P.SendTxResumed; P2P.SendTxCalled 6; P2P.StartCalled;
     P2P.SendTxResumed; P2P.StrayLoopIteration [(4, [2])];
     P2P.Call (P2P.OpBlockProcess [(4, [2])])] in
  let stopped := P2P.client (P2P.occur s (P2P.Call (P2P.OpStop inflight))) in
  let c := P2P.client
             (P2P.occurAll (P2P.occur s (P2P.Call (P2P.OpStop inflight))) later) in
  P2P.startsAwaiting s = 0%nat ∧
  Forall (λ sent, snd sent = false) (P2P.sendsAwaiting s) ∧
  P2P.strayLoops s = 0%nat ∧
  P2P.currentState c = P2P.STOPPED ∧
  P2P.txPool c = P2P.txPool stopped ∧
  P2P.getTxs c = (Ok (P2P.getAllTxs (P2P.txPool stopped)), c) ∧
  P2P.getAllTxs (P2P.txPool stopped) = [2; 5].
Proof.
  intros s inflight later stopped c.
  assert (H1 : P2P.startsAwaiting s = 0%nat) by reflexivity.
  assert (H2 : Forall (λ sent, snd sent = false) (P2P.sendsAwaiting s)).
  { vm_compute. apply Forall_cons_2; [reflexivity|apply Forall_nil_2]. }
  assert (H3 : P2P.strayLoops s = 0%nat) by reflexivity.
  split; [exact H1|]. split; [exact H2|]. split; [exact H3|].
  destruct (stopped_client_is_frozen s inflight later H1 H2 H3)
    as (Hs & Hp & _ & _ & Hg).
  split; [exact Hs|]. split; [exact Hp|]. split; [exact Hg|].
  vm_compute. reflexivity.
Defined.

(** The run of X2's theorem: a new client, the remote at block 7, and a
    first delivery that ends at block 7. *)
Lemma start_then_sync_witness :
  let c := P2P.new (H := p2p) [1; 2; 3] in
  let blocks : list (P2P.L2Block (Collaborators := p2p)) := [(6, [2]); (7, [1])] in
  let c1 := snd (P2P.start 7 c) in
  let c2 := snd (P2P.blockProcessIteration blocks c1) in
  P2P.currentState c = P2P.IDLE ∧
  P2P.stopping c = false ∧
  P2P.currentL2BlockNum c + 1 ≤ 7 ∧
  last blocks = Some (7, [1]) ∧
  fst (P2P.start 7 c) = Ok Pending ∧
  P2P.currentState c1 = P2P.SYNCHING ∧
  fst (P2P.sendTx 4 c1) = Err NotReady ∧
  P2P.currentL2BlockNum c2 = 7 ∧
  P2P.currentState c2 = P2P.RUNNING ∧
  P2P.syncPromise c2 = Resolved ∧
  fst (P2P.sendTx 4 c2) = Ok tt.
Proof.
  intros c blocks c1 c2.
  assert (H1 : P2P.currentState c = P2P.IDLE) by reflexivity.
  assert (H2 : P2P.stopping c = false) by reflexivity.
  assert (H3 : P2P.currentL2BlockNum c + 1 ≤ 7) by (simpl; lia).
  assert (H4 : last blocks = Some (7, [1])) by reflexivity.
  destruct (start_then_sync c 7 blocks (7, [1]) 4 H1 H2 H3 H4)
    as ((Hp & Hs & _ & Hsend) & Hnum & _ & _ & Hrun).
  destruct Hrun as (Hstate & Hpromise & _ & Hsend'); [simpl; lia|].
  split; [exact H1|]. split; [exact H2|]. split; [exact H3|].
  split; [exact H4|]. split; [exact Hp|]. split; [exact Hs|].
  split; [exact Hsend|]. split; [exact Hnum|]. split; [exact Hstate|].
  split; [exact Hpromise|exact Hsend'].
Defined.

(** The run of X6's theorem: the sample pool holds the transactions of its
    list; of the pending transactions 1, 2 and 3, a block with 1 and 2
    leaves 3. *)
Lemma handleL2Blocks_removes_block_txs_witness :
  let holds := λ (id : P2P.TxId) (pool : P2P.TxPool), id ∈ pool in
  let c := P2P.new (H := p2p) [1; 2; 3] in
  let blocks : list (P2P.L2Block (Collaborators := p2p)) := [(5, [1; 2])] in
  (∀ ids pool id,
     holds id (P2P.deleteTxs ids pool) → holds id pool ∧ id ∉ ids) ∧
  holds 3 (P2P.txPool (snd (P2P.handleL2Blocks blocks c))) ∧
  holds 3 (P2P.txPool c) ∧
  ∀ b, b ∈ blocks → 3 ∉ P2P.createTxIds b.
Proof.
  intros holds c blocks.
  assert (H1 : ∀ ids pool id,
     holds id (P2P.deleteTxs ids pool) → holds id pool ∧ id ∉ ids).
  { intros ids pool id Hid. apply list_elem_of_filter in Hid as [Hnot Hin].
    split; [exact Hin|exact Hnot]. }
  assert (H2 : holds 3 (P2P.txPool (snd (P2P.handleL2Blocks blocks c)))).
  { vm_compute. left. }
  split; [exact H1|]. split; [exact H2|].
  apply (handleL2Blocks_removes_block_txs holds c blocks 3 H1 H2).
Defined.

(** The run of X8's theorem: the store accepts the notes of block 10 and
    rejects the removal of the nullifier 0. *)
Lemma process_rejected_write_witness :
  let p := processor emptyJournaled in
  let l2Blocks := [blockOf 10 [26] [0]] in
  let batches := [batchOf [logIncoming; logDeferred]] in
  let p' := snd (Fallible.process l2Blocks batches p) in
  Fallible.process l2Blocks batches p = (Err StorageError, p') ∧
  journal (db p') = [AddNotes [noteIncoming 10] []] ∧
  ((process l2Blocks batches p = (Err StorageError, p') ∧ db p' = db p) ∨
   (∃ p'' accepted call rest,
      process l2Blocks batches p = (Ok tt, p'') ∧
      journal (db p'') = journal (db p) ++ accepted ++ call :: rest ∧
      journal (db p') = journal (db p) ++ accepted ∧
      store (db p') = foldl (λ d call, perform call d) (store (db p)) accepted ∧
      Forall leavesSynchedBlock accepted ∧
      writeFails call (db p') = Some StorageError)).
Proof.
  intros p l2Blocks batches p'.
  assert (H1 : Fallible.process l2Blocks batches p = (Err StorageError, p'))
    by (vm_compute; reflexivity).
  split; [exact H1|]. split; [vm_compute; reflexivity|].
  apply (process_rejected_write p p' l2Blocks batches StorageError H1).
Defined.

(** The run of X9's theorem: a block with an incoming note and a deferred
    note. *)
Lemma process_counts_its_notes_witness :
  let p := processor emptyJournaled in
  let l2Blocks := [blockOf 10 [26] [5]] in
  let batches := [batchOf [logIncoming; logForeign; logDeferred]] in
  let p' := snd (process l2Blocks batches p) in
  let blocksAndNotes :=
    [{| ProcessedData.block := blockOf 10 [26] [5];
        ProcessedData.incomingNotes := [noteIncoming 10];
        ProcessedData.outgoingNotes := [] |}] in
  let deferredNotes := [noteDeferred 10 [26]] in
  process l2Blocks batches p = (Ok tt, p') ∧
  collect l2Blocks batches p
    = (Ok (blocksAndNotes, deferredNotes), snd (collect l2Blocks batches p)) ∧
  decryptedIncoming (stats p') = decryptedIncoming (stats p) + 1 ∧
  decryptedOutgoing (stats p') = decryptedOutgoing (stats p) + 0 ∧
  deferred (stats p') = deferred (stats p) + 1.
Proof.
  intros p l2Blocks batches p' blocksAndNotes deferredNotes.
  assert (H1 : process l2Blocks batches p = (Ok tt, p'))
    by (vm_compute; reflexivity).
  assert (H2 : collect l2Blocks batches p
    = (Ok (blocksAndNotes, deferredNotes), snd (collect l2Blocks batches p)))
    by (vm_compute; reflexivity).
  split; [exact H1|]. split; [exact H2|].
  apply (process_counts_its_notes p p' _ l2Blocks batches
           blocksAndNotes deferredNotes H1 H2).
Defined.

(** The run of X10's theorem: a block that nullifies a note and whose only
    log is for someone else. *)
Lemma process_nothing_for_account_witness :
  let p := processor MemoryDb.empty in
  let l2Blocks := [blockOf 11 [] [1026]] in
  let batches := [batchOf [logForeign]] in
  aligned l2Blocks batches ∧
  last l2Blocks = Some (blockOf 11 [] [1026]) ∧
  Forall (notForAccount (getMasterSecretKey (ivpkM p))
            (getMasterSecretKey (ovpkM p))) (batches ≫= logsOf) ∧
  ∃ p', process l2Blocks batches p = (Ok tt, p') ∧
        simulator p' = simulator p ∧
        db p' =
          setSynchedBlockNumberForPublicKey (ivpkM p)
            (number (blockOf 11 [] [1026]))
            (snd (removeNullifiedNotes (nullifiersOf l2Blocks) (ivpkM p) (db p))).
Proof.
  intros p l2Blocks batches.
  assert (H1 : aligned l2Blocks batches).
  { repeat constructor. }
  assert (H2 : last l2Blocks = Some (blockOf 11 [] [1026])) by reflexivity.
  assert (H3 : Forall (notForAccount (getMasterSecretKey (ivpkM p))
                         (getMasterSecretKey (ovpkM p))) (batches ≫= logsOf)).
  { apply Forall_cons_2; [|apply Forall_nil_2]. split; reflexivity. }
  split; [exact H1|]. split; [exact H2|]. split; [exact H3|].
  apply (process_nothing_for_account p l2Blocks batches _ H1 H2 H3).
Defined.

(** The run of X11's theorem: the note that block 10 creates stays, and
    its nullifier is not among those of block 10. *)
Lemma process_leaves_no_nullified_note_witness :
  let p := processor MemoryDb.empty in
  let l2Blocks := [blockOf 10 [26] [5]] in
  let batches := [batchOf [logIncoming]] in
  let p' := snd (process l2Blocks batches p) in
  l2Blocks ≠ [] ∧
  process l2Blocks batches p = (Ok tt, p') ∧
  noteIncoming 10 ∈ MemoryDb.notes (db p') ∧
  IncomingNoteDao.ivpkM (noteIncoming 10) = ivpkM p ∧
  IncomingNoteDao.siloedNullifier (noteIncoming 10) ∉ nullifiersOf l2Blocks.
Proof.
  intros p l2Blocks batches p'.
  assert (H1 : l2Blocks ≠ []) by discriminate.
  assert (H2 : process l2Blocks batches p = (Ok tt, p'))
    by (vm_compute; reflexivity).
  assert (H3 : noteIncoming 10 ∈ MemoryDb.notes (db p')).
  { vm_compute. left. }
  assert (H4 : IncomingNoteDao.ivpkM (noteIncoming 10) = ivpkM p)
    by reflexivity.
  split; [exact H1|]. split; [exact H2|]. split; [exact H3|].
  split; [exact H4|].
  apply (process_leaves_no_nullified_note p p' l2Blocks batches
           (noteIncoming 10) H1 H2 H3 H4).
Defined.

(** The run of X12's theorem: a store with the note of block 10, and a
    block 11 that nullifies something else. *)
Lemma process_keeps_the_rest_witness :
  let p := snd (process [blockOf 10 [26] []] [batchOf [logIncoming]]
                  (processor MemoryDb.empty)) in
  let l2Blocks := [blockOf 11 [] [5]] in
  let batches := [batchOf [logForeign]] in
  let p' := snd (process l2Blocks batches p) in
  process l2Blocks batches p = (Ok tt, p') ∧
  (∀ n, n ∈ MemoryDb.notes (db p) →
        ¬ MemoryDb.nullified (nullifiersOf l2Blocks) (ivpkM p) n →
        n ∈ MemoryDb.notes (db p')) ∧
  MemoryDb.outgoingNotes (db p) `prefix_of` MemoryDb.outgoingNotes (db p') ∧
  MemoryDb.deferredNotes (db p) `prefix_of` MemoryDb.deferredNotes (db p') ∧
  (∀ account, account ≠ ivpkM p →
     getSynchedBlockNumberForPublicKey account (db p')
     = getSynchedBlockNumberForPublicKey account (db p)).
Proof.
  intros p l2Blocks batches p'.
  assert (H1 : process l2Blocks batches p = (Ok tt, p'))
    by (vm_compute; reflexivity).
  split; [exact H1|].
  apply (process_keeps_the_rest p p' l2Blocks batches H1).
Defined.

(** The run of X16's theorem: a block with one transaction and three
    logs, one of them for someone else. *)
Lemma process_counts_what_it_saw_witness :
  let p := processor emptyJournaled in
  let l2Blocks := [blockOf 10 [26] [5]] in
  let batches := [batchOf [logIncoming; logForeign; logDeferred]] in
  let p' := snd (process l2Blocks batches p) in
  process l2Blocks batches p = (Ok tt, p') ∧
  blocks (stats p') = blocks (stats p) + 1 ∧
  txs (stats p') = txs (stats p) + 1 ∧
  seen (stats p') = seen (stats p) + 3.
Proof.
  intros p l2Blocks batches p'.
  assert (H1 : process l2Blocks batches p = (Ok tt, p'))
    by (vm_compute; reflexivity).
  split; [exact H1|].
  apply (process_counts_what_it_saw p p' l2Blocks batches H1).
Defined.

(** The run of X17's theorem: a processor on an empty store, given block
    10, with the node at block 10. *)
Lemma status_after_process_witness :
  let p := processor MemoryDb.empty in
  let l2Blocks := [blockOf 10 [26] [5]] in
  let batches := [batchOf [logIncoming]] in
  let p' := snd (process l2Blocks batches p) in
  (∀ account n (d : MemoryDb.t),
     getSynchedBlockNumberForPublicKey account
       (setSynchedBlockNumberForPublicKey account n d) = Some n) ∧
  last l2Blocks = Some (blockOf 10 [26] [5]) ∧
  process l2Blocks batches p = (Ok tt, p') ∧
  syncedToBlock (status p') = 10 ∧
  isSynchronized 10 p' = true.
Proof.
  intros p l2Blocks batches p'.
  assert (H1 : ∀ account n (d : MemoryDb.t),
     getSynchedBlockNumberForPublicKey account
       (setSynchedBlockNumberForPublicKey account n d) = Some n).
  { intros account n d. simpl. apply lookup_insert_eq. }
  assert (H2 : last l2Blocks = Some (blockOf 10 [26] [5])) by reflexivity.
  assert (H3 : process l2Blocks batches p = (Ok tt, p'))
    by (vm_compute; reflexivity).
  split; [exact H1|]. split; [exact H2|]. split; [exact H3|].
  apply (status_after_process p p' l2Blocks batches (blockOf 10 [26] [5]) 10
           H1 H2 H3).
Defined.

(** The run of X18's theorem: a client synching to block 7 that is
    delivered the blocks 6 and 7. *)
Lemma handleL2Blocks_log_witness :
  let c := snd (P2P.start 7 (P2P.new (H := p2p) [1; 2; 3])) in
  let blocks : list (P2P.L2Block (Collaborators := p2p)) :=
    [(6, [2; 3]); (7, [1])] in
  last blocks = Some (7, [1]) ∧
  P2P.log (snd (P2P.handleL2Blocks blocks c))
  = P2P.log c
    ++ [P2P.DeletingTx 2; P2P.DeletingTx 3; P2P.DeletingTx 1;
        P2P.SynchedToBlock 7; P2P.MovedToState P2P.RUNNING].
Proof.
  intros c blocks.
  assert (H1 : last blocks = Some (7, [1])) by reflexivity.
  split; [exact H1|].
  apply (handleL2Blocks_log c blocks (7, [1]) H1).
Defined.

(** A retry on a run: of two deferred records, one of another account,
    the simulator is called for this account's only. *)
Example decodeDeferredNotes_calls_run :
  map argNewNoteHashes
    (calls (simulator (snd (decodeDeferredNotes
       [deferredOf 5 [26]; deferredOf 1 [26; 27]]
       {| stats := noStats; account := 9; ivpkM := 1; ovpkM := 2;
          db := MemoryDb.empty; startingBlock := 1;
          simulator := {| calls := []; underlying := ({[1]} : gset Z) |} |}))))
  = [[26; 27]].
Proof. by vm_compute. Qed.

End FurtherRuns.
